(** * WebChord: chord model, procedural generator and suggestion engine

    A shallow embedding of the algorithmic core of the WebChord
    instrument: [music/chords] (chord construction), the procedural
    progression generator and the live chord-suggestion engine, with the
    scale helpers, the history of the suggestion panel and the chord
    builder of the standalone keyboard instrument.

    Conventions of the embedding.
    - JavaScript integers that index arrays or count loop iterations are
      [nat]; other integers (scale degrees, pitches, pulse counts) are [Z],
      with [%] as [Z.rem] and [Math.floor(a / b)] as [Z.div].
    - JavaScript numbers that hold fractions are exact rationals [Q]
      wrapped in [num], which adds the two infinities and [NaN] with the
      IEEE rules for them. Rounding of doubles is not modelled.
    - [Math.random()] reads the next element of a stream [nat -> Q]; the
      position in the stream is threaded through the code ([Rand]).
    - [throw] is the [Throw] case of [result]. *)

From stdpp Require Import base list strings.
From Stdlib Require Import ZArith QArith Qround Qabs Lia Lqa Permutation.
From stdpp Require Import sorting.
From Stdlib Require Import DecimalString.

Open Scope Z_scope.

(** ** JavaScript numbers *)

Module JSNum.

Inductive num : Type :=
| Fin (q : Q)
| Inf (negative : bool)
| NaN.

Definition Qltb (a b : Q) : bool := negb (Qle_bool b a).

Definition nopp (a : num) : num :=
  match a with
  | Fin q => Fin (- q)
  | Inf s => Inf (negb s)
  | NaN => NaN
  end.

Definition nadd (a b : num) : num :=
  match a, b with
  | NaN, _ | _, NaN => NaN
  | Fin x, Fin y => Fin (x + y)
  | Inf s, Fin _ | Fin _, Inf s => Inf s
  | Inf s, Inf t => if Bool.eqb s t then Inf s else NaN
  end.

Definition nsub (a b : num) : num := nadd a (nopp b).

Definition nmul (a b : num) : num :=
  match a, b with
  | NaN, _ | _, NaN => NaN
  | Fin x, Fin y => Fin (x * y)
  | Inf s, Fin y | Fin y, Inf s =>
      if Qeq_bool y 0 then NaN else Inf (xorb s (Qltb y 0))
  | Inf s, Inf t => Inf (xorb s t)
  end.

(** Division; the zero of the model is the positive zero. *)
Definition ndiv (a b : num) : num :=
  match a, b with
  | NaN, _ | _, NaN => NaN
  | Fin x, Fin y =>
      if Qeq_bool y 0
      then (if Qeq_bool x 0 then NaN else Inf (Qltb x 0))
      else Fin (x / y)
  | Fin _, Inf _ => Fin 0
  | Inf s, Fin y => Inf (xorb s (Qltb y 0))
  | Inf _, Inf _ => NaN
  end.

Definition nabs (a : num) : num :=
  match a with
  | Fin q => Fin (Qabs q)
  | Inf _ => Inf false
  | NaN => NaN
  end.

(** [a <= b]; every comparison with [NaN] is false. *)
Definition nleb (a b : num) : bool :=
  match a, b with
  | NaN, _ | _, NaN => false
  | Fin x, Fin y => Qle_bool x y
  | Inf s, Inf t => orb s (negb t)
  | Inf s, Fin _ => s
  | Fin _, Inf t => negb t
  end.

Definition nltb (a b : num) : bool :=
  match a, b with
  | NaN, _ | _, NaN => false
  | _, _ => negb (nleb b a)
  end.

Definition ngtb (a b : num) : bool := nltb b a.

(** [Math.max] and [Math.min] of two numbers. *)
Definition nmax (a b : num) : num :=
  match a, b with
  | NaN, _ | _, NaN => NaN
  | _, _ => if nleb a b then b else a
  end.

Definition nmin (a b : num) : num :=
  match a, b with
  | NaN, _ | _, NaN => NaN
  | _, _ => if nleb a b then a else b
  end.

Definition is_finite (a : num) : Prop := exists q, a = Fin q.

End JSNum.
Import JSNum.

Declare Scope num_scope.
Delimit Scope num_scope with num.
Bind Scope num_scope with num.
Infix "+" := nadd : num_scope.
Infix "-" := nsub : num_scope.
Infix "*" := nmul : num_scope.
Infix "/" := ndiv : num_scope.

(** Results of code that can [throw]. *)
Inductive result (A : Type) : Type :=
| Ok (a : A)
| Throw (message : string).
Arguments Ok {A} a.
Arguments Throw {A} message.

(** ** Chord model (music/chords) *)

Module Chords.

Inductive Key : Type :=
| K_C | K_Cs | K_D | K_Ds | K_E | K_F | K_Fs | K_G | K_Gs | K_A | K_As | K_B.

Inductive ChordType : Type :=
| major | minor | dom7 | maj7 | min7 | sus2 | sus4 | aug | dim
| maj9 | min9 | maj6.

#[export] Instance Key_eq_dec : EqDecision Key.
Proof. solve_decision. Defined.

Definition NOTES : list Key :=
  [K_C; K_Cs; K_D; K_Ds; K_E; K_F; K_Fs; K_G; K_Gs; K_A; K_As; K_B].

Definition MAJOR_SCALE : list Z := [0; 2; 4; 5; 7; 9; 11].

Definition CHORD_INTERVALS (t : ChordType) : list Z :=
  match t with
  | major => [0; 4; 7]
  | minor => [0; 3; 7]
  | dom7 => [0; 4; 7; 10]
  | maj7 => [0; 4; 7; 11]
  | min7 => [0; 3; 7; 10]
  | sus2 => [0; 2; 7]
  | sus4 => [0; 5; 7]
  | aug => [0; 4; 8]
  | dim => [0; 3; 6]
  | maj9 => [0; 4; 7; 11; 14]
  | min9 => [0; 3; 7; 10; 14]
  | maj6 => [0; 4; 7; 9]
  end.

Definition NASHVILLE_CHORDS (degree : Z) : option ChordType :=
  match degree with
  | 1 => Some major
  | 2 => Some minor
  | 3 => Some minor
  | 4 => Some major
  | 5 => Some major
  | 6 => Some minor
  | 7 => Some dim
  | _ => None
  end.

(** [Array.prototype.indexOf]: the first index, or -1. *)
Fixpoint indexOf {T} `{EqDecision T} (x : T) (l : list T) (i : Z) : Z :=
  match l with
  | [] => -1
  | y :: l' => if decide (y = x) then i else indexOf x l' (i + 1)
  end.

Definition getNoteIndex (note : Key) : Z := indexOf note NOTES 0.

(** One pass of the inversion loop: [shift] the first note and [push] it
    an octave higher. *)
Definition invert_once (notes : list Z) : list Z :=
  match notes with
  | [] => []
  | note :: rest => rest ++ [note + 12]
  end.

Fixpoint invert (n : nat) (notes : list Z) : list Z :=
  match n with
  | O => notes
  | S n' => invert n' (invert_once notes)
  end.

Definition generateChord (key : Key) (scaleDegree : Z)
    (chordType : option ChordType) (inversion : Z) (octave : Z)
    : result (list Z) :=
  if (scaleDegree <? 1) || (scaleDegree >? 7) then
    Throw "Scale degree must be between 1 and 7"
  else
    let keyIndex := getNoteIndex key in
    (* the index is in range once the guard has passed *)
    let scaleRootSemitones :=
      default 0 (MAJOR_SCALE !! Z.to_nat (scaleDegree - 1)) in
    let chordRootSemitones := Z.rem (keyIndex + scaleRootSemitones) 12 in
    let baseChordType :=
      match chordType with
      | Some t => Some t
      | None => NASHVILLE_CHORDS scaleDegree
      end in
    let intervals :=
      match baseChordType with
      | Some t => CHORD_INTERVALS t
      | None => CHORD_INTERVALS major
      end in
    let midiNotes :=
      map (fun interval =>
             let semitones := chordRootSemitones + interval in
             let noteIndex := Z.rem semitones 12 in
             let octaveOffset := semitones / 12 in
             (octave + 1) * 12 + noteIndex + octaveOffset * 12)
          intervals in
    if (inversion >? 0) && (inversion <? Z.of_nat (length midiNotes)) then
      Ok (invert (Z.to_nat inversion) midiNotes)
    else
      Ok midiNotes.

(** The pitch class of a MIDI note. *)
Definition pitchClass (note : Z) : Z := note mod 12.

Inductive ChordModType : Type :=
| mod_maj_min | mod_7th | mod_maj7_min7 | mod_maj9_min9 | mod_sus4
| mod_sus2_add6 | mod_dim | mod_aug.

(** A key is its name. *)
Definition keyName (k : Key) : string :=
  match k with
  | K_C => "C" | K_Cs => "C#" | K_D => "D" | K_Ds => "D#" | K_E => "E"
  | K_F => "F" | K_Fs => "F#" | K_G => "G" | K_Gs => "G#" | K_A => "A"
  | K_As => "A#" | K_B => "B"
  end.

(** [array[i]] for an integer [i]: [undefined] outside the array. *)
Definition at_index {T} (l : list T) (i : Z) : option T :=
  if i <? 0 then None else l !! Z.to_nat i.

Definition getNoteFromIndex (index : Z) : option Key :=
  at_index NOTES (Z.rem (Z.rem index 12 + 12) 12).

Definition typeNames (t : ChordType) : string :=
  match t with
  | major => "Major"
  | minor => "Minor"
  | dom7 => "7"
  | maj7 => "Maj7"
  | min7 => "Min7"
  | sus2 => "Sus2"
  | sus4 => "Sus4"
  | aug => "Aug"
  | dim => "Dim"
  | maj9 => "Maj9"
  | min9 => "Min9"
  | maj6 => "Maj6"
  end.

(** [getChordName] has no guard on the degree. Outside 1..7 the scale
    offset is [undefined], the root index is [NaN], [NOTES[NaN]] is
    [undefined], and the template prints it as "undefined". *)
Definition getChordName (key : Key) (scaleDegree : Z)
    (chordType : option ChordType) : string :=
  let keyIndex := getNoteIndex key in
  let rootNote :=
    match at_index MAJOR_SCALE (scaleDegree - 1) with
    | Some scaleRootSemitones =>
        let chordRootSemitones := Z.rem (keyIndex + scaleRootSemitones) 12 in
        getNoteFromIndex chordRootSemitones
    | None => None
    end in
  let baseChordType :=
    match chordType with
    | Some t => Some t
    | None => NASHVILLE_CHORDS scaleDegree
    end in
  (match rootNote with Some k => keyName k | None => "undefined" end)
  ++ " "
  ++ (match baseChordType with Some t => typeNames t | None => "" end).

Definition modMap (modification : ChordModType) (baseType : ChordType)
    : option ChordType :=
  match modification, baseType with
  | mod_maj_min, major => Some minor
  | mod_maj_min, minor => Some major
  | mod_7th, major => Some dom7
  | mod_7th, minor => Some min7
  | mod_maj7_min7, major => Some maj7
  | mod_maj7_min7, minor => Some min7
  | mod_maj7_min7, dom7 => Some maj7
  | mod_maj7_min7, min7 => Some min7
  | mod_maj9_min9, major => Some maj9
  | mod_maj9_min9, minor => Some min9
  | mod_maj9_min9, maj7 => Some maj9
  | mod_maj9_min9, min7 => Some min9
  | mod_sus4, major => Some sus4
  | mod_sus4, minor => Some sus4
  | mod_sus2_add6, major => Some sus2
  | mod_sus2_add6, minor => Some maj6
  | mod_dim, major => Some dim
  | mod_dim, minor => Some dim
  | mod_aug, major => Some aug
  | mod_aug, minor => Some aug
  | _, _ => None
  end.

Definition applyChordModification (baseType : ChordType)
    (modification : ChordModType) : ChordType :=
  default baseType (modMap modification baseType).

End Chords.

(** ** Scales (music/scales) *)

Module Scales.

Inductive Mode : Type := major | minor.

Definition getScaleIntervals (mode : Mode) : list Z :=
  match mode with
  | major => [0; 2; 4; 5; 7; 9; 11]
  | minor => [0; 2; 3; 5; 7; 8; 10]
  end.

Definition getScaleNotes (key : Chords.Key) (mode : Mode)
    : list (option Chords.Key) :=
  let intervals := getScaleIntervals mode in
  let keyIndex := @Chords.indexOf _ Chords.Key_eq_dec key Chords.NOTES 0 in
  map (fun interval =>
         let noteIndex := Z.rem (keyIndex + interval) 12 in
         Chords.at_index Chords.NOTES noteIndex)
      intervals.

End Scales.

(** ** Randomness and objects *)

(** A computation that may call [Math.random()]: it reads the stream of
    draws from the current position and returns the next position. *)
Definition Rand (A : Type) : Type := (nat -> Q) -> nat -> A * nat.

Definition ret {A} (a : A) : Rand A := fun _ n => (a, n).

Definition bind {A B} (c : Rand A) (k : A -> Rand B) : Rand B :=
  fun rnd n => k (fst (c rnd n)) rnd (snd (c rnd n)).

Definition Math_random : Rand Q := fun rnd n => (rnd n, S n).

Notation "'let*' x ':=' c 'in' k" := (bind c (fun x => k))
  (at level 10, x name, c at level 100, k at level 200).

(** [for (const x of xs)] with an accumulator, and [xs.map] with draws. *)
Fixpoint foldM {A S} (f : S -> A -> Rand S) (xs : list A) (s : S) : Rand S :=
  match xs with
  | [] => ret s
  | x :: xs' => let* s' := f s x in foldM f xs' s'
  end.

Fixpoint mapM {A B} (f : A -> Rand B) (xs : list A) : Rand (list B) :=
  match xs with
  | [] => ret []
  | x :: xs' => let* y := f x in let* ys := mapM f xs' in ret (y :: ys)
  end.

(** What [Math.random()] promises of every draw. *)
Definition unit_draws (rnd : nat -> Q) : Prop :=
  forall i, (0 <= rnd i)%Q /\ (rnd i < 1)%Q.

(** An object whose keys are array indices: JavaScript enumerates such keys
    in ascending numeric order, whatever the order of insertion. *)
Definition obj (V : Type) : Type := list (Z * V).

Fixpoint obj_set {V} (k : Z) (v : V) (o : obj V) : obj V :=
  match o with
  | [] => [(k, v)]
  | (k', v') :: o' =>
      if k =? k' then (k, v) :: o'
      else if k <? k' then (k, v) :: (k', v') :: o'
      else (k', v') :: obj_set k v o'
  end.

Fixpoint obj_get {V} (k : Z) (o : obj V) : option V :=
  match o with
  | [] => None
  | (k', v) :: o' => if k =? k' then Some v else obj_get k o'
  end.

(** An object literal, entries in the order of the source text. *)
Definition obj_of {V} (entries : list (Z * V)) : obj V :=
  fold_left (fun o e => obj_set (fst e) (snd e) o) entries [].

Definition of_nat (n : nat) : num := Fin (inject_Z (Z.of_nat n)).

(** One entry [k: v] of an object literal with numeric values. *)
Notation "k :-> v" := (pair k%Z v%Q)
  (at level 70, no associativity, only parsing).

(** A property read as a number: [undefined] is [NaN] in arithmetic. *)
Definition to_num (v : option Q) : num :=
  match v with
  | Some q => Fin q
  | None => NaN
  end.

(** ** Procedural generator *)

Module Generator.

Record GenerativeSlot : Type := mkSlot {
  position : nat;
  degree : option Z;
  velocity : num;
  duration : Z;
  tension : num;
  swing : num;
  stagger : num;
}.

Record GenerationConfig : Type := mkConfig {
  slots : nat;
  density : Q;
  tensionCurve : string;
  rhythmicStyle : string;
  phraseStructure : string;
  creativity : Q;
}.

Definition CHORD_TENSION_MAP : obj Q :=
  obj_of [1 :-> 0.1; 2 :-> 0.4; 3 :-> 0.5; 4 :-> 0.3; 5 :-> 0.8; 6 :-> 0.4;
          7 :-> 0.9].

(** Keys are the patterns [`${second}-${previous}`], kept as pairs. *)
Definition MARKOV_2ND_ORDER : list ((Z * Z) * obj Q) :=
  [ ((1, 5), obj_of [6 :-> 0.50; 4 :-> 0.30; 1 :-> 0.15; 2 :-> 0.05]);
    ((5, 6), obj_of [4 :-> 0.60; 1 :-> 0.25; 5 :-> 0.10; 2 :-> 0.05]);
    ((6, 4), obj_of [1 :-> 0.45; 5 :-> 0.40; 2 :-> 0.10; 6 :-> 0.05]);
    ((4, 1), obj_of [5 :-> 0.50; 6 :-> 0.25; 4 :-> 0.15; 2 :-> 0.10]);
    ((2, 5), obj_of [1 :-> 0.70; 6 :-> 0.15; 4 :-> 0.10; 3 :-> 0.05]);
    ((6, 2), obj_of [5 :-> 0.60; 1 :-> 0.25; 4 :-> 0.10; 6 :-> 0.05]);
    ((1, 4), obj_of [5 :-> 0.50; 1 :-> 0.25; 2 :-> 0.15; 6 :-> 0.10]);
    ((4, 5), obj_of [1 :-> 0.70; 6 :-> 0.20; 4 :-> 0.05; 3 :-> 0.05]);
    ((1, 3), obj_of [6 :-> 0.40; 4 :-> 0.30; 2 :-> 0.20; 5 :-> 0.10]);
    ((3, 6), obj_of [2 :-> 0.40; 4 :-> 0.35; 5 :-> 0.15; 1 :-> 0.10]) ].

Definition MARKOV_1ST_ORDER : obj (obj Q) :=
  obj_of
  [ (1, obj_of [4 :-> 0.30; 5 :-> 0.25; 6 :-> 0.20; 2 :-> 0.15; 1 :-> 0.05;
                3 :-> 0.03; 7 :-> 0.02]);
    (2, obj_of [5 :-> 0.50; 1 :-> 0.20; 4 :-> 0.15; 6 :-> 0.10; 3 :-> 0.03;
                2 :-> 0.01; 7 :-> 0.01]);
    (3, obj_of [6 :-> 0.40; 4 :-> 0.25; 2 :-> 0.15; 5 :-> 0.10; 1 :-> 0.07;
                3 :-> 0.02; 7 :-> 0.01]);
    (4, obj_of [5 :-> 0.35; 1 :-> 0.30; 2 :-> 0.15; 6 :-> 0.10; 4 :-> 0.05;
                3 :-> 0.03; 7 :-> 0.02]);
    (5, obj_of [1 :-> 0.50; 6 :-> 0.25; 4 :-> 0.12; 2 :-> 0.08; 5 :-> 0.03;
                3 :-> 0.01; 7 :-> 0.01]);
    (6, obj_of [4 :-> 0.30; 2 :-> 0.25; 5 :-> 0.20; 1 :-> 0.15; 3 :-> 0.05;
                6 :-> 0.03; 7 :-> 0.02]);
    (7, obj_of [1 :-> 0.70; 3 :-> 0.15; 6 :-> 0.10; 5 :-> 0.03; 4 :-> 0.01;
                2 :-> 0.01; 7 :-> 0.00]) ].

Definition pattern_eqb (p q : Z * Z) : bool :=
  (fst p =? fst q) && (snd p =? snd q).

Fixpoint lookup_pattern {V} (p : Z * Z) (table : list ((Z * Z) * V))
    : option V :=
  match table with
  | [] => None
  | (q, v) :: table' =>
      if pattern_eqb p q then Some v else lookup_pattern p table'
  end.

Section TensionCurves.

(** [Math.sin] on finite numbers and [Math.PI]. *)
Variable Math_sin : Q -> Q.
Variable Math_PI : Q.

Definition nsin (a : num) : num :=
  match a with
  | Fin q => Fin (Math_sin q)
  | Inf _ | NaN => NaN
  end.

Definition generateTensionCurve (length : nat) (type : string)
    : Rand (list num) :=
  let len1 := Fin (inject_Z (Z.of_nat length - 1)) in
  if String.eqb type "arc" then
    ret (map (fun i =>
                let normalized := (of_nat i / len1)%num in
                nsin (normalized * Fin Math_PI)%num)
             (seq 0 length))
  else if String.eqb type "wave" then
    ret (map (fun i =>
                let normalized := (of_nat i / len1)%num in
                ((nsin (normalized * Fin Math_PI * Fin 2) + Fin 1)
                 / Fin 2)%num)
             (seq 0 length))
  else if String.eqb type "buildup" then
    ret (map (fun i => (of_nat i / len1)%num) (seq 0 length))
  else if String.eqb type "release" then
    ret (map (fun i => (Fin 1 - of_nat i / len1)%num) (seq 0 length))
  else if String.eqb type "random" then
    mapM (fun i =>
            let base :=
              nsin (of_nat i / of_nat length * Fin Math_PI * Fin 3)%num in
            let* r := Math_random in
            let noise := Fin ((r - 0.5) * 0.3)%Q in
            ret (nmax (Fin 0)
                   (nmin (Fin 1) ((base + Fin 1) / Fin 2 + noise)%num)))
         (seq 0 length)
  else
    ret (repeat (Fin 0.5%Q) length).

End TensionCurves.

Definition euclideanRhythm (steps : nat) (pulses : Z) : list bool :=
  if pulses >=? Z.of_nat steps then repeat true steps
  else if pulses =? 0 then repeat false steps
  else
    let bucket :=
      map (fun i => (Z.of_nat i * pulses) / Z.of_nat steps) (seq 0 steps) in
    map (fun i =>
           negb (default 0 (bucket !! i)
                 =? (if (0 <? i)%nat then default 0 (bucket !! (i - 1)%nat)
                     else -1)))
        (seq 0 steps).

(** [Math.round]: the nearest integer, halves upwards. Where the code
    rounds a product of doubles, the product here is exact and can lie on
    the other side of a tie; the properties of the density map use of the
    pulse count only that it is at least one. *)
Definition Math_round (q : Q) : Z := Qfloor (q + 0.5)%Q.

(** The template loops of the syncopated and sparse styles: the first
    [min(pulsesCount, template.length)] template positions that lie inside
    the array are set. *)
Definition fill_template (length : nat) (pulsesCount : Z)
    (template : list nat) : list bool :=
  fold_left
    (fun arr p => if (p <? length)%nat then <[p := true]> arr else arr)
    (take (Z.to_nat (Z.min pulsesCount (Z.of_nat (List.length template))))
          template)
    (repeat false length).

Definition generateDensityMap (length : nat) (targetDensity : Q)
    (rhythmStyle : string) : Rand (list bool) :=
  let pulsesCount :=
    Z.max 1 (Math_round (inject_Z (Z.of_nat length) * targetDensity)%Q) in
  if String.eqb rhythmStyle "steady" then
    ret (euclideanRhythm length pulsesCount)
  else if String.eqb rhythmStyle "syncopated" then
    ret (fill_template length pulsesCount [1; 3; 6; 9; 11; 13]%nat)
  else if String.eqb rhythmStyle "euclidean" then
    ret (euclideanRhythm length pulsesCount)
  else if String.eqb rhythmStyle "sparse" then
    ret (fill_template length pulsesCount [0; 4; 8; 12]%nat)
  else
    mapM (fun _ : bool => let* r := Math_random in ret (Qltb r targetDensity))
         (repeat false length).

(** The walk of the weighted selection: subtract each weight in turn and
    return at the first entry that brings [random] to zero or below. In
    exact arithmetic a draw below the total stops inside the map; with
    doubles a remainder can survive the last entry, and the fallback
    returns the tonic. *)
Fixpoint weightedWalk (entries : list (Z * num)) (random : num) : Z :=
  match entries with
  | [] => 1
  | (degree, weight) :: entries' =>
      let random' := (random - weight)%num in
      if nleb random' (Fin 0) then degree else weightedWalk entries' random'
  end.

(** [Object.entries(transitions).forEach(...)]: every transition
    probability is copied into the weights under its degree. *)
Definition copyRow (transitions : obj Q) : obj num :=
  fold_left (fun w e => obj_set (fst e) (Fin (snd e)) w) transitions [].

(** No previous chord: [weights[1] = 0.6; weights[5] = 0.3;
    weights[4] = 0.1]. *)
Definition startWeights : obj num :=
  obj_set 4 (Fin 0.1%Q) (obj_set 5 (Fin 0.3%Q) (obj_set 1 (Fin 0.6%Q) [])).

(** The base probabilities: the second-order row of the last two chords
    when there is one, else the first-order row of the last chord, else
    nothing; the start weights when there is no last chord. *)
Definition baseWeights (previousChord secondPreviousChord : option Z)
    : obj num :=
  match previousChord with
  | Some previous =>
      let pattern :=
        match secondPreviousChord with
        | Some second => Some (second, previous)
        | None => None
        end in
      let transitions :=
        match pattern ≫= (fun p => lookup_pattern p MARKOV_2ND_ORDER) with
        | Some t => t
        | None => default [] (obj_get previous MARKOV_1ST_ORDER)
        end in
      copyRow transitions
  | None => startWeights
  end.

(** The tension match. The [forEach] over [Object.keys(weights)] rewrites
    every entry once and adds no key, so it is a map over the entries. *)
Definition tensionWeights (targetTension : num) (weights : obj num)
    : obj num :=
  map (fun e =>
         let degree := fst e in
         let chordTension := to_num (obj_get degree CHORD_TENSION_MAP) in
         let tensionDiff := nabs (targetTension - chordTension)%num in
         let tensionMatch := (Fin 1 - tensionDiff)%num in
         (degree, (snd e * (Fin 1 + tensionMatch * Fin 2))%num))
      weights.

(** The creativity jitter: one draw per entry, in the order of the keys. *)
Definition creativityWeights (creativity : Q) (weights : obj num)
    : Rand (obj num) :=
  if Qltb 0 creativity then
    mapM (fun e =>
            let degree := fst e in
            let* r := Math_random in
            let randomBoost := Fin (1 + r * creativity * 0.5)%Q in
            let w := (snd e * randomBoost)%num in
            ret (degree,
                 if (degree =? 3) || (degree =? 7)
                 then (w * Fin (1 + creativity)%Q)%num else w))
         weights
  else ret weights.

Definition totalWeight (weights : obj num) : num :=
  fold_left nadd (map snd weights) (Fin 0).

(** The weight map as it stands when the selection draws. *)
Definition selectionWeights (targetTension : num)
    (previousChord secondPreviousChord : option Z) (creativity : Q)
    : Rand (obj num) :=
  creativityWeights creativity
    (tensionWeights targetTension
       (baseWeights previousChord secondPreviousChord)).

Definition selectChordForTension (targetTension : num)
    (previousChord secondPreviousChord : option Z) (creativity : Q)
    : Rand Z :=
  let* weights :=
    selectionWeights targetTension previousChord secondPreviousChord
      creativity in
  let* r := Math_random in
  let random := (Fin r * totalWeight weights)%num in
  ret (weightedWalk weights random).

(** The generator's store. Every slot is an object allocated by the loop;
    [result] is the array of references to them, so that the slot found by
    the ending pass is the very object the array holds. *)
Record Store : Type := mkStore {
  heap : list GenerativeSlot;
  result : list nat;
}.

Record LoopState : Type := mkState {
  store : Store;
  previousChord : option Z;
  secondPreviousChord : option Z;
}.

(** [result.push({...})]: a fresh object, and its reference appended. *)
Definition push (s : GenerativeSlot) (st : Store) : Store :=
  {| heap := heap st ++ [s];
     result := result st ++ [List.length (heap st)] |}.

Definition set_degree (d : option Z) (s : GenerativeSlot) : GenerativeSlot :=
  {| position := position s; degree := d; velocity := velocity s;
     duration := duration s; tension := tension s; swing := swing s;
     stagger := stagger s |}.

(** The slots of the array, read through the references. *)
Definition readSlots (st : Store) : list GenerativeSlot :=
  omap (fun ref => heap st !! ref) (result st).

Section Progression.

Variable Math_sin : Q -> Q.
Variable Math_PI : Q.

(** One iteration of the main loop, for slot [i]. *)
Definition generateSlot (config : GenerationConfig)
    (tensionValues : list num) (densityMap : list bool)
    (st : LoopState) (i : nat) : Rand LoopState :=
  let rhythmicStyle := rhythmicStyle config in
  let tensionAt := default NaN (tensionValues !! i) in
  if negb (default false (densityMap !! i)) then
    ret {| store :=
             push {| position := i; degree := None; velocity := Fin 0;
                     duration := 1; tension := tensionAt; swing := Fin 0;
                     stagger := Fin 0 |} (store st);
           previousChord := previousChord st;
           secondPreviousChord := secondPreviousChord st |}
  else
    let targetTension := tensionAt in
    let* degree :=
      selectChordForTension targetTension (previousChord st)
        (secondPreviousChord st) (creativity config) in
    let isDownbeat := (i mod 4 =? 0)%nat in
    let isOffbeat := (i mod 2 =? 1)%nat in
    let baseVelocity :=
      (if isDownbeat then 0.85 else if isOffbeat then 0.75 else 0.70)%Q in
    let tensionBoost := (targetTension * Fin 0.15%Q)%num in
    let* r := Math_random in
    let randomVariation := Fin ((r - 0.5) * 0.1)%Q in
    let velocity :=
      nmax (Fin 0.5%Q)
        (nmin (Fin 1.0%Q)
           (Fin baseVelocity + tensionBoost + randomVariation)%num) in
    let* duration :=
      if (Z.of_nat i <? Z.of_nat (slots config) - 1)
         && negb (default false (densityMap !! (i + 1)%nat))
      then let* r := Math_random in ret (if Qltb r 0.5 then 2 else 1)
      else ret 1 in
    let* swing :=
      if String.eqb rhythmicStyle "syncopated" then
        ret (if isOffbeat then Fin 0.15%Q else Fin 0)
      else if String.eqb rhythmicStyle "random" then
        let* r := Math_random in ret (Fin ((r - 0.5) * 0.2)%Q)
      else ret (Fin 0) in
    let* stagger :=
      if String.eqb rhythmicStyle "steady" then ret (Fin 0.3%Q)
      else if String.eqb rhythmicStyle "syncopated"
              || String.eqb rhythmicStyle "euclidean" then ret (Fin 0.6%Q)
      else if String.eqb rhythmicStyle "sparse" then ret (Fin 0.4%Q)
      else if String.eqb rhythmicStyle "random" then
        let* r := Math_random in ret (Fin (0.2 + r * 0.6)%Q)
      else ret (Fin 0.5%Q) in
    ret {| store :=
             push {| position := i; degree := Some degree;
                     velocity := velocity; duration := duration;
                     tension := to_num (obj_get degree CHORD_TENSION_MAP);
                     swing := swing; stagger := stagger |} (store st);
           previousChord := Some degree;
           secondPreviousChord := previousChord st |}.

(** Steps 1 to 4: the curves and the main loop. The phrase map of step 3
    is only logged and is left out. *)
Definition progressionLoop (config : GenerationConfig) : Rand Store :=
  let* tensionValues :=
    generateTensionCurve Math_sin Math_PI (slots config)
      (tensionCurve config) in
  let* densityMap :=
    generateDensityMap (slots config) (density config)
      (rhythmicStyle config) in
  let* st :=
    foldM (generateSlot config tensionValues densityMap)
      (seq 0 (slots config))
      {| store := {| heap := []; result := [] |};
         previousChord := None; secondPreviousChord := None |} in
  ret (store st).

(** Step 5, the ending pass: reverse the array in place, find the first
    slot with a degree, reverse back, and maybe resolve that slot to the
    tonic by assigning its [degree]. *)
Definition resolveEnding (st : Store) : Rand Store :=
  let reversed := rev (result st) in
  let lastFilledSlot :=
    List.find
      (fun ref =>
         match heap st !! ref with
         | Some s => bool_decide (degree s <> None)
         | None => false
         end)
      reversed in
  let result' := rev reversed in
  match lastFilledSlot with
  | Some ref =>
      let d := heap st !! ref ≫= degree in
      if bool_decide (d <> Some 1) && bool_decide (d <> Some 5) then
        let* r := Math_random in
        if Qltb r 0.6 then
          ret {| heap := alter (set_degree (Some 1)) ref (heap st);
                 result := result' |}
        else ret {| heap := heap st; result := result' |}
      else ret {| heap := heap st; result := result' |}
  | None => ret {| heap := heap st; result := result' |}
  end.

Definition generateProceduralProgression (config : GenerationConfig)
    (_key : Chords.Key) : Rand (list GenerativeSlot) :=
  let* st := progressionLoop config in
  let* st' := resolveEnding st in
  ret (readSlots st').

End Progression.

(** [Array(n).fill(0).map((_, i) => f(i))]. *)
Definition tabulate {T} (n : nat) (f : Z -> T) : list T :=
  map (fun i => f (Z.of_nat i)) (seq 0 n).

Definition generatePhraseStructure (type : string) (slots : nat) : list Z :=
  let phrasesPerSection := Z.max 2 (Z.of_nat slots / 4) in
  if String.eqb type "AABA" then
    let sections :=
      [ tabulate (Z.to_nat phrasesPerSection) (fun i => i);
        tabulate (Z.to_nat phrasesPerSection) (fun i => i);
        tabulate (Z.to_nat phrasesPerSection)
          (fun i => i + phrasesPerSection);
        tabulate (Z.to_nat phrasesPerSection) (fun i => i) ] in
    take slots (concat sections)
  else if String.eqb type "ABAB" then
    let half := Z.of_nat slots / 2 in
    tabulate slots
      (fun i => if i <? half then Z.rem i phrasesPerSection
                else Z.rem i phrasesPerSection + phrasesPerSection)
  else if String.eqb type "ABAC" then
    let third := Z.of_nat slots / 3 in
    tabulate slots
      (fun i => if i <? third then i
                else if i <? third * 2 then i - third + phrasesPerSection
                else i - third * 2)
  else if String.eqb type "question-answer" then
    tabulate slots (fun i => i / 2)
  else
    tabulate slots (fun i => i).

(** [Partial<GenerationConfig>]: every field may be absent. *)
Record PartialGenerationConfig : Type := mkPartial {
  partial_slots : option nat;
  partial_density : option Q;
  partial_tensionCurve : option string;
  partial_rhythmicStyle : option string;
  partial_phraseStructure : option string;
  partial_creativity : option Q;
}.

(** The spread [{...base, ...overrides}]. *)
Definition spreadConfig (base : GenerationConfig)
    (overrides : PartialGenerationConfig) : GenerationConfig :=
  {| slots := default (slots base) (partial_slots overrides);
     density := default (density base) (partial_density overrides);
     tensionCurve :=
       default (tensionCurve base) (partial_tensionCurve overrides);
     rhythmicStyle :=
       default (rhythmicStyle base) (partial_rhythmicStyle overrides);
     phraseStructure :=
       default (phraseStructure base) (partial_phraseStructure overrides);
     creativity := default (creativity base) (partial_creativity overrides)
  |}.

(** A preset: the five style fields, no slot count. *)
Definition preset (density : Q) (tensionCurve rhythmicStyle
    phraseStructure : string) (creativity : Q) : PartialGenerationConfig :=
  {| partial_slots := None;
     partial_density := Some density;
     partial_tensionCurve := Some tensionCurve;
     partial_rhythmicStyle := Some rhythmicStyle;
     partial_phraseStructure := Some phraseStructure;
     partial_creativity := Some creativity |}.

Definition GENERATIVE_PRESETS : list (string * PartialGenerationConfig) :=
  [ ("Pop Hit", preset 0.5 "arc" "steady" "ABAB" 0.2);
    ("Ambient Chill", preset 0.3 "wave" "sparse" "through-composed" 0.5);
    ("Energetic EDM", preset 0.75 "buildup" "syncopated" "AABA" 0.4);
    ("Jazz Exploration",
     preset 0.6 "random" "syncopated" "question-answer" 0.8);
    ("Minimalist", preset 0.25 "release" "euclidean" "ABAC" 0.3);
    ("Epic Buildup", preset 0.6 "buildup" "steady" "through-composed" 0.3);
    ("Completely Random",
     preset 0.5 "random" "random" "through-composed" 1.0) ]%Q.

End Generator.

(** ** Chord suggestion engine *)

(** [Array.prototype.sort] with a comparator, as a stable insertion sort:
    [x] moves behind [y] when [compare x y > 0]. The comparator may draw
    random numbers; the order it then produces depends on the engine, and
    the properties of such a sort use only that it rearranges its input
    ([sortM_Permutation]). For a comparator that is a consistent ordering
    every engine returns the input in that order, as the insertion sort
    does. *)
Fixpoint insertM {A} (compare : A -> A -> Rand num) (x : A) (l : list A)
    : Rand (list A) :=
  match l with
  | [] => ret [x]
  | y :: l' =>
      let* c := compare x y in
      if ngtb c (Fin 0) then let* r := insertM compare x l' in ret (y :: r)
      else ret (x :: y :: l')
  end.

Fixpoint sortM {A} (compare : A -> A -> Rand num) (l : list A)
    : Rand (list A) :=
  match l with
  | [] => ret []
  | x :: l' => let* s := sortM compare l' in insertM compare x s
  end.

Module Suggestion.

Inductive Category : Type := strong | moderate | adventurous.

Record ChordSuggestion : Type := mkSuggestion {
  degree : Z;
  probability : num;
  reason : string;
  category : Category;
}.

(** The entry's [degree] field is [played] here. *)
Record ChordHistory : Type := mkHistory {
  played : Z;
  timestamp : Q;
}.

(** Keys are the decimal strings of the degrees 0 to 6. *)
Definition COMMON_PROGRESSIONS : obj (obj Q) :=
  obj_of
  [ (0, obj_of [3 :-> 0.35; 4 :-> 0.25; 5 :-> 0.20; 1 :-> 0.10; 0 :-> 0.05;
                2 :-> 0.03; 6 :-> 0.02]);
    (1, obj_of [4 :-> 0.40; 0 :-> 0.25; 3 :-> 0.15; 5 :-> 0.10; 1 :-> 0.05;
                2 :-> 0.03; 6 :-> 0.02]);
    (2, obj_of [5 :-> 0.35; 3 :-> 0.25; 0 :-> 0.20; 4 :-> 0.10; 1 :-> 0.05;
                2 :-> 0.03; 6 :-> 0.02]);
    (3, obj_of [0 :-> 0.30; 4 :-> 0.25; 1 :-> 0.20; 5 :-> 0.15; 3 :-> 0.05;
                2 :-> 0.03; 6 :-> 0.02]);
    (4, obj_of [0 :-> 0.50; 5 :-> 0.20; 3 :-> 0.15; 1 :-> 0.08; 4 :-> 0.04;
                2 :-> 0.02; 6 :-> 0.01]);
    (5, obj_of [3 :-> 0.30; 1 :-> 0.25; 4 :-> 0.20; 0 :-> 0.15; 5 :-> 0.05;
                2 :-> 0.03; 6 :-> 0.02]);
    (6, obj_of [0 :-> 0.60; 5 :-> 0.20; 2 :-> 0.10; 3 :-> 0.05; 4 :-> 0.03;
                1 :-> 0.01; 6 :-> 0.01]) ].

(** Keys are the patterns [`${secondLast}-${last}`], kept as pairs. *)
Definition SECOND_ORDER_PATTERNS : list ((Z * Z) * obj Q) :=
  [ ((0, 4), obj_of [5 :-> 0.50; 3 :-> 0.25; 0 :-> 0.15; 1 :-> 0.05;
                     4 :-> 0.03; 2 :-> 0.01; 6 :-> 0.01]);
    ((4, 5), obj_of [3 :-> 0.55; 0 :-> 0.20; 4 :-> 0.15; 1 :-> 0.05;
                     5 :-> 0.03; 2 :-> 0.01; 6 :-> 0.01]);
    ((5, 3), obj_of [0 :-> 0.40; 4 :-> 0.35; 1 :-> 0.10; 5 :-> 0.08;
                     3 :-> 0.04; 2 :-> 0.02; 6 :-> 0.01]);
    ((3, 0), obj_of [4 :-> 0.45; 3 :-> 0.20; 5 :-> 0.15; 1 :-> 0.10;
                     0 :-> 0.05; 2 :-> 0.03; 6 :-> 0.02]);
    ((0, 3), obj_of [4 :-> 0.40; 0 :-> 0.25; 1 :-> 0.15; 5 :-> 0.10;
                     3 :-> 0.05; 2 :-> 0.03; 6 :-> 0.02]);
    ((3, 4), obj_of [0 :-> 0.60; 5 :-> 0.20; 3 :-> 0.10; 1 :-> 0.05;
                     4 :-> 0.03; 2 :-> 0.01; 6 :-> 0.01]);
    ((1, 4), obj_of [0 :-> 0.55; 5 :-> 0.20; 3 :-> 0.12; 1 :-> 0.06;
                     4 :-> 0.04; 2 :-> 0.02; 6 :-> 0.01]);
    ((5, 1), obj_of [4 :-> 0.50; 3 :-> 0.25; 0 :-> 0.12; 5 :-> 0.08;
                     1 :-> 0.03; 2 :-> 0.01; 6 :-> 0.01]);
    ((2, 5), obj_of [1 :-> 0.40; 3 :-> 0.35; 4 :-> 0.12; 0 :-> 0.08;
                     5 :-> 0.03; 2 :-> 0.01; 6 :-> 0.01]);
    ((0, 5), obj_of [3 :-> 0.45; 1 :-> 0.25; 4 :-> 0.15; 0 :-> 0.08;
                     5 :-> 0.04; 2 :-> 0.02; 6 :-> 0.01]) ].

Definition getCircleOfFifthsBonus (from to : Z) : Q :=
  if Z.rem (to - from + 7) 7 =? 4 then 0.15
  else if Z.rem (to - from + 7) 7 =? 3 then 0.12
  else if Z.abs (to - from) =? 1 then 0.08
  else if to =? 0 then 0.10
  else 0.

Definition includes (l : list Z) (x : Z) : bool := existsb (Z.eqb x) l.

Definition HARMONIC_FUNCTION_tonic : list Z := [0; 2; 5].
Definition HARMONIC_FUNCTION_subdominant : list Z := [1; 3].
Definition HARMONIC_FUNCTION_dominant : list Z := [4; 6].

Definition getFunctionalHarmonyBonus (from to : Z) : Q :=
  if includes HARMONIC_FUNCTION_dominant from
     && includes HARMONIC_FUNCTION_tonic to then 0.20
  else if includes HARMONIC_FUNCTION_subdominant from
          && includes HARMONIC_FUNCTION_dominant to then 0.15
  else if includes HARMONIC_FUNCTION_tonic from
          && includes HARMONIC_FUNCTION_subdominant to then 0.12
  else 0.

Record Score : Type := mkScore {
  score : Q;
  reasons : list string;
}.

Definition add_score (q : Q) (s : Score) : Score :=
  {| score := score s + q; reasons := reasons s |}.

Definition push_reason (r : string) (s : Score) : Score :=
  {| score := score s; reasons := reasons s ++ [r] |}.

(** [v || d] for a number read from a table: [undefined] and 0 are falsy. *)
Definition or_default (v : option Q) (d : Q) : Q :=
  match v with
  | Some q => if Qeq_bool q 0 then d else q
  | None => d
  end.

Definition addCreativityBonus (scores : obj Score) : Rand (obj Score) :=
  mapM (fun e =>
          let degree := fst e in
          let* r := Math_random in
          let randomBoost := (r * 0.15 + 0.05)%Q in
          let s := add_score randomBoost (snd e) in
          ret (degree,
               if includes [2; 6] degree
               then push_reason "Creative choice" (add_score 0.1%Q s)
               else s))
       scores.

Definition startOptions : list ChordSuggestion :=
  [ {| degree := 0; probability := Fin 0.35%Q;
       reason := "Tonic (I) - Classic start"; category := strong |};
    {| degree := 4; probability := Fin 0.25%Q;
       reason := "Dominant (V) - Bold start"; category := strong |};
    {| degree := 3; probability := Fin 0.20%Q;
       reason := "Subdominant (IV) - Warm start"; category := moderate |};
    {| degree := 5; probability := Fin 0.12%Q;
       reason := "vi - Melancholic start"; category := moderate |};
    {| degree := 1; probability := Fin 0.08%Q;
       reason := "ii - Jazz influence"; category := adventurous |} ].

(** The comparator [(a, b) => b.probability - a.probability]. *)
Definition byProbability (a b : ChordSuggestion) : Rand num :=
  ret (probability b - probability a)%num.

(** The comparator [() => Math.random() - 0.5]. *)
Definition shuffling (a b : ChordSuggestion) : Rand num :=
  let* r := Math_random in ret (Fin (r - 0.5)%Q).

(** The score of one candidate degree: steps 1 to 4 of the loop body. *)
Definition scoreDegree (lastChord : ChordHistory)
    (secondLastChord : option ChordHistory) (degree : Z) : Score :=
  let s := {| score := 0; reasons := [] |} in
  let markovProb :=
    or_default (obj_get (played lastChord) COMMON_PROGRESSIONS
                  ≫= obj_get degree) 0.01%Q in
  let s := add_score (markovProb * 0.40)%Q s in
  let s := if Qltb 0.2 markovProb then push_reason "Common progression" s
           else s in
  let s :=
    match secondLastChord with
    | Some second =>
        let pattern := (played second, played lastChord) in
        let secondOrderProb :=
          or_default (Generator.lookup_pattern pattern SECOND_ORDER_PATTERNS
                        ≫= obj_get degree) 0.01%Q in
        let s := add_score (secondOrderProb * 0.30)%Q s in
        if Qltb 0.3 secondOrderProb then push_reason "Popular pattern" s
        else s
    | None => s
    end in
  let fifthsBonus := getCircleOfFifthsBonus (played lastChord) degree in
  let s := add_score fifthsBonus s in
  let s := if Qltb 0.10 fifthsBonus then push_reason "Strong voice leading" s
           else s in
  let functionBonus := getFunctionalHarmonyBonus (played lastChord) degree in
  let s := add_score (functionBonus * 0.7)%Q s in
  if Qltb 0.10 functionBonus then push_reason "Natural resolution" s else s.

Definition categorize (prob : num) : Category :=
  if ngtb prob (Fin 0.3%Q) then strong
  else if ngtb prob (Fin 0.15%Q) then moderate
  else adventurous.

Definition totalScore (scores : obj Score) : Q :=
  fold_left (fun sum s => (sum + score s)%Q) (map snd scores) 0%Q.

(** Normalization of the scores: the seven suggestions before the sort. *)
Definition normalize (scores : obj Score) : list ChordSuggestion :=
  map (fun e =>
         let prob := (Fin (score (snd e)) / Fin (totalScore scores))%num in
         let joined := String.concat ", " (reasons (snd e)) in
         {| degree := fst e;
            probability := prob;
            reason := if String.eqb joined "" then "Possible choice"
                      else joined;
            category := categorize prob |})
      scores.

(** The loop over the candidate degrees 0 to 6, which fills [scores]. *)
Definition candidateScores (lastChord : ChordHistory)
    (secondLastChord : option ChordHistory) : obj Score :=
  map (fun degree => (degree, scoreDegree lastChord secondLastChord degree))
      [0; 1; 2; 3; 4; 5; 6].

(** The whole distribution, sorted, before the final [slice(0, 4)]. *)
Definition rankSuggestions (lastChord : ChordHistory)
    (secondLastChord : option ChordHistory) : Rand (list ChordSuggestion) :=
  let scores := candidateScores lastChord secondLastChord in
  let* scores := addCreativityBonus scores in
  sortM byProbability (normalize scores).

Definition suggestNextChords (history : list ChordHistory)
    (_bpm _currentTime : Q) : Rand (list ChordSuggestion) :=
  if (List.length history =? 0)%nat then
    let* shuffled := sortM shuffling startOptions in
    sortM byProbability (take 3 shuffled)
  else
    match history !! (List.length history - 1)%nat with
    | Some lastChord =>
        let secondLastChord :=
          if (1 <? List.length history)%nat
          then history !! (List.length history - 2)%nat
          else None in
        let* suggestions := rankSuggestions lastChord secondLastChord in
        ret (take 4 suggestions)
    | None => ret []  (* a non-empty array has a last element *)
    end.

(** [Array.prototype.findIndex]: the first index that passes, or -1. *)
Fixpoint findIndex {T} (test : T -> bool) (l : list T) (i : Z) : Z :=
  match l with
  | [] => -1
  | x :: l' => if test x then i else findIndex test l' (i + 1)
  end.

(** The result's [probability] field is [matchProbability] here. *)
Record SuggestionMatch : Type := mkMatch {
  matched : bool;
  rank : Z;
  matchProbability : num;
}.

Definition checkSuggestionMatch (playedDegree : Z)
    (suggestions : list ChordSuggestion) : option SuggestionMatch :=
  let matchIndex :=
    findIndex (fun s => degree s =? playedDegree) suggestions 0 in
  if matchIndex >=? 0 then
    match Chords.at_index suggestions matchIndex with
    | Some s =>
        Some {| matched := true; rank := matchIndex + 1;
                matchProbability := probability s |}
    | None => None  (* [findIndex] returns an index of the array *)
    end
  else None.

Record PlayingPattern : Type := mkPattern {
  averageTiming : num;
  consistency : num;
  predictability : num;
}.

(** The pairs [(history[i - 1], history[i])] for [i] from 1. *)
Definition consecutive {T} (l : list T) : list (T * T) :=
  combine l (tail l).

Section Analysis.

(** [Math.sqrt] on finite numbers that are not negative. *)
Variable Math_sqrt : Q -> Q.

Definition nsqrt (a : num) : num :=
  match a with
  | Fin q => if Qltb q 0 then NaN else Fin (Math_sqrt q)
  | Inf false => Inf false
  | Inf true | NaN => NaN
  end.

Definition analyzePlayingPattern (history : list ChordHistory)
    : PlayingPattern :=
  if (List.length history <? 3)%nat then
    {| averageTiming := Fin 0; consistency := Fin 0;
       predictability := Fin 0 |}
  else
    let intervals :=
      map (fun p => (timestamp (snd p) - timestamp (fst p))%Q)
          (consecutive history) in
    let averageTiming :=
      (Fin (fold_left Qplus intervals 0%Q)
       / of_nat (List.length intervals))%num in
    let variance :=
      (fold_left
         (fun sum interval =>
            (sum + (Fin interval - averageTiming)
                   * (Fin interval - averageTiming))%num)
         intervals (Fin 0)
       / of_nat (List.length intervals))%num in
    let stdDev := nsqrt variance in
    let consistency :=
      nmax (Fin 0) (Fin 1 - stdDev / averageTiming)%num in
    let matches :=
      List.length
        (List.filter
           (fun p =>
              let prob :=
                or_default
                  (obj_get (played (fst p)) COMMON_PROGRESSIONS
                     ≫= obj_get (played (snd p))) 0%Q in
              Qltb 0.15 prob)
           (consecutive history)) in
    let predictability :=
      (of_nat matches
       / Fin (inject_Z (Z.of_nat (List.length history) - 1)))%num in
    {| averageTiming := averageTiming; consistency := consistency;
       predictability := predictability |}.

End Analysis.

(** The history update of the suggestion panel ([handleChordPlayed]): the
    new entry is appended and, past 20 entries, the oldest is dropped. *)
Definition appendHistory (prev : list ChordHistory) (entry : ChordHistory)
    : list ChordHistory :=
  let newHistory := prev ++ [entry] in
  if (20 <? List.length newHistory)%nat then tail newHistory
  else newHistory.

End Suggestion.

(** ** The standalone keyboard instrument *)

(** [keyboard-chord-instrument]: a self-contained component with its own
    chord builder over note names and its own row toggles. The component
    state that the functions read ([rootNote], [octave]) is passed in. *)
Module Keyboard.

Definition scaleIntervals : list Z := [0; 2; 4; 5; 7; 9; 11].

Definition notes : list string :=
  ["C"; "C#"; "D"; "D#"; "E"; "F"; "F#"; "G"; "G#"; "A"; "A#"; "B"].

Record Quality : Type := mkQuality {
  name : string;
  type : string;
  intervals : list Z;
  color : string;
}.

Definition chordQualities : list Quality :=
  [ {| name := "I"; type := "maj7"; intervals := [0; 4; 7; 11];
       color := "green" |};
    {| name := "II"; type := "min7"; intervals := [0; 3; 7; 10];
       color := "blue" |};
    {| name := "III"; type := "min7"; intervals := [0; 3; 7; 10];
       color := "blue" |};
    {| name := "IV"; type := "maj7"; intervals := [0; 4; 7; 11];
       color := "green" |};
    {| name := "V"; type := "sus2"; intervals := [0; 2; 7];
       color := "yellow" |};
    {| name := "VI"; type := "min7"; intervals := [0; 3; 7; 10];
       color := "blue" |};
    {| name := "VII"; type := "min7b5"; intervals := [0; 3; 6; 10];
       color := "purple" |} ].

(** [string + n] for an integer [n] appends its decimal digits. *)
Definition numberToString (n : Z) : string :=
  NilZero.string_of_int (Z.to_int n).

(** The note name with its octave. Where [notes[noteIndex]] is
    [undefined] the sum is the number [NaN], here [None]. *)
Definition getNoteFromInterval (rootNote : string)
    (semitones baseOctave : Z) : option string :=
  let rootIndex := Chords.indexOf rootNote notes 0 in
  let totalSemitones := rootIndex + semitones in
  let noteIndex := Z.rem totalSemitones 12 in
  let octaveOffset := totalSemitones / 12 in
  match Chords.at_index notes noteIndex with
  | Some note =>
      Some (note ++ numberToString (baseOctave + octaveOffset))%string
  | None => None
  end.

(** [quality.intervals] of an [undefined] quality is a [TypeError]. *)
Definition generateChord (rootNote : string) (octave : Z) (degree : Z)
    : result (list (option string)) :=
  let scaleRoot := Chords.at_index scaleIntervals degree in
  match Chords.at_index chordQualities degree with
  | Some quality =>
      Ok (map (fun interval =>
                 match scaleRoot with
                 | Some scaleRoot =>
                     getNoteFromInterval rootNote (scaleRoot + interval)
                       octave
                 | None => None  (* both arrays have seven entries *)
                 end)
              (intervals quality))
  | None => Throw "TypeError: Cannot read properties of undefined"
  end.

(** The comparator [(a, b) => a - b]. *)
Definition byNumber (a b : Z) : Rand num := ret (Fin (inject_Z (a - b))).

(** The update of [activeRows] in [toggleRow]. *)
Definition toggleRow (prev : list Z) (chordIndex : Z) : Rand (list Z) :=
  if Suggestion.includes prev chordIndex
  then ret (List.filter (fun i => negb (i =? chordIndex)) prev)
  else sortM byNumber (prev ++ [chordIndex]).

End Keyboard.

(** * Vocabulary of the properties *)

Section GeneratorVocabulary.
Import Generator.

(** The number of pulses (true entries) of a rhythm. *)
Definition pulseCount (pattern : list bool) : nat :=
  length (filter (fun b => b = true) pattern).

(** [bucket[i]] of the source, for a positive step count. *)
Definition bucketAt (steps : nat) (pulses : Z) (i : nat) : Z :=
  (Z.of_nat i * pulses) / Z.of_nat steps.

Definition changesAt (steps : nat) (pulses : Z) (i : nat) : bool :=
  negb (bucketAt steps pulses i
        =? (if (0 <? i)%nat then bucketAt steps pulses (i - 1) else -1)).

(** A one-slot configuration with the default style and curve. *)
Definition singleSlotConfig (curve : string) : GenerationConfig :=
  {| slots := 1; density := 0.5; tensionCurve := curve;
     rhythmicStyle := "steady"; phraseStructure := "ABAB";
     creativity := 0.5 |}.

(** The rows a selection can start from. *)
Definition transitionRows : list (obj Q) :=
  [] :: map snd MARKOV_2ND_ORDER ++ map snd MARKOV_1ST_ORDER.

(** The sum of the finite weights of a map. *)
Definition weightSum (weights : obj num) : Q :=
  fold_right (fun e acc => match snd e with Fin q => q + acc | _ => acc end)%Q
    0%Q weights.

(** What holds of every weight map before the reweighting: degrees in
    1..7, weights finite and not negative, and either no entry at all or a
    positive sum. *)
Definition sound_entry (e : Z * num) : bool :=
  (1 <=? fst e) && (fst e <=? 7)
  && match snd e with Fin q => Qle_bool 0 q | _ => false end.

Definition sound_row (weights : obj num) : bool :=
  forallb sound_entry weights
  && match weights with [] => true | _ => Qltb 0 (weightSum weights) end.

Definition degreeInScale (e : Z * num) : Prop := 1 <= fst e <= 7.



(** A tension that the curve can hand to the selection: a number in
    [0,1], or [NaN] (the single-slot curves). *)
Definition curveTension (a : num) : Prop :=
  match a with
  | Fin t => (0 <= t <= 1)%Q
  | NaN => True
  | Inf _ => False
  end.

Definition isNaN (e : Z * num) : Prop := snd e = NaN.

(** A slot is a rest or holds a degree of the scale, 1..7. *)
Definition slotInScale (s : GenerativeSlot) : Prop :=
  match degree s with
  | None => True
  | Some d => 1 <= d <= 7
  end.

(** The array holds one reference to each allocated slot, in order. *)
Definition arrayOfHeap (st : Store) : Prop :=
  result st = seq 0 (length (heap st)).

(** Slot [i] of a progression is its final non-rest slot. *)
Definition finalFilled (slots : list GenerativeSlot) (i : nat) : Prop :=
  (exists s, slots !! i = Some s /\ degree s <> None)
  /\ forall j s, (i < j)%nat -> slots !! j = Some s -> degree s = None.

(** The ending pass resolves slot [i]: it is the final non-rest slot, its
    degree is neither I nor V, and the draw falls below 0.6. *)
Definition resolved (slots : list GenerativeSlot) (draw : Q) (i : nat)
    : Prop :=
  finalFilled slots i
  /\ (forall s, slots !! i = Some s ->
      degree s <> Some 1 /\ degree s <> Some 5)
  /\ (draw < 0.6)%Q.

End GeneratorVocabulary.

Section SuggestionVocabulary.
Import Suggestion.

(** The root motions as the engine tests them. On degrees 0..6 a fifth up
    is [to = from + 4] and a fourth up [to = from + 3] modulo 7
    ([intervals_modulo]). *)
Definition fifthUp (from to : Z) : Prop := Z.rem (to - from + 7) 7 = 4.

Definition fourthUp (from to : Z) : Prop := Z.rem (to - from + 7) 7 = 3.

Definition stepwise (from to : Z) : Prop := Z.abs (to - from) = 1.

(** The second-to-last entry as [suggestNextChords] reads it. *)
Definition secondLastOf (history : list ChordHistory) : option ChordHistory :=
  if (1 <? length history)%nat
  then history !! (length history - 2)%nat
  else None.

(** The sum of a list of rationals, and of the probabilities of a list of
    suggestions as a [reduce] with [+] from 0 computes it. *)
Definition Qsum (l : list Q) : Q := fold_right Qplus 0%Q l.

Definition probabilityMass (l : list ChordSuggestion) : num :=
  fold_left nadd (map probability l) (Fin 0).

Definition nonnegative_row (row : obj Q) : bool :=
  forallb (fun e => Qle_bool 0 (snd e)) row.

Definition positiveScore (e : Z * Score) : Prop := (0 < score (snd e))%Q.

End SuggestionVocabulary.

Section ChordVocabulary.
Import Chords.

(** The quality a chord is built with: the one asked for, else the one of
    the scale degree, else major. *)
Definition chordQuality (scaleDegree : Z) (chordType : option ChordType)
    : ChordType :=
  match chordType with
  | Some t => t
  | None => default major (NASHVILLE_CHORDS scaleDegree)
  end.

(** The pitch class of the chord's root: the key moved up the scale. *)
Definition chordRoot (key : Key) (scaleDegree : Z) : Z :=
  Z.rem (getNoteIndex key
         + default 0 (MAJOR_SCALE !! Z.to_nat (scaleDegree - 1))) 12.

Definition transpose (semitones : Z) (notes : list Z) : list Z :=
  map (fun note => note + semitones) notes.

Definition result_map {T U} (f : T -> U) (r : result T) : result U :=
  match r with
  | Ok a => Ok (f a)
  | Throw message => Throw message
  end.

End ChordVocabulary.

Section ShapeVocabulary.
Import Generator.

(** A tension inside the unit interval. *)
Definition unitTension (a : num) : Prop :=
  exists q, a = Fin q /\ (0 <= q <= 1)%Q.

(** Whether the density map has a pulse at slot [i]. *)
Definition pulseAt (densityMap : list bool) (i : nat) : bool :=
  default false (densityMap !! i).

(** A rest as the main loop writes it. *)
Definition isRest (s : GenerativeSlot) : Prop :=
  degree s = None /\ velocity s = Fin 0 /\ duration s = 1
  /\ swing s = Fin 0 /\ stagger s = Fin 0.

(** The number of slots that hold a chord. *)
Definition chordCount (slots : list GenerativeSlot) : nat :=
  length (filter (fun s => degree s <> None) slots).

(** The degree of the first slot that holds a chord. *)
Definition firstChord (slots : list GenerativeSlot) : option Z :=
  head (omap degree slots).

(** [w] is the entry [b] with its finite, non-negative weight multiplied by
    a factor of at least one: same degree, no smaller, and still zero when
    [b] is zero. *)
Definition scaled (b w : Z * num) : Prop :=
  fst w = fst b
  /\ exists qb qw,
       snd b = Fin qb /\ snd w = Fin qw /\ (0 <= qb)%Q /\ (qb <= qw)%Q
       /\ ((0 < qw)%Q -> (0 < qb)%Q).

(** The first entry in key order, if any, has a positive weight. *)
Definition first_positive (weights : obj num) : bool :=
  match weights with
  | [] => true
  | (_, Fin q) :: _ => Qltb 0 q
  | _ => false
  end.

(** A velocity that sounds: between 0.5 and 1, or [NaN] where the curve
    has no value. *)
Definition audible (curveValue velocity : num) : Prop :=
  (exists q, velocity = Fin q /\ (0.5 <= q <= 1)%Q)
  \/ (velocity = NaN /\ curveValue = NaN).

(** Swing and arpeggio stagger within the bounds of the styles. *)
Definition inStyle (s : GenerativeSlot) : Prop :=
  (exists q, swing s = Fin q /\ (- (0.1) <= q <= 0.15)%Q)
  /\ (exists q, stagger s = Fin q /\ (0.2 <= q <= 0.8)%Q).

(** What slot [i] of a progression looks like, given the tension curve and
    the density map it was generated from. *)
Definition slotShape (slotCount : nat) (tensionValues : list num)
    (densityMap : list bool) (i : nat) (s : GenerativeSlot) : Prop :=
  position s = i
  /\ if pulseAt densityMap i
     then (exists d, degree s = Some d /\ 1 <= d <= 7)
          /\ unitTension (tension s)
          /\ audible (default NaN (tensionValues !! i)) (velocity s)
          /\ (duration s = 1
              \/ (duration s = 2 /\ pulseAt densityMap (S i) = false
                  /\ (S i < slotCount)%nat))
     else isRest s /\ tension s = default NaN (tensionValues !! i).

(** No seventh degree directly after a seventh degree. *)
Definition noRepeatedSeventh (chords : list Z) : Prop :=
  forall i, chords !! i = Some 7 -> chords !! S i <> Some 7.

End ShapeVocabulary.

Section RankVocabulary.
Import Suggestion.

(** [a] has a finite probability no smaller than the finite probability
    of [b]. *)
Definition atLeastAsLikely (a b : ChordSuggestion) : Prop :=
  exists pa pb,
    probability a = Fin pa /\ probability b = Fin pb /\ (pb <= pa)%Q.

Definition finiteProbability (s : ChordSuggestion) : Prop :=
  exists p, probability s = Fin p.

(** The first and the last time stamp of a history. *)
Definition firstTime (history : list ChordHistory) : Q :=
  match head history with Some h => timestamp h | None => 0 end.

Definition lastTime (history : list ChordHistory) : Q :=
  match last history with Some h => timestamp h | None => 0 end.

End RankVocabulary.

Section KeyboardVocabulary.

(** The name of a MIDI note with its octave: 60 is C4. *)
Definition scientificName (midi : Z) : option string :=
  match Chords.getNoteFromIndex midi with
  | Some k =>
      Some (Chords.keyName k
            ++ Keyboard.numberToString (midi / 12 - 1))%string
  | None => None
  end.

(** The chord type of the chord model that a type name stands for. *)
Definition modelType (type : string) : option Chords.ChordType :=
  if String.eqb type "major" then Some Chords.major
  else if String.eqb type "minor" then Some Chords.minor
  else if String.eqb type "dom7" then Some Chords.dom7
  else if String.eqb type "maj7" then Some Chords.maj7
  else if String.eqb type "min7" then Some Chords.min7
  else if String.eqb type "sus2" then Some Chords.sus2
  else if String.eqb type "sus4" then Some Chords.sus4
  else if String.eqb type "aug" then Some Chords.aug
  else if String.eqb type "dim" then Some Chords.dim
  else if String.eqb type "maj9" then Some Chords.maj9
  else if String.eqb type "min9" then Some Chords.min9
  else if String.eqb type "maj6" then Some Chords.maj6
  else None.

(** The rows that are active after a toggle of row [i]. *)
Definition toggled (prev : list Z) (i j : Z) : Prop :=
  if decide (j = i) then ~ In i prev else In j prev.

End KeyboardVocabulary.

(** * Properties *)

(** ** Chord model *)

Section ChordFacts.
Import Chords.

Lemma pitchClass_octave (note : Z) : pitchClass (note + 12) = pitchClass note.
Proof.
  unfold pitchClass.
  replace (note + 12) with (note + 1 * 12) by lia.
  apply Z_mod_plus_full.
Qed.

Lemma invert_once_length (notes : list Z) :
  length (invert_once notes) = length notes.
Proof.
  destruct notes as [|note rest]; simpl; [reflexivity|].
  rewrite length_app. simpl. lia.
Qed.

Lemma invert_once_classes (notes : list Z) :
  map pitchClass (invert_once notes) ≡ₚ map pitchClass notes.
Proof.
  destruct notes as [|note rest]; simpl; [reflexivity|].
  rewrite map_app. simpl. rewrite pitchClass_octave.
  symmetry. apply Permutation_cons_append.
Qed.

Lemma invert_length (n : nat) (notes : list Z) :
  length (invert n notes) = length notes.
Proof.
  revert notes. induction n as [|n IH]; intros notes; simpl; [reflexivity|].
  rewrite IH. apply invert_once_length.
Qed.

Lemma invert_classes (n : nat) (notes : list Z) :
  map pitchClass (invert n notes) ≡ₚ map pitchClass notes.
Proof.
  revert notes. induction n as [|n IH]; intros notes; simpl; [reflexivity|].
  rewrite IH. apply invert_once_classes.
Qed.

(** In root position ([inversion = 0]) the guard of the inversion loop
    fails, so the call returns the notes as computed. *)
Lemma generateChord_unfold key d ct inv oct root :
  generateChord key d ct 0 oct = Ok root ->
  generateChord key d ct inv oct =
    if (inv >? 0) && (inv <? Z.of_nat (length root))
    then Ok (invert (Z.to_nat inv) root) else Ok root.
Proof.
  unfold generateChord.
  destruct ((d <? 1) || (d >? 7)); [discriminate|].
  simpl. intros H. injection H as <-. reflexivity.
Qed.

(** C7: for a valid chord, an inversion strictly between 0 and the chord
    size returns as many notes with the same multiset of pitch classes as
    the root position; an inversion at or beyond the chord size returns the
    root position unchanged. *)
Theorem inversion_preserves_pitch_classes key d ct inv oct root :
  generateChord key d ct 0 oct = Ok root ->
  (0 < inv < Z.of_nat (length root) ->
   exists notes,
     generateChord key d ct inv oct = Ok notes
     /\ length notes = length root
     /\ map pitchClass notes ≡ₚ map pitchClass root)
  /\ (Z.of_nat (length root) <= inv ->
      generateChord key d ct inv oct = Ok root).
Proof.
  intros Hroot. rewrite (generateChord_unfold _ _ _ inv _ _ Hroot).
  split.
  - intros [Hlo Hhi].
    assert (Hc : (inv >? 0) && (inv <? Z.of_nat (length root)) = true).
    { apply andb_true_intro. split; [apply Z.gtb_lt | apply Z.ltb_lt]; lia. }
    rewrite Hc. exists (invert (Z.to_nat inv) root).
    split; [reflexivity|]. split.
    + apply invert_length.
    + apply invert_classes.
  - intros Hge.
    assert (Hc : (inv <? Z.of_nat (length root)) = false)
      by (apply Z.ltb_ge; lia).
    rewrite Hc, andb_false_r. reflexivity.
Qed.

Lemma inversion_preserves_pitch_classes_witness :
  (exists notes,
     generateChord K_C 1 (Some major) 1 4 = Ok notes
     /\ length notes = length [60; 64; 67]
     /\ map pitchClass notes ≡ₚ map pitchClass [60; 64; 67])
  /\ generateChord K_C 1 (Some major) 3 4 = Ok [60; 64; 67].
Proof.
  pose proof (inversion_preserves_pitch_classes K_C 1 (Some major) 1 4
                [60; 64; 67] eq_refl) as [H1 _].
  pose proof (inversion_preserves_pitch_classes K_C 1 (Some major) 3 4
                [60; 64; 67] eq_refl) as [_ H3].
  split; [apply H1 | apply H3]; simpl; lia.
Defined.

Lemma generateChord_out_of_range key d ct inv oct :
  d < 1 \/ 7 < d ->
  generateChord key d ct inv oct
  = Throw "Scale degree must be between 1 and 7".
Proof.
  intros Hout. unfold generateChord.
  assert (Hc : (d <? 1) || (d >? 7) = true).
  { apply orb_true_iff. rewrite Z.ltb_lt, Z.gtb_lt. lia. }
  rewrite Hc. reflexivity.
Qed.

Lemma generateChord_in_range key d ct inv oct :
  1 <= d <= 7 -> exists notes, generateChord key d ct inv oct = Ok notes.
Proof.
  intros Hin. unfold generateChord.
  assert (Hc : (d <? 1) || (d >? 7) = false).
  { apply orb_false_iff. rewrite Z.ltb_ge.
    split; [lia|]. rewrite Z.gtb_ltb. apply Z.ltb_ge. lia. }
  rewrite Hc. cbv zeta.
  match goal with |- context [if ?c then _ else _] => destruct c end;
    eauto.
Qed.

(** C8: the chord constructor throws for every scale degree outside 1..7,
    whatever the other arguments, and returns a chord for every degree in
    1..7. *)
Theorem generateChord_degree_guard key d ct inv oct :
  (d < 1 \/ 7 < d ->
   generateChord key d ct inv oct
   = Throw "Scale degree must be between 1 and 7")
  /\ (1 <= d <= 7 -> exists notes, generateChord key d ct inv oct = Ok notes).
Proof.
  split.
  - apply generateChord_out_of_range.
  - apply generateChord_in_range.
Qed.

End ChordFacts.

(** ** Euclidean rhythm *)

Section EuclidFacts.
Import Generator.

Lemma pulseCount_app (l1 l2 : list bool) :
  pulseCount (l1 ++ l2) = (pulseCount l1 + pulseCount l2)%nat.
Proof. unfold pulseCount. rewrite filter_app, length_app. reflexivity. Qed.

Lemma pulseCount_repeat_true (n : nat) : pulseCount (repeat true n) = n.
Proof.
  induction n as [|n IH]; [reflexivity|].
  change (repeat true (S n)) with ([true] ++ repeat true n).
  rewrite pulseCount_app, IH. reflexivity.
Qed.

Lemma pulseCount_repeat_false (n : nat) : pulseCount (repeat false n) = 0%nat.
Proof.
  induction n as [|n IH]; [reflexivity|].
  change (repeat false (S n)) with ([false] ++ repeat false n).
  rewrite pulseCount_app, IH. reflexivity.
Qed.

(** The general branch reads the buckets it has just written. *)
Lemma euclideanRhythm_general (steps : nat) (pulses : Z) :
  0 < pulses < Z.of_nat steps ->
  euclideanRhythm steps pulses = map (changesAt steps pulses) (seq 0 steps).
Proof.
  intros [Hlo Hhi]. unfold euclideanRhythm.
  destruct (Z.geb_spec pulses (Z.of_nat steps)) as [Hge|_]; [lia|].
  destruct (Z.eqb_spec pulses 0) as [H0|_]; [lia|].
  cbv zeta. apply map_ext_in. intros i Hi.
  apply in_seq in Hi. unfold changesAt, bucketAt.
  assert (Hb : forall j : nat, (j < steps)%nat ->
            map (fun i0 : nat => Z.of_nat i0 * pulses / Z.of_nat steps)
                (seq 0 steps) !! j
            = Some (Z.of_nat j * pulses / Z.of_nat steps)).
  { intros j Hj. rewrite list_lookup_fmap, lookup_seq_lt by lia.
    reflexivity. }
  rewrite (Hb i) by lia. simpl.
  destruct (Nat.ltb_spec 0 i) as [Hpos|_]; [|reflexivity].
  rewrite (Hb (i - 1)%nat) by lia. reflexivity.
Qed.

(** Consecutive buckets differ by at most one when there are fewer pulses
    than steps. *)
Lemma bucketAt_step (steps : nat) (pulses : Z) (k : nat) :
  0 < pulses < Z.of_nat steps ->
  bucketAt steps pulses k <= bucketAt steps pulses (S k)
  <= bucketAt steps pulses k + 1.
Proof.
  intros [Hlo Hhi]. unfold bucketAt. split.
  - apply Z.div_le_mono; lia.
  - replace (Z.of_nat k * pulses / Z.of_nat steps + 1)
      with ((Z.of_nat k * pulses + 1 * Z.of_nat steps) / Z.of_nat steps)
      by (rewrite Z.div_add by lia; reflexivity).
    apply Z.div_le_mono; lia.
Qed.

(** After [k+1] steps the pattern holds one pulse per bucket reached. *)
Lemma pulseCount_prefix (steps : nat) (pulses : Z) (k : nat) :
  0 < pulses < Z.of_nat steps ->
  Z.of_nat (pulseCount (map (changesAt steps pulses) (seq 0 (S k))))
  = bucketAt steps pulses k + 1.
Proof.
  intros Hp. induction k as [|k IH].
  - unfold bucketAt. simpl. rewrite Z.div_0_l by lia. reflexivity.
  - rewrite seq_S, map_app, pulseCount_app, Nat2Z.inj_add, IH.
    simpl. unfold changesAt at 1. simpl.
    rewrite Nat.sub_0_r.
    pose proof (bucketAt_step steps pulses k Hp) as [Hmono Hstep].
    destruct (Z.eqb_spec (bucketAt steps pulses (S k))
                (bucketAt steps pulses k)) as [Heq|Hne]; simpl.
    + unfold pulseCount. simpl. rewrite Heq. lia.
    + unfold pulseCount. simpl. lia.
Qed.

Lemma bucketAt_last (steps : nat) (pulses : Z) :
  0 < pulses < Z.of_nat steps ->
  bucketAt steps pulses (steps - 1) = pulses - 1.
Proof.
  intros [Hlo Hhi]. unfold bucketAt.
  symmetry. apply (Z.div_unique_pos _ _ _ (Z.of_nat steps - pulses)); lia.
Qed.

(** C1: for [0 <= pulses <= steps] the Euclidean rhythm has [steps] entries
    of which exactly [pulses] are true; with [pulses = steps] every entry
    is true and with [pulses = 0] every entry is false. *)
Theorem euclideanRhythm_pulses (steps : nat) (pulses : Z) :
  0 <= pulses <= Z.of_nat steps ->
  length (euclideanRhythm steps pulses) = steps
  /\ Z.of_nat (pulseCount (euclideanRhythm steps pulses)) = pulses
  /\ (pulses = Z.of_nat steps ->
      euclideanRhythm steps pulses = repeat true steps)
  /\ (pulses = 0 -> euclideanRhythm steps pulses = repeat false steps).
Proof.
  intros [Hlo Hhi].
  destruct (Z.eq_dec pulses (Z.of_nat steps)) as [Hall|Hnot].
  - assert (E : euclideanRhythm steps pulses = repeat true steps).
    { unfold euclideanRhythm.
      destruct (Z.geb_spec pulses (Z.of_nat steps)); [reflexivity|lia]. }
    rewrite E, repeat_length, pulseCount_repeat_true.
    repeat split; try lia.
    intros H0. assert (steps = 0%nat) as -> by lia. reflexivity.
  - destruct (Z.eq_dec pulses 0) as [Hzero|Hpos].
    + assert (E : euclideanRhythm steps pulses = repeat false steps).
      { unfold euclideanRhythm.
        destruct (Z.geb_spec pulses (Z.of_nat steps)); [lia|].
        destruct (Z.eqb_spec pulses 0); [reflexivity|lia]. }
      rewrite E, repeat_length, pulseCount_repeat_false.
      repeat split; try lia.
    + assert (Hp : 0 < pulses < Z.of_nat steps) by lia.
      rewrite (euclideanRhythm_general steps pulses Hp).
      rewrite length_map, length_seq.
      repeat split; try lia.
      destruct steps as [|k]; [lia|].
      rewrite (pulseCount_prefix (S k) pulses k Hp).
      replace k with (S k - 1)%nat at 2 by lia.
      rewrite (bucketAt_last (S k) pulses Hp). lia.
Qed.

Lemma euclideanRhythm_pulses_witness :
  length (euclideanRhythm 16 4) = 16%nat
  /\ Z.of_nat (pulseCount (euclideanRhythm 16 4)) = 4
  /\ (4 = Z.of_nat 16 -> euclideanRhythm 16 4 = repeat true 16)
  /\ (4 = 0 -> euclideanRhythm 16 4 = repeat false 16).
Proof. apply (euclideanRhythm_pulses 16 4). simpl. lia. Defined.

End EuclidFacts.

(** ** Circle-of-fifths bonus *)

Section FifthsFacts.
Import Suggestion.

Lemma intervals_modulo (from to : Z) :
  0 <= from <= 6 -> 0 <= to <= 6 ->
  (fifthUp from to <-> (to - from) mod 7 = 4)
  /\ (fourthUp from to <-> (to - from) mod 7 = 3).
Proof.
  intros Hf Ht. unfold fifthUp, fourthUp.
  rewrite Z.rem_mod_nonneg by lia.
  replace (to - from + 7) with (to - from + 1 * 7) by lia.
  rewrite Z_mod_plus_full. split; reflexivity.
Qed.

Lemma stepwise_rem (from to : Z) :
  stepwise from to ->
  Z.rem (to - from + 7) 7 = 1 \/ Z.rem (to - from + 7) 7 = 6.
Proof.
  unfold stepwise. intros H.
  assert (Hd : to - from = 1 \/ to - from = -1) by lia.
  destruct Hd as [-> | ->]; [left | right]; reflexivity.
Qed.

(** C2, as stated, fails: IV -> I is a perfect fifth up into the tonic and
    earns 0.15, not 0.15 + 0.10. *)
Lemma fifths_bonus_does_not_stack :
  fifthUp 3 0
  /\ getCircleOfFifthsBonus 3 0 = 0.15%Q
  /\ ~ (getCircleOfFifthsBonus 3 0 == 0.15 + 0.10)%Q.
Proof.
  split; [reflexivity|]. split; [reflexivity|].
  intros H. vm_compute in H. discriminate.
Qed.

(** C2, amended: the four bonuses are alternatives tried in order. A
    transition that is a perfect fifth up, a perfect fourth up or
    step-wise earns exactly its interval bonus (0.15, 0.12, 0.08), also
    when the destination is the tonic; the 0.10 tonic bonus is earned only
    by a transition into the tonic that has none of these intervals. *)
Theorem fifths_bonus_exclusive (from to : Z) :
  (fifthUp from to -> getCircleOfFifthsBonus from to = 0.15%Q)
  /\ (fourthUp from to -> getCircleOfFifthsBonus from to = 0.12%Q)
  /\ (stepwise from to -> getCircleOfFifthsBonus from to = 0.08%Q)
  /\ (~ fifthUp from to -> ~ fourthUp from to -> ~ stepwise from to ->
      getCircleOfFifthsBonus from to = if to =? 0 then 0.10%Q else 0%Q).
Proof.
  unfold fifthUp, fourthUp, getCircleOfFifthsBonus.
  repeat split.
  - intros ->. reflexivity.
  - intros ->. reflexivity.
  - intros Hs. destruct (stepwise_rem from to Hs) as [-> | ->]; simpl;
      unfold stepwise in Hs; rewrite Hs; reflexivity.
  - intros H5 H4 Hs.
    destruct (Z.eqb_spec (Z.rem (to - from + 7) 7) 4); [contradiction|].
    destruct (Z.eqb_spec (Z.rem (to - from + 7) 7) 3); [contradiction|].
    destruct (Z.eqb_spec (Z.abs (to - from)) 1); [contradiction|].
    reflexivity.
Qed.

Lemma fifths_bonus_exclusive_witness :
  getCircleOfFifthsBonus 3 0 = 0.15%Q
  /\ getCircleOfFifthsBonus 4 0 = 0.12%Q
  /\ getCircleOfFifthsBonus 1 0 = 0.08%Q
  /\ getCircleOfFifthsBonus 2 0 = 0.10%Q.
Proof.
  split; [|split; [|split]].
  - apply (fifths_bonus_exclusive 3 0). reflexivity.
  - apply (fifths_bonus_exclusive 4 0). reflexivity.
  - apply (fifths_bonus_exclusive 1 0). reflexivity.
  - apply (fifths_bonus_exclusive 2 0); intros H; vm_compute in H;
      discriminate.
Defined.

End FifthsFacts.

(** ** Tension curve of a single slot *)

Section SingleSlot.
Import Generator.

Variable Math_sin : Q -> Q.
Variable Math_PI : Q.

(** C9: with [length = 1] the curves "arc", "wave", "buildup" and
    "release" divide 0 by 0: the only entry of the curve is [NaN], not a
    defined constant. Only "random" and the fallback for unknown types are
    finite there (the fallback is the constant 0.5). In the generator the
    [NaN] reaches the slot: a one-slot progression with the "arc" curve has
    velocity [NaN], outside the documented range 0-1. *)
Theorem generateTensionCurve_single_slot (rnd : nat -> Q) (n : nat) :
  (forall type, In type ["arc"; "wave"; "buildup"; "release"] ->
     fst (generateTensionCurve Math_sin Math_PI 1 type rnd n) = [NaN])
  /\ (exists q,
        fst (generateTensionCurve Math_sin Math_PI 1 "random" rnd n)
        = [q] /\ is_finite q)
  /\ fst (generateTensionCurve Math_sin Math_PI 1 "flat" rnd n)
     = [Fin 0.5%Q]
  /\ (forall key,
        map velocity
          (fst (generateProceduralProgression Math_sin Math_PI
                  (singleSlotConfig "arc") key rnd n))
        = [NaN]).
Proof.
  split; [|split; [|split]].
  - intros type Hin. simpl in Hin.
    destruct Hin as [<- | [<- | [<- | [<- | []]]]]; reflexivity.
  - unfold generateTensionCurve. simpl.
    unfold bind, Math_random, ret. simpl.
    match goal with
    | |- exists q, [?x] = [q] /\ _ => exists x; split; [reflexivity|]
    end.
    unfold nmax, nmin, nleb.
    repeat match goal with
           | |- context [Qle_bool ?a ?b] => destruct (Qle_bool a b)
           end; eexists; reflexivity.
  - reflexivity.
  - intros key. vm_compute. reflexivity.
Qed.

End SingleSlot.

(** ** Weighted selection *)

Section RandFacts.

(** A [map] with draws relates every input to its output, whatever the
    position in the stream at which the element is reached. *)
Lemma mapM_Forall2 {A B} (R : A -> B -> Prop) (f : A -> Rand B)
    (l : list A) (rnd : nat -> Q) :
  (forall a m, In a l -> R a (fst (f a rnd m))) ->
  forall n, Forall2 R l (fst (mapM f l rnd n)).
Proof.
  induction l as [|a l IH]; intros Hf n; simpl.
  - constructor.
  - unfold bind, ret. simpl. constructor.
    + apply Hf. left. reflexivity.
    + apply IH. intros a' m Hin. apply Hf. right. exact Hin.
Qed.

Lemma mapM_Forall {A B} (P : A -> Prop) (P' : B -> Prop) (f : A -> Rand B)
    (l : list A) (rnd : nat -> Q) :
  (forall a m, P a -> P' (fst (f a rnd m))) ->
  forall n, Forall P l -> Forall P' (fst (mapM f l rnd n)).
Proof.
  intros Hf. induction l as [|a l IH]; intros n H; simpl.
  - constructor.
  - inversion H as [|? ? Ha Hl]; subst.
    unfold bind, ret. simpl. constructor.
    + apply Hf, Ha.
    + apply IH, Hl.
Qed.

Lemma mapM_map {A B C} (g : A -> C) (h : B -> C) (f : A -> Rand B)
    (l : list A) (rnd : nat -> Q) :
  (forall a m, h (fst (f a rnd m)) = g a) ->
  forall n, map h (fst (mapM f l rnd n)) = map g l.
Proof.
  intros Hf. induction l as [|a l IH]; intros n; simpl.
  - reflexivity.
  - unfold bind, ret. simpl. rewrite Hf, IH. reflexivity.
Qed.

End RandFacts.

Section SelectionFacts.
Import Generator.

Lemma lookup_pattern_In {V} (p : Z * Z) (table : list ((Z * Z) * V)) v :
  lookup_pattern p table = Some v -> In v (map snd table).
Proof.
  induction table as [|[q w] table IH]; simpl; [discriminate|].
  destruct (pattern_eqb p q).
  - intros H. injection H as ->. left. reflexivity.
  - intros H. right. apply IH, H.
Qed.

Lemma obj_get_In {V} (k : Z) (o : obj V) v :
  obj_get k o = Some v -> In v (map snd o).
Proof.
  induction o as [|[k' w] o IH]; simpl; [discriminate|].
  destruct (k =? k').
  - intros H. injection H as ->. left. reflexivity.
  - intros H. right. apply IH, H.
Qed.

Lemma baseWeights_row (prev second : option Z) :
  baseWeights prev second = startWeights
  \/ exists row, In row transitionRows /\ baseWeights prev second = copyRow row.
Proof.
  destruct prev as [p|]; [right | left; reflexivity].
  unfold baseWeights, transitionRows.
  destruct (_ ≫= _) as [t|] eqn:E2.
  - exists t. split; [|reflexivity]. right. apply in_or_app. left.
    destruct second as [s|]; simpl in E2; [|discriminate].
    eapply lookup_pattern_In, E2.
  - destruct (obj_get p MARKOV_1ST_ORDER) as [t|] eqn:E1.
    + exists t. split; [|reflexivity]. right. apply in_or_app. right.
      eapply obj_get_In, E1.
    + exists []. split; [left|]; reflexivity.
Qed.

Lemma baseWeights_sound (prev second : option Z) :
  sound_row (baseWeights prev second) = true.
Proof.
  destruct (baseWeights_row prev second) as [-> | (row & Hin & ->)].
  - reflexivity.
  - revert row Hin.
    assert (H : forallb (fun row => sound_row (copyRow row)) transitionRows
                = true) by (vm_compute; reflexivity).
    rewrite forallb_forall in H. exact H.
Qed.

Lemma sound_row_degrees (weights : obj num) :
  sound_row weights = true -> Forall degreeInScale weights.
Proof.
  unfold sound_row. intros H. apply andb_true_iff in H as [H _].
  rewrite forallb_forall in H. apply Forall_forall. intros e He.
  apply list_elem_of_In, H in He. unfold sound_entry in He.
  apply andb_true_iff in He as [He _]. apply andb_true_iff in He as [H1 H7].
  unfold degreeInScale. lia.
Qed.

Lemma tensionWeights_degrees (t : num) (weights : obj num) :
  Forall degreeInScale weights ->
  Forall degreeInScale (tensionWeights t weights).
Proof.
  unfold tensionWeights. intros H. apply Forall_fmap.
  eapply Forall_impl; [exact H|]. intros e He. exact He.
Qed.

Lemma creativityWeights_degrees creativity (weights : obj num) rnd n :
  Forall degreeInScale weights ->
  Forall degreeInScale (fst (creativityWeights creativity weights rnd n)).
Proof.
  intros H. unfold creativityWeights.
  destruct (Qltb 0 creativity); [|exact H].
  revert H. apply mapM_Forall. intros e m He. exact He.
Qed.

Lemma weightedWalk_range (entries : list (Z * num)) (random : num) :
  Forall degreeInScale entries ->
  1 <= weightedWalk entries random <= 7.
Proof.
  intros H. revert random.
  induction H as [|[d w] entries Hd _ IH]; intros random; simpl; [lia|].
  destruct (nleb _ _); [exact Hd | apply IH].
Qed.



Lemma CHORD_TENSION_MAP_range (d : Z) :
  1 <= d <= 7 ->
  exists c, obj_get d CHORD_TENSION_MAP = Some c /\ (0 <= c <= 1)%Q.
Proof.
  intros H.
  assert (Hd : d = 1 \/ d = 2 \/ d = 3 \/ d = 4 \/ d = 5 \/ d = 6 \/ d = 7)
    by lia.
  destruct Hd as [-> | [-> | [-> | [-> | [-> | [-> | ->]]]]]];
    eexists; (split; [vm_compute; reflexivity
                     | split; unfold Qle; simpl; lia]).
Qed.





Lemma selectChordForTension_walk t prev second creativity rnd n :
  fst (selectChordForTension t prev second creativity rnd n)
  = weightedWalk
      (fst (selectionWeights t prev second creativity rnd n))
      (Fin (rnd (snd (selectionWeights t prev second creativity rnd n)))
       * totalWeight
           (fst (selectionWeights t prev second creativity rnd n)))%num.
Proof. reflexivity. Qed.

Lemma selectionWeights_NaN prev second creativity rnd n :
  Forall isNaN (fst (selectionWeights NaN prev second creativity rnd n)).
Proof.
  unfold selectionWeights.
  assert (Ht : Forall isNaN (tensionWeights NaN (baseWeights prev second))).
  { unfold tensionWeights. apply Forall_fmap, Forall_forall.
    intros e _. unfold isNaN. simpl. destruct (snd e); reflexivity. }
  revert Ht. generalize (tensionWeights NaN (baseWeights prev second)).
  intros weights Hw. unfold creativityWeights.
  destruct (Qltb 0 creativity); [|exact Hw].
  revert Hw. apply mapM_Forall. intros e m He.
  unfold isNaN in *. unfold bind, ret, Math_random. simpl. rewrite He. simpl.
  destruct (_ || _); reflexivity.
Qed.

Lemma totalWeight_NaN (e : Z * num) (weights : obj num) :
  Forall isNaN (e :: weights) -> totalWeight (e :: weights) = NaN.
Proof.
  intros H. inversion H as [|? ? He Hw]; subst.
  unfold totalWeight. simpl. unfold isNaN in He. rewrite He. simpl.
  clear. induction weights as [|w weights IH]; simpl; [reflexivity|].
  exact IH.
Qed.

Lemma weightedWalk_key (entries : list (Z * num)) (random : num) :
  weightedWalk entries random = 1
  \/ In (weightedWalk entries random) (map fst entries).
Proof.
  revert random. induction entries as [|[d w] entries IH]; intros random.
  - left. reflexivity.
  - cbn [weightedWalk map fst]. destruct (nleb _ _).
    + right. left. reflexivity.
    + destruct (IH (random - w)%num) as [H | H]; [left | right; right];
        exact H.
Qed.

Lemma selectChordForTension_range t prev second creativity rnd n :
  1 <= fst (selectChordForTension t prev second creativity rnd n) <= 7.
Proof.
  rewrite selectChordForTension_walk.
  apply weightedWalk_range. unfold selectionWeights.
  apply creativityWeights_degrees, tensionWeights_degrees,
    sound_row_degrees, baseWeights_sound.
Qed.


Lemma selectionWeights_length t prev second creativity rnd n :
  length (fst (selectionWeights t prev second creativity rnd n))
  = length (baseWeights prev second).
Proof.
  unfold selectionWeights.
  assert (Ht : length (tensionWeights t (baseWeights prev second))
               = length (baseWeights prev second))
    by (unfold tensionWeights; apply length_map).
  rewrite <- Ht. unfold creativityWeights.
  destruct (Qltb 0 creativity); [|reflexivity].
  symmetry. eapply Forall2_length.
  apply (mapM_Forall2 (fun _ _ => True)). intros; exact I.
Qed.






End SelectionFacts.

(** ** The ending pass of the generator *)

Section EndingFacts.
Import Generator.

Lemma foldM_invariant {A S} (I : S -> Prop) (f : S -> A -> Rand S)
    (xs : list A) (rnd : nat -> Q) :
  (forall s x n, I s -> I (fst (f s x rnd n))) ->
  forall s n, I s -> I (fst (foldM f xs s rnd n)).
Proof.
  intros Hf. induction xs as [|x xs IH]; intros s n Hs; simpl.
  - exact Hs.
  - unfold bind. apply IH, Hf, Hs.
Qed.

Lemma push_arrayOfHeap (s : GenerativeSlot) (st : Store) :
  arrayOfHeap st -> arrayOfHeap (push s st).
Proof.
  unfold arrayOfHeap, push. simpl. intros ->.
  rewrite length_app. simpl. rewrite Nat.add_1_r, seq_S. reflexivity.
Qed.

Section WithCurves.
Variable Math_sin : Q -> Q.
Variable Math_PI : Q.

Lemma generateSlot_arrayOfHeap config tensionValues densityMap st i rnd n :
  arrayOfHeap (store st) ->
  arrayOfHeap
    (store (fst (generateSlot config tensionValues densityMap st i rnd n))).
Proof.
  intros H. unfold generateSlot.
  destruct (negb _); [apply push_arrayOfHeap, H|].
  unfold bind, ret. simpl. apply push_arrayOfHeap, H.
Qed.

Lemma progressionLoop_arrayOfHeap config rnd n :
  arrayOfHeap (fst (progressionLoop Math_sin Math_PI config rnd n)).
Proof.
  unfold progressionLoop, bind. simpl.
  apply (foldM_invariant (fun st => arrayOfHeap (store st))).
  - intros s x m Hs. apply generateSlot_arrayOfHeap, Hs.
  - reflexivity.
Qed.

End WithCurves.

Lemma omap_lookup_seq {A} (l : list A) (k : nat) :
  (k <= length l)%nat ->
  omap (fun ref => l !! ref) (seq 0 k) = take k l.
Proof.
  induction k as [|k IH]; intros Hk; [reflexivity|].
  rewrite seq_S, omap_app, IH by lia. simpl.
  destruct (l !! k) as [x|] eqn:E.
  - simpl. symmetry. apply take_S_r, E.
  - apply lookup_ge_None in E. lia.
Qed.

Lemma readSlots_arrayOfHeap (st : Store) :
  arrayOfHeap st -> readSlots st = heap st.
Proof.
  unfold arrayOfHeap, readSlots. intros ->.
  rewrite omap_lookup_seq by lia. apply firstn_all.
Qed.

(** [find] over the reversed array returns the last index that satisfies
    the test. *)
Lemma find_rev_seq (p : nat -> bool) (k : nat) :
  match List.find p (rev (seq 0 k)) with
  | Some r => (r < k)%nat /\ p r = true
              /\ forall j, (r < j < k)%nat -> p j = false
  | None => forall j, (j < k)%nat -> p j = false
  end.
Proof.
  induction k as [|k IH].
  - simpl. intros j Hj. lia.
  - rewrite seq_S, rev_app_distr. simpl.
    destruct (p k) eqn:Hk.
    + repeat split; [lia | exact Hk | intros j Hj; lia].
    + destruct (List.find p (rev (seq 0 k))) as [r|].
      * destruct IH as (Hr & Hp & Hlast). repeat split; [lia | exact Hp |].
        intros j Hj. destruct (Nat.eq_dec j k) as [-> | Hne]; [exact Hk|].
        apply Hlast. lia.
      * intros j Hj. destruct (Nat.eq_dec j k) as [-> | Hne]; [exact Hk|].
        apply IH. lia.
Qed.

Lemma Qltb_lt (a b : Q) : Qltb a b = true <-> (a < b)%Q.
Proof.
  unfold Qltb. rewrite negb_true_iff. split.
  - intros H. apply Qnot_le_lt. intros Hle.
    apply Qle_bool_iff in Hle. congruence.
  - intros H. destruct (Qle_bool b a) eqn:E; [|reflexivity].
    apply Qle_bool_iff in E. lra.
Qed.

Lemma finalFilled_unique (slots : list GenerativeSlot) (i r : nat) :
  finalFilled slots i -> finalFilled slots r -> i = r.
Proof.
  intros [(si & Hsi & Hfi) Hi] [(sr & Hsr & Hfr) Hr].
  destruct (Nat.lt_trichotomy i r) as [Hlt | [Heq | Hgt]]; [|exact Heq|].
  - exfalso. apply Hfr. eapply Hi; eassumption.
  - exfalso. apply Hfi. eapply Hr; eassumption.
Qed.

(** What the ending pass does to a store whose array lists its heap: the
    array is as before, and the heap changes at most at the resolved
    slot, whose degree becomes the tonic. *)
Lemma resolveEnding_spec (st : Store) (rnd : nat -> Q) (k : nat) :
  arrayOfHeap st ->
  arrayOfHeap (fst (resolveEnding st rnd k))
  /\ forall i s, heap st !! i = Some s ->
       (resolved (heap st) (rnd k) i ->
        heap (fst (resolveEnding st rnd k)) !! i
        = Some (set_degree (Some 1) s))
       /\ (~ resolved (heap st) (rnd k) i ->
           heap (fst (resolveEnding st rnd k)) !! i = Some s).
Proof.
  intros Hwf. unfold resolveEnding. rewrite rev_involutive.
  set (p := fun ref : nat =>
              match heap st !! ref with
              | Some s => bool_decide (degree s <> None)
              | None => false
              end).
  pose proof (find_rev_seq p (length (heap st))) as Hfind.
  rewrite Hwf. destruct (List.find p (rev (seq 0 (length (heap st)))))
    as [r|].
  - destruct Hfind as (Hr & Hpr & Hlast). unfold p in Hpr.
    destruct (heap st !! r) as [sr|] eqn:Hsr; [|discriminate].
    apply bool_decide_eq_true in Hpr.
    assert (Hfinal : finalFilled (heap st) r).
    { split; [exists sr; split; assumption|].
      intros j s Hj Hs.
      assert (Hjn : (j < length (heap st))%nat)
        by (eapply lookup_lt_Some, Hs).
      specialize (Hlast j (conj Hj Hjn)). unfold p in Hlast.
      rewrite Hs in Hlast. apply bool_decide_eq_false in Hlast.
      destruct (degree s); [exfalso; apply Hlast; discriminate|reflexivity]. }
    cbn [mbind option_bind].
    destruct (bool_decide (degree sr <> Some 1)
              && bool_decide (degree sr <> Some 5)) eqn:Hc.
    + apply andb_true_iff in Hc as [H1 H5].
      apply bool_decide_eq_true in H1, H5.
      unfold bind, Math_random. cbn [fst snd].
      destruct (Qltb (rnd k) 0.6) eqn:Hdraw; unfold ret; cbn [fst heap result].
      * split.
        { unfold arrayOfHeap. cbn [heap result]. rewrite length_alter.
          reflexivity. }
        intros i s Hs. split.
        -- intros (Hi & _ & _).
           rewrite (finalFilled_unique _ _ _ Hi Hfinal).
           rewrite (finalFilled_unique _ _ _ Hi Hfinal) in Hs.
           rewrite list_lookup_alter_eq, Hs. reflexivity.
        -- intros Hnot. rewrite list_lookup_alter_ne; [exact Hs|].
           intros <-. apply Hnot. split; [exact Hfinal|]. split.
           ++ intros s' Hs'. rewrite Hsr in Hs'. injection Hs' as <-.
              split; assumption.
           ++ apply Qltb_lt, Hdraw.
      * split; [reflexivity|].
        intros i s Hs. split; [|intros _; exact Hs].
        intros (_ & _ & Hlt). apply Qltb_lt in Hlt. congruence.
    + unfold ret. cbn [fst heap result]. split; [reflexivity|].
      intros i s Hs. split; [|intros _; exact Hs].
      intros (Hi & Hdeg & _). exfalso.
      rewrite (finalFilled_unique _ _ _ Hi Hfinal) in Hdeg.
      destruct (Hdeg sr Hsr) as [H1 H5].
      apply andb_false_iff in Hc as [Hc | Hc];
        apply bool_decide_eq_false in Hc; contradiction.
  - unfold ret. cbn [fst heap result]. split; [reflexivity|].
    intros i s Hs. split; [|intros _; exact Hs].
    intros ([(s' & Hs' & Hfilled) _] & _). exfalso.
    assert (Hin : (i < length (heap st))%nat) by (eapply lookup_lt_Some, Hs).
    specialize (Hfind i Hin). unfold p in Hfind. rewrite Hs' in Hfind.
    apply bool_decide_eq_false in Hfind. contradiction.
Qed.

Lemma resolveEnding_length (st : Store) (rnd : nat -> Q) (k : nat) :
  length (heap (fst (resolveEnding st rnd k))) = length (heap st).
Proof.
  unfold resolveEnding.
  destruct (List.find _ _); [|reflexivity].
  destruct (_ && _); [|reflexivity].
  unfold bind, Math_random, ret. cbn [fst snd].
  destruct (Qltb _ _); cbn [fst heap]; [apply length_alter | reflexivity].
Qed.

Lemma push_slotInScale (s : GenerativeSlot) (st : Store) :
  slotInScale s -> Forall slotInScale (heap st) ->
  Forall slotInScale (heap (push s st)).
Proof.
  intros Hs Hst. unfold push. cbn [heap]. apply Forall_app.
  split; [exact Hst | constructor; [exact Hs | constructor]].
Qed.

Lemma resolveEnding_slotInScale (st : Store) (rnd : nat -> Q) (k : nat) :
  Forall slotInScale (heap st) ->
  Forall slotInScale (heap (fst (resolveEnding st rnd k))).
Proof.
  intros H. unfold resolveEnding.
  destruct (List.find _ _); [|exact H].
  destruct (_ && _); [|exact H].
  unfold bind, Math_random, ret. cbn [fst snd].
  destruct (Qltb _ _); cbn [fst heap]; [|exact H].
  apply Forall_alter; [exact H|].
  intros s _ _. unfold slotInScale. simpl. lia.
Qed.

Lemma readSlots_heap (st : Store) (s : GenerativeSlot) :
  In s (readSlots st) -> In s (heap st).
Proof.
  unfold readSlots. intros Hs. apply list_elem_of_In in Hs.
  apply list_elem_of_omap in Hs as (ref & _ & Href).
  apply list_elem_of_In. eapply list_elem_of_lookup_2, Href.
Qed.

Section ScaleDegrees.
Variable Math_sin : Q -> Q.
Variable Math_PI : Q.

Lemma generateSlot_slotInScale config tensionValues densityMap st i rnd n :
  Forall slotInScale (heap (store st)) ->
  Forall slotInScale
    (heap (store
       (fst (generateSlot config tensionValues densityMap st i rnd n)))).
Proof.
  intros H. unfold generateSlot.
  destruct (negb _).
  - apply push_slotInScale; [exact I | exact H].
  - unfold bind at 1.
    set (chosen := selectChordForTension _ _ _ _ rnd n).
    pose proof (selectChordForTension_range
                  (default NaN (tensionValues !! i)) (previousChord st)
                  (secondPreviousChord st) (creativity config) rnd n)
      as Hrange.
    fold chosen in Hrange. unfold bind, ret. cbn [fst store].
    apply push_slotInScale; [exact Hrange | exact H].
Qed.

(** Every slot of a generated progression is a rest or holds a degree in
    1..7. *)
Lemma generateProceduralProgression_slotInScale config key rnd n s :
  In s (fst (generateProceduralProgression Math_sin Math_PI config key
               rnd n)) ->
  slotInScale s.
Proof.
  unfold generateProceduralProgression, bind, ret. cbn [fst].
  intros Hs. apply readSlots_heap in Hs.
  set (loop := progressionLoop Math_sin Math_PI config rnd n) in *.
  assert (HF : Forall slotInScale
                 (heap (fst (resolveEnding (fst loop) rnd (snd loop))))).
  { apply resolveEnding_slotInScale.
    unfold loop, progressionLoop, bind, ret. cbn [fst].
    apply (foldM_invariant
             (fun st => Forall slotInScale (heap (store st)))).
    - intros st i m Hst. apply generateSlot_slotInScale, Hst.
    - constructor. }
  rewrite Forall_forall in HF. apply HF, list_elem_of_In, Hs.
Qed.

End ScaleDegrees.

Section Cadence.
Variable Math_sin : Q -> Q.
Variable Math_PI : Q.

(** C4: the ending pass compared with the progression as the main loop
    left it. The progression keeps its length. The final non-rest slot,
    when its degree is neither I nor V and the draw of the pass falls
    below 0.6, has its degree set to I and every other field kept. Every
    slot in any other case (another position, a rest, a final slot on I or
    V, a draw of 0.6 or more) is exactly as before. *)
Theorem cadence_pass_frame (config : GenerationConfig) (key : Chords.Key)
    (rnd : nat -> Q) (n : nat) :
  let loop := progressionLoop Math_sin Math_PI config rnd n in
  let before := readSlots (fst loop) in
  let draw := rnd (snd loop) in
  let after :=
    fst (generateProceduralProgression Math_sin Math_PI config key rnd n) in
  length after = length before
  /\ forall i s, before !! i = Some s ->
       (resolved before draw i -> after !! i = Some (set_degree (Some 1) s))
       /\ (~ resolved before draw i -> after !! i = Some s).
Proof.
  cbv zeta.
  pose proof (progressionLoop_arrayOfHeap Math_sin Math_PI config rnd n)
    as Hwf.
  set (loop := progressionLoop Math_sin Math_PI config rnd n) in *.
  destruct (resolveEnding_spec (fst loop) rnd (snd loop) Hwf)
    as [Hwf' Hspec].
  assert (Hafter :
    fst (generateProceduralProgression Math_sin Math_PI config key rnd n)
    = heap (fst (resolveEnding (fst loop) rnd (snd loop)))).
  { unfold generateProceduralProgression, bind, ret. cbn [fst].
    apply readSlots_arrayOfHeap, Hwf'. }
  rewrite Hafter, (readSlots_arrayOfHeap _ Hwf).
  split; [apply resolveEnding_length | exact Hspec].
Qed.

End Cadence.

(** A run in which the pass resolves: two slots, I then vi, and a draw of
    0.3; the second slot ends on I with its other fields kept. *)
Lemma cadence_pass_frame_witness :
  let config :=
    {| slots := 2; density := 1; tensionCurve := "flat";
       rhythmicStyle := "steady"; phraseStructure := "ABAB";
       creativity := 0 |} in
  let rnd := fun n : nat =>
    (inject_Z (Z.of_nat ((n * 7 + 5) mod 10)) / 10)%Q in
  let before :=
    readSlots (fst (progressionLoop (fun q => q) 3 config rnd 0%nat)) in
  let after :=
    fst (generateProceduralProgression (fun q => q) 3 config Chords.K_C
           rnd 0%nat) in
  exists s,
    before !! 1%nat = Some s
    /\ degree s = Some 6
    /\ after !! 1%nat = Some (set_degree (Some 1) s)
    /\ after !! 0%nat = before !! 0%nat.
Proof.
  cbv zeta.
  pose proof (cadence_pass_frame (fun q => q) 3
                {| slots := 2; density := 1; tensionCurve := "flat";
                   rhythmicStyle := "steady"; phraseStructure := "ABAB";
                   creativity := 0 |} Chords.K_C
                (fun n : nat =>
                   (inject_Z (Z.of_nat ((n * 7 + 5) mod 10)) / 10)%Q)
                0%nat) as [_ Hframe].
  cbv zeta in Hframe.
  match goal with
  | H : forall i s, ?before !! i = Some s -> _ |- _ =>
      destruct (before !! 1%nat) as [s1|] eqn:E1;
        [|vm_compute in E1; discriminate];
      destruct (before !! 0%nat) as [s0|] eqn:E0;
        [|vm_compute in E0; discriminate]
  end.
  exists s1. split; [reflexivity|].
  assert (Hd1 : degree s1 = Some 6).
  { vm_compute in E1. injection E1 as <-. reflexivity. }
  assert (Hd0 : degree s0 = Some 1).
  { vm_compute in E0. injection E0 as <-. reflexivity. }
  split; [exact Hd1|]. split.
  - apply (Hframe 1%nat s1 E1). split; [split|split].
    + exists s1. split; [exact E1 | rewrite Hd1; discriminate].
    + intros j s Hj Hs. apply lookup_lt_Some in Hs.
      vm_compute in Hs. lia.
    + intros s Hs. rewrite E1 in Hs. injection Hs as <-.
      rewrite Hd1. split; discriminate.
    + vm_compute. reflexivity.
  - apply (Hframe 0%nat s0 E0). intros (Hfinal & _ & _).
    destruct Hfinal as [_ Hrest].
    specialize (Hrest 1%nat s1 (Nat.lt_0_1) E1). congruence.
Defined.

End EndingFacts.

(** ** Suggestion engine *)

Section SortFacts.
Context {A : Type}.

Lemma insertM_Permutation (compare : A -> A -> Rand num) (x : A)
    (l : list A) (rnd : nat -> Q) (n : nat) :
  fst (insertM compare x l rnd n) ≡ₚ x :: l.
Proof.
  revert n. induction l as [|y l IH]; intros n; cbn [insertM].
  - reflexivity.
  - unfold bind at 1.
    destruct (ngtb (fst (compare x y rnd n)) (Fin 0)).
    + unfold bind, ret. cbn [fst]. rewrite IH. apply perm_swap.
    + reflexivity.
Qed.

(** Whatever the comparator answers, the sort returns a rearrangement of
    its input. *)
Lemma sortM_Permutation (compare : A -> A -> Rand num) (l : list A)
    (rnd : nat -> Q) (n : nat) :
  fst (sortM compare l rnd n) ≡ₚ l.
Proof.
  revert n. induction l as [|x l IH]; intros n; simpl.
  - reflexivity.
  - unfold bind. rewrite insertM_Permutation, IH. reflexivity.
Qed.

End SortFacts.

Section StarterFacts.
Import Suggestion.

Lemma startOptions_NoDup : NoDup startOptions.
Proof.
  unfold startOptions.
  repeat (apply NoDup_cons_2;
          [rewrite !list_elem_of_In; simpl; intuition discriminate|]).
  apply NoDup_nil_2.
Qed.

Lemma suggestNextChords_empty (bpm now : Q) (rnd : nat -> Q) (n : nat) :
  fst (suggestNextChords [] bpm now rnd n)
  = fst (sortM byProbability
           (take 3 (fst (sortM shuffling startOptions rnd n)))
           rnd (snd (sortM shuffling startOptions rnd n))).
Proof. reflexivity. Qed.

Lemma empty_history_from_starters (bpm now : Q) (rnd : nat -> Q) (n : nat)
    (s : ChordSuggestion) :
  In s (fst (suggestNextChords [] bpm now rnd n)) -> In s startOptions.
Proof.
  rewrite suggestNextChords_empty. intros Hs.
  apply list_elem_of_In. apply list_elem_of_In in Hs.
  eapply elem_of_Permutation_proper in Hs; [|symmetry; apply sortM_Permutation].
  apply subseteq_take in Hs.
  eapply elem_of_Permutation_proper; [|exact Hs].
  symmetry. apply sortM_Permutation.
Qed.

(** C6: with an empty history the engine returns exactly three
    suggestions, all different, each an entry of the fixed starter set
    (I 35%, V 25%, IV 20%, vi 12%, ii 8%) with its fixed probability,
    reason and category, for every stream of draws. *)
Theorem empty_history_starters (bpm now : Q) (rnd : nat -> Q) (n : nat) :
  let suggestions := fst (suggestNextChords [] bpm now rnd n) in
  length suggestions = 3%nat
  /\ NoDup suggestions
  /\ (forall s, In s suggestions -> In s startOptions)
  /\ map (fun s => (degree s, probability s, category s)) startOptions
     = [ (0, Fin 0.35%Q, strong); (4, Fin 0.25%Q, strong);
         (3, Fin 0.20%Q, moderate); (5, Fin 0.12%Q, moderate);
         (1, Fin 0.08%Q, adventurous) ].
Proof.
  cbv zeta. rewrite suggestNextChords_empty.
  set (shuffled := fst (sortM shuffling startOptions rnd n)).
  assert (Hperm : shuffled ≡ₚ startOptions) by apply sortM_Permutation.
  set (m := snd (sortM shuffling startOptions rnd n)).
  pose proof (sortM_Permutation byProbability (take 3 shuffled) rnd m)
    as Hsorted.
  split; [|split; [|split]].
  - rewrite Hsorted, length_take, Hperm. reflexivity.
  - rewrite Hsorted. eapply sublist_NoDup; [|apply sublist_take].
    rewrite Hperm. apply startOptions_NoDup.
  - intros s Hs. apply (empty_history_from_starters bpm now rnd n).
    rewrite suggestNextChords_empty. exact Hs.
  - reflexivity.
Qed.

End StarterFacts.

Section RankingFacts.
Import Suggestion.

Lemma suggestNextChords_nonempty history lastChord bpm now rnd n :
  last history = Some lastChord ->
  fst (suggestNextChords history bpm now rnd n)
  = take 4 (fst (rankSuggestions lastChord (secondLastOf history) rnd n)).
Proof.
  intros Hlast. unfold suggestNextChords.
  destruct history as [|h history]; [discriminate|].
  cbn [List.length Nat.eqb].
  rewrite last_lookup in Hlast. cbn [List.length Nat.pred] in Hlast.
  replace (S (length history) - 1)%nat with (length history) by lia.
  rewrite Hlast. reflexivity.
Qed.

Lemma rankSuggestions_Permutation lastChord secondLastChord rnd n :
  fst (rankSuggestions lastChord secondLastChord rnd n)
  ≡ₚ normalize
       (fst (addCreativityBonus (candidateScores lastChord secondLastChord)
               rnd n)).
Proof. unfold rankSuggestions, bind. apply sortM_Permutation. Qed.

Lemma addCreativityBonus_degrees (scores : obj Score) rnd n :
  map fst (fst (addCreativityBonus scores rnd n)) = map fst scores.
Proof.
  unfold addCreativityBonus. apply mapM_map. reflexivity.
Qed.

Lemma normalize_degrees (scores : obj Score) :
  map degree (normalize scores) = map fst scores.
Proof. unfold normalize. rewrite map_map. reflexivity. Qed.

Lemma rankSuggestions_degrees lastChord secondLastChord rnd n :
  map degree (fst (rankSuggestions lastChord secondLastChord rnd n))
  ≡ₚ [0; 1; 2; 3; 4; 5; 6].
Proof.
  eapply Permutation_trans;
    [apply Permutation_map, rankSuggestions_Permutation|].
  rewrite normalize_degrees, addCreativityBonus_degrees. reflexivity.
Qed.

(** C10: every suggestion, for any history and any draws, carries a
    0-based degree in 0..6, and so does every entry of the starter set,
    where degree 0 is the entry labelled as the tonic (I). The chord
    model and the batch generator count from 1: the chord constructor
    rejects degree 0 and accepts 7, every slot of a generated progression
    is a rest or holds a degree in 1..7, and a suggested degree becomes a
    valid chord degree by adding 1. *)
Theorem suggestion_degrees_zero_based (history : list ChordHistory)
    (bpm now : Q) (rnd : nat -> Q) (n : nat) :
  (forall s, In s (fst (suggestNextChords history bpm now rnd n)) ->
     0 <= degree s <= 6
     /\ forall key chordType inversion octave, exists notes,
          Chords.generateChord key (degree s + 1) chordType inversion octave
          = Ok notes)
  /\ (forall s, In s startOptions -> 0 <= degree s <= 6)
  /\ (exists s, In s startOptions /\ degree s = 0
                /\ reason s = "Tonic (I) - Classic start")
  /\ (forall key chordType inversion octave,
        Chords.generateChord key 0 chordType inversion octave
        = Throw "Scale degree must be between 1 and 7"
        /\ exists notes,
             Chords.generateChord key 7 chordType inversion octave
             = Ok notes)
  /\ (forall Math_sin Math_PI config key draws m slot,
        In slot
          (fst (Generator.generateProceduralProgression Math_sin Math_PI
                  config key draws m)) ->
        slotInScale slot).
Proof.
  assert (Hstart : forall s, In s startOptions -> 0 <= degree s <= 6).
  { intros s Hs. simpl in Hs.
    destruct Hs as [<- | [<- | [<- | [<- | [<- | []]]]]]; simpl; lia. }
  assert (Hrange : forall s,
            In s (fst (suggestNextChords history bpm now rnd n)) ->
            0 <= degree s <= 6).
  { intros s Hs. destruct (last history) as [lastChord|] eqn:Hlast.
    - rewrite (suggestNextChords_nonempty _ _ _ _ _ _ Hlast) in Hs.
      apply list_elem_of_In, subseteq_take, list_elem_of_In in Hs.
      assert (Hd : In (degree s) [0; 1; 2; 3; 4; 5; 6]).
      { eapply Permutation_in; [apply rankSuggestions_degrees|].
        apply in_map, Hs. }
      simpl in Hd. lia.
    - apply last_None in Hlast. subst history.
      eapply Hstart, empty_history_from_starters, Hs. }
  split; [|split; [exact Hstart|split; [|split]]].
  - intros s Hs. split; [apply Hrange, Hs|].
    intros key chordType inversion octave.
    apply generateChord_in_range. specialize (Hrange s Hs). lia.
  - eexists. split; [left; reflexivity|]. split; reflexivity.
  - intros key chordType inversion octave. split.
    + apply generateChord_out_of_range. lia.
    + apply generateChord_in_range. lia.
  - intros Math_sin Math_PI config key draws m slot.
    apply generateProceduralProgression_slotInScale.
Qed.

Lemma Qsum_Permutation (l1 l2 : list Q) :
  Permutation l1 l2 -> (Qsum l1 == Qsum l2)%Q.
Proof.
  induction 1 as [|x l1 l2 _ IH|x y l|l1 l2 l3 _ IH1 _ IH2]; simpl.
  - reflexivity.
  - rewrite IH. reflexivity.
  - ring.
  - rewrite IH1. exact IH2.
Qed.

Lemma Qsum_scale (c : Q) (l : list Q) :
  (Qsum (map (fun x => x / c) l) == Qsum l / c)%Q.
Proof.
  induction l as [|x l IH]; simpl.
  - unfold Qdiv. ring.
  - rewrite IH. unfold Qdiv. ring.
Qed.

Lemma fold_left_Fin (l : list Q) (acc : Q) :
  exists q,
    fold_left nadd (map Fin l) (Fin acc) = Fin q /\ (q == acc + Qsum l)%Q.
Proof.
  revert acc. induction l as [|x l IH]; intros acc; simpl.
  - exists acc. split; [reflexivity | ring].
  - destruct (IH (acc + x)%Q) as (q & -> & Hq).
    exists q. split; [reflexivity|]. rewrite Hq. ring.
Qed.

Lemma totalScore_Qsum (scores : obj Score) :
  (totalScore scores == Qsum (map (fun e => score (snd e)) scores))%Q.
Proof.
  unfold totalScore.
  assert (H : forall acc,
            (fold_left (fun sum s => sum + score s) (map snd scores) acc
             == acc + Qsum (map (fun e => score (snd e)) scores))%Q).
  { induction scores as [|e scores IH]; intros acc; simpl.
    - ring.
    - rewrite IH. ring. }
  rewrite H. ring.
Qed.

(** Table entries are not negative, so [|| 0.01] leaves a positive
    number. *)
Lemma or_default_pos (v : option Q) :
  (forall q, v = Some q -> (0 <= q)%Q) -> (0 < or_default v 0.01)%Q.
Proof.
  intros H. unfold or_default. destruct v as [q|]; [|reflexivity].
  destruct (Qeq_bool q 0) eqn:E; [reflexivity|].
  apply Qeq_bool_neq in E. specialize (H q eq_refl).
  apply Qle_lteq in H as [H | H]; [exact H|].
  exfalso. apply E. symmetry. exact H.
Qed.

Lemma obj_get_nonnegative (row : obj Q) (d : Z) (q : Q) :
  nonnegative_row row = true -> obj_get d row = Some q -> (0 <= q)%Q.
Proof.
  unfold nonnegative_row. rewrite forallb_forall. intros Hrow.
  induction row as [|[k v] row IH]; simpl; [discriminate|].
  destruct (d =? k).
  - intros H. injection H as <-.
    apply Qle_bool_iff, (Hrow (k, v)). left. reflexivity.
  - apply IH. intros e He. apply Hrow. right. exact He.
Qed.

Lemma COMMON_PROGRESSIONS_nonnegative (k d : Z) (q : Q) :
  obj_get k COMMON_PROGRESSIONS ≫= obj_get d = Some q -> (0 <= q)%Q.
Proof.
  destruct (obj_get k COMMON_PROGRESSIONS) as [row|] eqn:E; [|discriminate].
  cbn [mbind option_bind]. apply obj_get_nonnegative.
  apply obj_get_In in E. revert row E.
  assert (H : forallb nonnegative_row (map snd COMMON_PROGRESSIONS) = true)
    by (vm_compute; reflexivity).
  rewrite forallb_forall in H. exact H.
Qed.

Lemma SECOND_ORDER_PATTERNS_nonnegative (p : Z * Z) (d : Z) (q : Q) :
  Generator.lookup_pattern p SECOND_ORDER_PATTERNS ≫= obj_get d = Some q ->
  (0 <= q)%Q.
Proof.
  destruct (Generator.lookup_pattern p SECOND_ORDER_PATTERNS) as [row|] eqn:E;
    [|discriminate].
  cbn [mbind option_bind]. apply obj_get_nonnegative.
  apply lookup_pattern_In in E. revert row E.
  assert (H : forallb nonnegative_row (map snd SECOND_ORDER_PATTERNS) = true)
    by (vm_compute; reflexivity).
  rewrite forallb_forall in H. exact H.
Qed.

Lemma getCircleOfFifthsBonus_nonnegative (from to : Z) :
  (0 <= getCircleOfFifthsBonus from to)%Q.
Proof.
  unfold getCircleOfFifthsBonus.
  repeat match goal with
         | |- context [if ?c then _ else _] => destruct c
         end; unfold Qle; simpl; lia.
Qed.

Lemma getFunctionalHarmonyBonus_nonnegative (from to : Z) :
  (0 <= getFunctionalHarmonyBonus from to)%Q.
Proof.
  unfold getFunctionalHarmonyBonus.
  repeat match goal with
         | |- context [if ?c then _ else _] => destruct c
         end; unfold Qle; simpl; lia.
Qed.

Lemma score_reason (b : bool) (r : string) (s : Score) :
  score (if b then push_reason r s else s) = score s.
Proof. destruct b; reflexivity. Qed.

Lemma scoreDegree_nonnegative lastChord secondLastChord (d : Z) :
  (0 <= score (scoreDegree lastChord secondLastChord d))%Q.
Proof.
  unfold scoreDegree. cbv zeta. rewrite score_reason.
  cbn [score add_score].
  pose proof (getFunctionalHarmonyBonus_nonnegative (played lastChord) d).
  rewrite score_reason. cbn [score add_score].
  pose proof (getCircleOfFifthsBonus_nonnegative (played lastChord) d).
  pose proof (or_default_pos _
                (COMMON_PROGRESSIONS_nonnegative (played lastChord) d)).
  destruct secondLastChord as [second|].
  - rewrite score_reason. cbn [score add_score]. rewrite score_reason.
    cbn [score add_score].
    pose proof (or_default_pos _
                  (SECOND_ORDER_PATTERNS_nonnegative
                     (played second, played lastChord) d)).
    lra.
  - rewrite score_reason. cbn [score add_score]. lra.
Qed.

Lemma addCreativityBonus_positive (scores : obj Score) rnd n :
  unit_draws rnd ->
  Forall (fun e => 0 <= score (snd e))%Q scores ->
  Forall positiveScore (fst (addCreativityBonus scores rnd n)).
Proof.
  intros Hrnd. unfold addCreativityBonus. apply mapM_Forall.
  intros e m He. unfold bind, ret, Math_random, positiveScore.
  cbn [fst snd]. destruct (Hrnd m) as [Hr _].
  destruct (includes [2; 6] (fst e)); cbn [score add_score push_reason]; lra.
Qed.

Lemma candidateScores_nonnegative lastChord secondLastChord :
  Forall (fun e => 0 <= score (snd e))%Q
    (candidateScores lastChord secondLastChord).
Proof.
  unfold candidateScores. apply Forall_fmap, Forall_forall.
  intros d _. apply scoreDegree_nonnegative.
Qed.

Lemma Qsum_positive (scores : obj Score) :
  scores <> [] -> Forall positiveScore scores ->
  (0 < Qsum (map (fun e => score (snd e)) scores))%Q.
Proof.
  intros Hne H. destruct H as [|e scores He H]; [contradiction|].
  clear Hne. simpl.
  assert (Hrest : (0 <= Qsum (map (fun e => score (snd e)) scores))%Q).
  { induction H as [|e' scores He' _ IH]; simpl; [lra|].
    unfold positiveScore in He'. lra. }
  unfold positiveScore in He. lra.
Qed.

Lemma normalize_probabilities (scores : obj Score) :
  (0 < totalScore scores)%Q ->
  map probability (normalize scores)
  = map Fin (map (fun e => score (snd e) / totalScore scores)%Q scores).
Proof.
  intros Hpos. unfold normalize. rewrite !map_map. apply map_ext.
  intros e. cbn [probability ndiv].
  destruct (Qeq_bool (totalScore scores) 0) eqn:E; [|reflexivity].
  apply Qeq_bool_iff in E. lra.
Qed.

Lemma Qltb_ge (a b : Q) : Qltb a b = false <-> (b <= a)%Q.
Proof.
  unfold Qltb. rewrite negb_false_iff. apply Qle_bool_iff.
Qed.

Lemma categorize_thresholds (p : Q) :
  (categorize (Fin p) = strong <-> (0.3 < p)%Q)
  /\ (categorize (Fin p) = moderate <-> (0.15 < p)%Q /\ (p <= 0.3)%Q)
  /\ (categorize (Fin p) = adventurous <-> (p <= 0.15)%Q).
Proof.
  unfold categorize.
  change (ngtb (Fin p) (Fin 0.3%Q)) with (Qltb 0.3 p).
  change (ngtb (Fin p) (Fin 0.15%Q)) with (Qltb 0.15 p).
  destruct (Qltb 0.3 p) eqn:E3; destruct (Qltb 0.15 p) eqn:E15;
    try apply Qltb_lt in E3; try apply Qltb_ge in E3;
    try apply Qltb_lt in E15; try apply Qltb_ge in E15;
    (split; [|split]); (split; [intros Hc | intros Hq]);
    try discriminate; try reflexivity; try lra;
    try (destruct Hq; lra); split; lra.
Qed.

(** The scores after the creativity bonus: seven of them, all positive,
    with a positive total. *)
Lemma boosted_scores lastChord secondLastChord rnd n :
  unit_draws rnd ->
  let scores :=
    fst (addCreativityBonus (candidateScores lastChord secondLastChord)
           rnd n) in
  Forall positiveScore scores /\ (0 < totalScore scores)%Q.
Proof.
  intros Hrnd scores.
  assert (Hpos : Forall positiveScore scores).
  { apply addCreativityBonus_positive; [exact Hrnd|].
    apply candidateScores_nonnegative. }
  split; [exact Hpos|].
  rewrite totalScore_Qsum. apply Qsum_positive; [|exact Hpos].
  intros Hnil.
  pose proof (addCreativityBonus_degrees
                (candidateScores lastChord secondLastChord) rnd n) as Hd.
  fold scores in Hd. rewrite Hnil in Hd. discriminate.
Qed.

(** C3: for a non-empty history and draws in [0,1), the seven normalized
    probabilities, one per degree 0..6, are finite and sum to exactly 1
    before the list is cut to its first four entries, and every
    suggestion, returned or not, has the category that its probability
    [p] determines: strong when [0.3 < p], moderate when
    [0.15 < p <= 0.3], adventurous when [p <= 0.15]. *)
Theorem suggestion_probabilities_normalized (history : list ChordHistory)
    (bpm now : Q) (rnd : nat -> Q) (n : nat) :
  history <> [] ->
  unit_draws rnd ->
  exists lastChord,
    last history = Some lastChord
    /\ let full :=
         fst (rankSuggestions lastChord (secondLastOf history) rnd n) in
       let returned := fst (suggestNextChords history bpm now rnd n) in
       returned = take 4 full
       /\ map degree full ≡ₚ [0; 1; 2; 3; 4; 5; 6]
       /\ (exists total, probabilityMass full = Fin total /\ (total == 1)%Q)
       /\ (forall s, In s returned -> In s full)
       /\ (forall s, In s full ->
           exists p,
             probability s = Fin p
             /\ (category s = strong <-> (0.3 < p)%Q)
             /\ (category s = moderate <-> (0.15 < p)%Q /\ (p <= 0.3)%Q)
             /\ (category s = adventurous <-> (p <= 0.15)%Q)).
Proof.
  intros Hne Hrnd.
  destruct (last history) as [lastChord|] eqn:Hlast;
    [|apply last_None in Hlast; contradiction].
  exists lastChord. split; [reflexivity|]. cbv zeta.
  rewrite (suggestNextChords_nonempty _ _ bpm now rnd n Hlast).
  pose proof (rankSuggestions_Permutation lastChord (secondLastOf history)
                rnd n) as Hperm.
  destruct (boosted_scores lastChord (secondLastOf history) rnd n Hrnd)
    as [Hpos Htotal].
  set (scores := fst (addCreativityBonus
                        (candidateScores lastChord (secondLastOf history))
                        rnd n)) in *.
  set (full := fst (rankSuggestions lastChord (secondLastOf history) rnd n))
    in *.
  split; [reflexivity|]. split; [apply rankSuggestions_degrees|].
  split; [|split].
  - assert (Hprob : Permutation (map probability full)
                      (map Fin (map (fun e => score (snd e)
                                              / totalScore scores)%Q
                                   scores))).
    { rewrite <- (normalize_probabilities scores Htotal).
      apply Permutation_map, Hperm. }
    apply Permutation_map_inv in Hprob as (probs & Heq & Hprobs).
    unfold probabilityMass. rewrite Heq.
    destruct (fold_left_Fin probs 0%Q) as (q & -> & Hq).
    exists q. split; [reflexivity|].
    rewrite Hq, <- (Qsum_Permutation _ _ Hprobs).
    rewrite <- (map_map (fun e => score (snd e))
                  (fun x => x / totalScore scores)%Q).
    rewrite Qsum_scale, <- totalScore_Qsum. field. lra.
  - intros s Hs. apply list_elem_of_In.
    apply list_elem_of_In in Hs. eapply subseteq_take, Hs.
  - intros s Hs. eapply Permutation_in in Hs; [|exact Hperm].
    unfold normalize in Hs. apply in_map_iff in Hs as (e & <- & He).
    cbn [probability category ndiv].
    destruct (Qeq_bool (totalScore scores) 0) eqn:E;
      [apply Qeq_bool_iff in E; lra|].
    eexists. split; [reflexivity|]. apply categorize_thresholds.
Qed.

Lemma suggestion_probabilities_normalized_witness :
  exists lastChord,
    last [mkHistory 0 0; mkHistory 4 1] = Some lastChord
    /\ let full :=
         fst (rankSuggestions lastChord
                (secondLastOf [mkHistory 0 0; mkHistory 4 1])
                (fun _ => 0.5%Q) 0%nat) in
       let returned :=
         fst (suggestNextChords [mkHistory 0 0; mkHistory 4 1] 120 2
                (fun _ => 0.5%Q) 0%nat) in
       returned = take 4 full
       /\ map degree full ≡ₚ [0; 1; 2; 3; 4; 5; 6]
       /\ (exists total, probabilityMass full = Fin total /\ (total == 1)%Q)
       /\ (forall s, In s returned -> In s full)
       /\ (forall s, In s full ->
           exists p,
             probability s = Fin p
             /\ (category s = strong <-> (0.3 < p)%Q)
             /\ (category s = moderate <-> (0.15 < p)%Q /\ (p <= 0.3)%Q)
             /\ (category s = adventurous <-> (p <= 0.15)%Q)).
Proof.
  apply (suggestion_probabilities_normalized
           [mkHistory 0 0; mkHistory 4 1] 120 2 (fun _ => 0.5%Q) 0%nat).
  - discriminate.
  - intros i. split; [unfold Qle | unfold Qlt]; simpl; lia.
Defined.

End RankingFacts.

(** * Further properties *)

(** ** Notes, chords and names *)

Section ChordShapeFacts.
Import Chords.

Lemma getNoteIndex_range (key : Key) : 0 <= getNoteIndex key <= 11.
Proof. destruct key; vm_compute; split; discriminate. Qed.

Lemma wrapped_index (index : Z) :
  Z.rem (Z.rem index 12 + 12) 12 = index mod 12.
Proof.
  pose proof (Z.rem_bound_abs index 12 ltac:(lia)) as Hb.
  assert (Hr : 0 <= Z.rem index 12 + 12) by lia.
  rewrite Z.rem_mod_nonneg by lia.
  replace (Z.rem index 12 + 12) with (Z.rem index 12 + 1 * 12) by lia.
  rewrite Z_mod_plus_full.
  rewrite (Z.quot_rem' index 12) at 2.
  rewrite Z.add_comm, Z.mul_comm, Z_mod_plus_full. reflexivity.
Qed.

Lemma note_at_index (i : Z) :
  0 <= i < 12 -> exists k, at_index NOTES i = Some k /\ getNoteIndex k = i.
Proof.
  intros Hi.
  assert (H : i = 0 \/ i = 1 \/ i = 2 \/ i = 3 \/ i = 4 \/ i = 5 \/ i = 6
              \/ i = 7 \/ i = 8 \/ i = 9 \/ i = 10 \/ i = 11) by lia.
  repeat destruct H as [-> | H]; try subst i;
    eexists; split; reflexivity.
Qed.

(** X1: note names and indices convert back and forth. Every key is read
    back from its index, and every integer index, negative ones too,
    names the key whose index is the index modulo 12. *)
Theorem note_index_round_trip :
  (forall key, getNoteFromIndex (getNoteIndex key) = Some key)
  /\ (forall index, exists key,
        getNoteFromIndex index = Some key
        /\ getNoteIndex key = index mod 12).
Proof.
  split.
  - intros key. destruct key; reflexivity.
  - intros index. unfold getNoteFromIndex. rewrite wrapped_index.
    apply note_at_index. apply Z.mod_pos_bound. lia.
Qed.

Lemma chordRoot_range (key : Key) (d : Z) : 0 <= chordRoot key d < 12.
Proof.
  unfold chordRoot.
  pose proof (getNoteIndex_range key) as Hk.
  assert (Hs : 0 <= default 0 (MAJOR_SCALE !! Z.to_nat (d - 1))).
  { destruct (MAJOR_SCALE !! Z.to_nat (d - 1)) as [s|] eqn:E; [|simpl; lia].
    apply list_elem_of_lookup_2, list_elem_of_In in E. simpl in E.
    simpl. lia. }
  rewrite Z.rem_mod_nonneg by lia. apply Z.mod_pos_bound. lia.
Qed.

Lemma CHORD_INTERVALS_range (t : ChordType) :
  Forall (fun interval => 0 <= interval <= 14) (CHORD_INTERVALS t)
  /\ StronglySorted Z.lt (CHORD_INTERVALS t)
  /\ head (CHORD_INTERVALS t) = Some 0.
Proof.
  destruct t; simpl; (split; [|split; [|reflexivity]]);
    repeat constructor; lia.
Qed.

(** One note of the chord: with the root in 0..11 and an interval that is
    not negative, the remainder and the octave carry add up again. *)
Lemma note_of_interval (octave root interval : Z) :
  0 <= root -> 0 <= interval ->
  (octave + 1) * 12 + Z.rem (root + interval) 12
  + (root + interval) / 12 * 12
  = (octave + 1) * 12 + root + interval.
Proof.
  intros Hr Hi. rewrite Z.rem_mod_nonneg by lia.
  pose proof (Z.div_mod (root + interval) 12 ltac:(lia)). lia.
Qed.

(** The root position in closed form. *)
Lemma generateChord_root_position key d ct oct :
  1 <= d <= 7 ->
  generateChord key d ct 0 oct
  = Ok (map (fun interval => (oct + 1) * 12 + chordRoot key d + interval)
            (CHORD_INTERVALS (chordQuality d ct))).
Proof.
  intros Hd. unfold generateChord.
  assert (Hc : (d <? 1) || (d >? 7) = false).
  { apply orb_false_iff. rewrite Z.ltb_ge.
    split; [lia|]. rewrite Z.gtb_ltb. apply Z.ltb_ge. lia. }
  rewrite Hc. cbv zeta. cbn [Z.gtb Z.compare andb]. f_equal.
  fold (chordRoot key d).
  replace (match match ct with
                 | Some t => Some t
                 | None => NASHVILLE_CHORDS d
                 end with
           | Some t => CHORD_INTERVALS t
           | None => CHORD_INTERVALS major
           end) with (CHORD_INTERVALS (chordQuality d ct)).
  2:{ unfold chordQuality. destruct ct; [reflexivity|].
      destruct (NASHVILLE_CHORDS d); reflexivity. }
  apply map_ext_in. intros interval Hin.
  destruct (CHORD_INTERVALS_range (chordQuality d ct)) as [Hrange _].
  rewrite Forall_forall in Hrange.
  apply list_elem_of_In, Hrange in Hin.
  apply note_of_interval; [apply chordRoot_range | lia].
Qed.

Lemma generateChord_Ok_degree key d ct inv oct notes :
  generateChord key d ct inv oct = Ok notes -> 1 <= d <= 7.
Proof.
  unfold generateChord.
  destruct ((d <? 1) || (d >? 7)) eqn:E; [discriminate|].
  intros _. apply orb_false_iff in E as [E1 E7].
  apply Z.ltb_ge in E1. rewrite Z.gtb_ltb in E7. apply Z.ltb_ge in E7. lia.
Qed.

Lemma pitchClass_in_octave (base root : Z) :
  0 <= root < 12 -> pitchClass (base * 12 + root) = root.
Proof.
  intros Hr. unfold pitchClass.
  rewrite Z.add_comm, Z_mod_plus_full. apply Z.mod_small, Hr.
Qed.

(** X2: a chord in root position is its bass note plus the intervals of
    its quality. The bass lies in the requested octave (MIDI
    [(octave + 1) * 12] is that octave's C), its pitch class is the key
    moved up the major scale to the degree, and the notes ascend. *)
Theorem root_position_shape key d ct oct notes :
  generateChord key d ct 0 oct = Ok notes ->
  exists bass scaleOffset,
    head notes = Some bass
    /\ (oct + 1) * 12 <= bass < (oct + 2) * 12
    /\ at_index MAJOR_SCALE (d - 1) = Some scaleOffset
    /\ pitchClass bass = (getNoteIndex key + scaleOffset) mod 12
    /\ map (fun note => note - bass) notes
       = CHORD_INTERVALS (chordQuality d ct)
    /\ StronglySorted Z.lt notes.
Proof.
  intros Hnotes.
  pose proof (generateChord_Ok_degree _ _ _ _ _ _ Hnotes) as Hd.
  rewrite (generateChord_root_position key d ct oct Hd) in Hnotes.
  injection Hnotes as <-.
  pose proof (chordRoot_range key d) as Hroot.
  destruct (CHORD_INTERVALS_range (chordQuality d ct))
    as (_ & Hsorted & Hhead).
  exists ((oct + 1) * 12 + chordRoot key d).
  assert (Hscale : exists s, at_index MAJOR_SCALE (d - 1) = Some s
                    /\ default 0 (MAJOR_SCALE !! Z.to_nat (d - 1)) = s
                    /\ 0 <= s).
  { unfold at_index. destruct (Z.ltb_spec (d - 1) 0) as [|_]; [lia|].
    assert (H : d = 1 \/ d = 2 \/ d = 3 \/ d = 4 \/ d = 5 \/ d = 6 \/ d = 7)
      by lia.
    repeat destruct H as [-> | H]; try subst d;
      eexists; (split; [reflexivity | split; [reflexivity | lia]]). }
  destruct Hscale as (s & Hat & Hs & Hs0). exists s.
  split; [|split; [|split; [|split; [|split]]]].
  - destruct (CHORD_INTERVALS (chordQuality d ct)) as [|i0 l];
      [discriminate|].
    injection Hhead as ->. simpl. f_equal. lia.
  - lia.
  - exact Hat.
  - rewrite pitchClass_in_octave by exact Hroot.
    unfold chordRoot. rewrite Hs.
    pose proof (getNoteIndex_range key).
    apply Z.rem_mod_nonneg; lia.
  - rewrite map_map. rewrite <- (map_id (CHORD_INTERVALS _)) at 2.
    apply map_ext. intros interval. lia.
  - apply (StronglySorted_fmap _ Z.lt Z.lt); [|exact Hsorted].
    intros x y Hxy. lia.
Qed.

Lemma root_position_shape_witness :
  exists bass scaleOffset,
    head [57; 60; 64] = Some bass
    /\ (3 + 1) * 12 <= bass < (3 + 2) * 12
    /\ at_index MAJOR_SCALE (6 - 1) = Some scaleOffset
    /\ pitchClass bass = (getNoteIndex K_C + scaleOffset) mod 12
    /\ map (fun note => note - bass) [57; 60; 64]
       = CHORD_INTERVALS (chordQuality 6 None)
    /\ StronglySorted Z.lt [57; 60; 64].
Proof. apply (root_position_shape K_C 6 None 3). reflexivity. Defined.

Lemma invert_transpose (n : nat) (c : Z) (notes : list Z) :
  invert n (transpose c notes) = transpose c (invert n notes).
Proof.
  revert notes. induction n as [|n IH]; intros notes; [reflexivity|].
  cbn [invert]. rewrite <- IH. f_equal.
  destruct notes as [|x notes]; [reflexivity|].
  unfold transpose. cbn [map invert_once]. rewrite map_app. cbn [map].
  do 2 f_equal. lia.
Qed.

Lemma transpose_length (c : Z) (notes : list Z) :
  length (transpose c notes) = length notes.
Proof. unfold transpose. apply length_map. Qed.

(** X3: asking for a chord [k] octaves higher gives the same chord with
    every note [12 * k] semitones higher, in any inversion; an invalid
    degree fails in both octaves. *)
Theorem octave_transposes key d ct inv oct k :
  generateChord key d ct inv (oct + k)
  = result_map (transpose (12 * k)) (generateChord key d ct inv oct).
Proof.
  destruct (Z_lt_dec d 1) as [Hlow|Hlow];
    [rewrite !generateChord_out_of_range by lia; reflexivity|].
  destruct (Z_lt_dec 7 d) as [Hhigh|Hhigh];
    [rewrite !generateChord_out_of_range by lia; reflexivity|].
  assert (Hd : 1 <= d <= 7) by lia.
  pose proof (generateChord_root_position key d ct oct Hd) as Hroot.
  pose proof (generateChord_root_position key d ct (oct + k) Hd) as Hroot'.
  set (root := map (fun interval => (oct + 1) * 12 + chordRoot key d
                                    + interval)
                   (CHORD_INTERVALS (chordQuality d ct))) in *.
  assert (Hshift :
    map (fun interval => (oct + k + 1) * 12 + chordRoot key d + interval)
        (CHORD_INTERVALS (chordQuality d ct))
    = transpose (12 * k) root).
  { unfold root, transpose. rewrite map_map. apply map_ext.
    intros interval. lia. }
  rewrite Hshift in Hroot'.
  rewrite (generateChord_unfold _ _ _ inv _ _ Hroot).
  rewrite (generateChord_unfold _ _ _ inv _ _ Hroot').
  rewrite transpose_length.
  destruct ((inv >? 0) && (inv <? Z.of_nat (length root))); cbn [result_map];
    [rewrite invert_transpose|]; reflexivity.
Qed.

Lemma invert_rotation (n : nat) (notes : list Z) :
  (n <= length notes)%nat ->
  invert n notes = drop n notes ++ transpose 12 (take n notes).
Proof.
  revert notes. induction n as [|n IH]; intros notes Hn.
  - cbn [invert]. rewrite drop_0, take_0. unfold transpose. cbn [map].
    rewrite app_nil_r. reflexivity.
  - destruct notes as [|x notes]; [simpl in Hn; lia|].
    cbn [length] in Hn. cbn [invert invert_once].
    rewrite IH by (rewrite length_app; simpl; lia).
    rewrite drop_app_le, take_app_le by lia.
    cbn [drop take]. unfold transpose. cbn [map].
    rewrite <- app_assoc. reflexivity.
Qed.

Lemma narrow_quality (t : ChordType) :
  t <> maj9 -> t <> min9 ->
  Forall (fun interval => 0 <= interval <= 11) (CHORD_INTERVALS t).
Proof.
  intros H9 Hm9. destruct t; try contradiction; simpl;
    repeat constructor; lia.
Qed.

Lemma StronglySorted_take_drop (n : nat) (l : list Z) :
  StronglySorted Z.lt l ->
  StronglySorted Z.lt (take n l) /\ StronglySorted Z.lt (drop n l).
Proof.
  intros H. rewrite <- (take_drop n l) in H.
  apply StronglySorted_app in H as (_ & Ht & Hdr). split; assumption.
Qed.

(** X4: an inversion [k] strictly inside the chord moves exactly the [k]
    lowest notes of the root position up an octave, behind the others and
    in their order. For every quality except the ninths (whose span
    exceeds an octave) the inverted chord still ascends. *)
Theorem inversion_rotates key d ct inv oct root :
  generateChord key d ct 0 oct = Ok root ->
  0 < inv < Z.of_nat (length root) ->
  generateChord key d ct inv oct
  = Ok (drop (Z.to_nat inv) root ++ transpose 12 (take (Z.to_nat inv) root))
  /\ (chordQuality d ct <> maj9 -> chordQuality d ct <> min9 ->
      StronglySorted Z.lt
        (drop (Z.to_nat inv) root
         ++ transpose 12 (take (Z.to_nat inv) root))).
Proof.
  intros Hroot Hinv. split.
  - rewrite (generateChord_unfold _ _ _ inv _ _ Hroot).
    assert (Hc : (inv >? 0) && (inv <? Z.of_nat (length root)) = true).
    { apply andb_true_intro. split; [apply Z.gtb_lt | apply Z.ltb_lt]; lia. }
    rewrite Hc. f_equal. apply invert_rotation. lia.
  - intros H9 Hm9.
    pose proof (generateChord_Ok_degree _ _ _ _ _ _ Hroot) as Hd.
    rewrite (generateChord_root_position key d ct oct Hd) in Hroot.
    injection Hroot as Hroot.
    set (bass := (oct + 1) * 12 + chordRoot key d) in *.
    assert (Hspan : Forall (fun note => bass <= note <= bass + 11) root).
    { rewrite <- Hroot. apply Forall_fmap.
      eapply Forall_impl; [apply narrow_quality; assumption|].
      intros interval Hi. unfold compose. cbv beta in *. lia. }
    assert (Hsorted : StronglySorted Z.lt root).
    { rewrite <- Hroot.
      apply (StronglySorted_fmap _ Z.lt Z.lt);
        [intros x y Hxy; cbv beta; lia | apply CHORD_INTERVALS_range]. }
    destruct (StronglySorted_take_drop (Z.to_nat inv) root Hsorted)
      as [Htake Hdrop].
    rewrite Forall_forall in Hspan.
    apply StronglySorted_app_2; [|exact Hdrop|].
    + intros x1 x2 Hx1 Hx2. unfold transpose in Hx2.
      apply list_elem_of_fmap in Hx2 as (y & -> & Hy).
      apply subseteq_drop, Hspan in Hx1.
      apply subseteq_take, Hspan in Hy. lia.
    + apply (StronglySorted_fmap _ Z.lt Z.lt); [|exact Htake].
      intros x y Hxy. lia.
Qed.

Lemma inversion_rotates_witness :
  generateChord K_C 1 (Some dom7) 2 4 = Ok [67; 70; 72; 76]
  /\ StronglySorted Z.lt [67; 70; 72; 76].
Proof.
  destruct (inversion_rotates K_C 1 (Some dom7) 2 4 [60; 64; 67; 70]
              eq_refl) as [Hrot Hsorted]; [simpl; lia|].
  split; [exact Hrot|]. apply Hsorted; discriminate.
Defined.

(** X5: pressing a chord modifier twice. Every modification except
    maj/min is idempotent, maj/min swaps major and minor back and forth,
    and a type other than major, minor, 7, Maj7 and Min7 is left as it is
    by every modification. *)
Theorem applyChordModification_twice :
  (forall baseType modification,
     modification <> mod_maj_min ->
     applyChordModification
       (applyChordModification baseType modification) modification
     = applyChordModification baseType modification)
  /\ (forall baseType,
        applyChordModification
          (applyChordModification baseType mod_maj_min) mod_maj_min
        = baseType)
  /\ (forall baseType modification,
        ~ In baseType [major; minor; dom7; maj7; min7] ->
        applyChordModification baseType modification = baseType).
Proof.
  split; [|split].
  - intros baseType modification Hm.
    destruct modification; try contradiction; destruct baseType;
      reflexivity.
  - intros baseType. destruct baseType; reflexivity.
  - intros baseType modification Hb.
    destruct baseType; destruct modification; try reflexivity;
      exfalso; apply Hb; simpl; tauto.
Qed.

Lemma MAJOR_SCALE_at (d : Z) :
  1 <= d <= 7 ->
  exists s, at_index MAJOR_SCALE (d - 1) = Some s
            /\ default 0 (MAJOR_SCALE !! Z.to_nat (d - 1)) = s /\ 0 <= s.
Proof.
  intros Hd. unfold at_index.
  destruct (Z.ltb_spec (d - 1) 0) as [|_]; [lia|].
  assert (H : d = 1 \/ d = 2 \/ d = 3 \/ d = 4 \/ d = 5 \/ d = 6 \/ d = 7)
    by lia.
  repeat destruct H as [-> | H]; try subst d;
    eexists; (split; [reflexivity | split; [reflexivity | lia]]).
Qed.

Lemma MAJOR_SCALE_outside (d : Z) :
  d < 1 \/ 7 < d -> at_index MAJOR_SCALE (d - 1) = None.
Proof.
  intros Hd. unfold at_index.
  destruct (Z.ltb_spec (d - 1) 0) as [|Hge]; [reflexivity|].
  apply lookup_ge_None. simpl. lia.
Qed.

Lemma NASHVILLE_CHORDS_outside (d : Z) :
  d < 1 \/ 7 < d -> NASHVILLE_CHORDS d = None.
Proof.
  intros Hd. destruct d as [|p|p]; [reflexivity| |reflexivity].
  unfold NASHVILLE_CHORDS.
  do 3 (destruct p as [p|p|]; try reflexivity; try lia).
Qed.

(** X6: the chord name is the name of the chord's bass note, a space, and
    the label of its quality. The name function has no guard on the
    degree: where the chord constructor throws, it returns a name that
    starts with "undefined". *)
Theorem getChordName_names_the_bass :
  (forall key d ct oct notes,
     generateChord key d ct 0 oct = Ok notes ->
     exists bass rootNote,
       head notes = Some bass
       /\ getNoteFromIndex bass = Some rootNote
       /\ getChordName key d ct
          = (keyName rootNote ++ " "
             ++ typeNames (chordQuality d ct))%string)
  /\ (forall key d ct,
        d < 1 \/ 7 < d ->
        getChordName key d ct
        = ("undefined "
           ++ match ct with Some t => typeNames t | None => "" end)%string).
Proof.
  split.
  - intros key d ct oct notes Hnotes.
    pose proof (generateChord_Ok_degree _ _ _ _ _ _ Hnotes) as Hd.
    rewrite (generateChord_root_position key d ct oct Hd) in Hnotes.
    injection Hnotes as <-.
    destruct (CHORD_INTERVALS_range (chordQuality d ct)) as (_ & _ & Hhead).
    destruct (MAJOR_SCALE_at d Hd) as (s & Hat & Hs & Hs0).
    pose proof (chordRoot_range key d) as Hroot.
    destruct (note_at_index (chordRoot key d) Hroot) as (k & Hk & _).
    exists ((oct + 1) * 12 + chordRoot key d), k.
    split; [|split].
    + destruct (CHORD_INTERVALS (chordQuality d ct)) as [|i0 l];
        [discriminate|].
      injection Hhead as ->. simpl. f_equal. lia.
    + unfold getNoteFromIndex. rewrite wrapped_index.
      change (((oct + 1) * 12 + chordRoot key d) mod 12)
        with (pitchClass ((oct + 1) * 12 + chordRoot key d)).
      rewrite pitchClass_in_octave by exact Hroot. exact Hk.
    + unfold getChordName. rewrite Hat. cbv zeta.
      replace (Z.rem (getNoteIndex key + s) 12) with (chordRoot key d)
        by (unfold chordRoot; rewrite Hs; reflexivity).
      unfold getNoteFromIndex. rewrite wrapped_index.
      rewrite Z.mod_small by exact Hroot. rewrite Hk.
      unfold chordQuality. destruct ct as [t|]; [reflexivity|].
      destruct (NASHVILLE_CHORDS d) as [t|] eqn:E; [reflexivity|].
      exfalso.
      assert (H : d = 1 \/ d = 2 \/ d = 3 \/ d = 4 \/ d = 5 \/ d = 6
                  \/ d = 7) by lia.
      repeat destruct H as [-> | H]; try subst d; discriminate.
  - intros key d ct Hd. unfold getChordName.
    rewrite (MAJOR_SCALE_outside d Hd). cbv zeta.
    destruct ct as [t|]; [reflexivity|].
    rewrite (NASHVILLE_CHORDS_outside d Hd). reflexivity.
Qed.

End ChordShapeFacts.

(** ** Scales *)

Section ScaleFacts.
Import Chords.

(** X7: the notes of a scale. In every key and both modes the scale has
    seven notes, all of them defined and pairwise different, and it starts
    on the key. The notes of the major scale are, degree by degree, the
    roots of the chords built on the degrees 1 to 7. *)
Theorem getScaleNotes_scale (key : Key) (mode : Scales.Mode) :
  (exists notes,
     Scales.getScaleNotes key mode = map Some notes
     /\ length notes = 7%nat
     /\ NoDup notes
     /\ head notes = Some key)
  /\ Scales.getScaleNotes key Scales.major
     = map (fun d => getNoteFromIndex (chordRoot key d)) [1; 2; 3; 4; 5; 6; 7].
Proof.
  split; [|destruct key; reflexivity].
  exists (omap id (Scales.getScaleNotes key mode)).
  destruct key, mode;
    (split; [vm_compute; reflexivity|];
     split; [reflexivity|]; split; [|reflexivity];
     vm_compute;
     repeat (apply NoDup_cons_2;
             [rewrite ?elem_of_cons, elem_of_nil; intuition discriminate|]);
     apply NoDup_nil_2).
Qed.

End ScaleFacts.

(** ** Tension curves, density maps and phrase maps *)

Section CurveFacts.
Import Generator.

Variable Math_sin : Q -> Q.
Variable Math_PI : Q.

Lemma mapM_length {A B} (f : A -> Rand B) (l : list A) rnd n :
  length (fst (mapM f l rnd n)) = length l.
Proof.
  revert n. induction l as [|a l IH]; intros n; [reflexivity|].
  simpl. unfold bind, ret. simpl. rewrite IH. reflexivity.
Qed.

Lemma mapM_draws {A B} (f : A -> Rand B) (l : list A) rnd :
  (forall a m, snd (f a rnd m) = S m) ->
  forall n, snd (mapM f l rnd n) = (n + length l)%nat.
Proof.
  intros Hf. induction l as [|a l IH]; intros n; simpl; [lia|].
  unfold bind, ret. simpl. rewrite IH, Hf. lia.
Qed.

(** X8: a tension curve has one value per slot, for every curve type and
    every length. Only the random curve draws random numbers, one per
    slot. *)
Theorem generateTensionCurve_length (len : nat) (type : string)
    (rnd : nat -> Q) (n : nat) :
  length (fst (generateTensionCurve Math_sin Math_PI len type rnd n)) = len
  /\ snd (generateTensionCurve Math_sin Math_PI len type rnd n)
     = (if String.eqb type "random" then n + len else n)%nat.
Proof.
  unfold generateTensionCurve.
  destruct (String.eqb type "arc") eqn:E1;
    [apply String.eqb_eq in E1; subst type; simpl;
     rewrite length_map, length_seq; split; reflexivity|].
  destruct (String.eqb type "wave") eqn:E2;
    [apply String.eqb_eq in E2; subst type; simpl;
     rewrite length_map, length_seq; split; reflexivity|].
  destruct (String.eqb type "buildup") eqn:E3;
    [apply String.eqb_eq in E3; subst type; simpl;
     rewrite length_map, length_seq; split; reflexivity|].
  destruct (String.eqb type "release") eqn:E4;
    [apply String.eqb_eq in E4; subst type; simpl;
     rewrite length_map, length_seq; split; reflexivity|].
  destruct (String.eqb type "random") eqn:E5.
  - split.
    + rewrite mapM_length. apply length_seq.
    + rewrite mapM_draws by reflexivity. rewrite length_seq. reflexivity.
  - simpl. rewrite repeat_length. split; reflexivity.
Qed.

Lemma Qle_bool_false (a b : Q) : Qle_bool a b = false -> (b < a)%Q.
Proof.
  intros H. apply Qnot_le_lt. intros Hle. apply Qle_bool_iff in Hle.
  congruence.
Qed.

Lemma ndiv_Fin (x y : Q) :
  ~ (y == 0)%Q -> (Fin x / Fin y)%num = Fin (x / y).
Proof.
  intros Hy. unfold ndiv. destruct (Qeq_bool y 0) eqn:E; [|reflexivity].
  apply Qeq_bool_iff in E. contradiction.
Qed.

(** The position of slot [i] on a curve of at least two slots. *)
Lemma normalized_unit (i len : nat) :
  (i < len)%nat -> (2 <= len)%nat ->
  exists q,
    (of_nat i / Fin (inject_Z (Z.of_nat len - 1)))%num = Fin q
    /\ (0 <= q <= 1)%Q.
Proof.
  intros Hi Hlen. unfold of_nat.
  assert (Hpos : (0 < inject_Z (Z.of_nat len - 1))%Q)
    by (unfold Qlt; simpl; lia).
  rewrite ndiv_Fin by lra. eexists. split; [reflexivity|]. split.
  - apply Qle_shift_div_l; [exact Hpos|]. rewrite Qmult_0_l.
    unfold Qle. simpl. lia.
  - apply Qle_shift_div_r; [exact Hpos|]. rewrite Qmult_1_l.
    rewrite <- Zle_Qle. lia.
Qed.

Lemma clamp_unit (x : Q) :
  unitTension (nmax (Fin 0) (nmin (Fin 1) (Fin x))).
Proof.
  unfold unitTension, nmin, nmax, nleb.
  destruct (Qle_bool 1 x) eqn:E1.
  - exists 1%Q. split; [reflexivity | lra].
  - apply Qle_bool_false in E1.
    destruct (Qle_bool 0 x) eqn:E0.
    + apply Qle_bool_iff in E0. exists x. split; [reflexivity | lra].
    + exists 0%Q. split; [reflexivity | lra].
Qed.

Lemma generateTensionCurve_unit (len : nat) (type : string)
    (rnd : nat -> Q) (n : nat) :
  (forall x, (- (1) <= Math_sin x <= 1)%Q) ->
  (0 <= Math_PI)%Q ->
  (forall x, (0 <= x <= Math_PI)%Q -> (0 <= Math_sin x)%Q) ->
  (In type ["arc"; "wave"; "buildup"; "release"] -> len <> 1%nat) ->
  Forall unitTension
    (fst (generateTensionCurve Math_sin Math_PI len type rnd n)).
Proof.
  intros Hsin Hpi Harc Hlen. unfold generateTensionCurve.
  assert (Hnorm : forall i, (i < len)%nat -> len <> 1%nat ->
            exists q,
              (of_nat i / Fin (inject_Z (Z.of_nat len - 1)))%num = Fin q
              /\ (0 <= q <= 1)%Q)
    by (intros i Hi H1; apply normalized_unit; lia).
  destruct (String.eqb type "arc") eqn:E1.
  { apply String.eqb_eq in E1. subst type. cbn [fst ret].
    apply Forall_fmap, Forall_forall. intros i Hi.
    apply elem_of_seq in Hi.
    destruct (Hnorm i) as (q & Hq & Hq01); [lia | apply Hlen; simpl; tauto|].
    cbv beta zeta. unfold compose. rewrite Hq. cbn [nmul nsin].
    exists (Math_sin (q * Math_PI)). split; [reflexivity|].
    split; [apply Harc; nra | apply Hsin]. }
  destruct (String.eqb type "wave") eqn:E2.
  { apply String.eqb_eq in E2. subst type. cbn [fst ret].
    apply Forall_fmap, Forall_forall. intros i Hi.
    apply elem_of_seq in Hi.
    destruct (Hnorm i) as (q & Hq & Hq01); [lia | apply Hlen; simpl; tauto|].
    cbv beta zeta. unfold compose. rewrite Hq. cbn [nmul nsin nadd].
    rewrite ndiv_Fin by (intros H; discriminate H).
    eexists. split; [reflexivity|].
    destruct (Hsin (q * Math_PI * 2)%Q) as [Hlo Hhi].
    split; [apply Qle_shift_div_l | apply Qle_shift_div_r]; lra. }
  destruct (String.eqb type "buildup") eqn:E3.
  { apply String.eqb_eq in E3. subst type. cbn [fst ret].
    apply Forall_fmap, Forall_forall. intros i Hi.
    apply elem_of_seq in Hi.
    destruct (Hnorm i) as (q & Hq & Hq01); [lia | apply Hlen; simpl; tauto|].
    cbv beta zeta. unfold compose. rewrite Hq.
    exists q. split; [reflexivity | exact Hq01]. }
  destruct (String.eqb type "release") eqn:E4.
  { apply String.eqb_eq in E4. subst type. cbn [fst ret].
    apply Forall_fmap, Forall_forall. intros i Hi.
    apply elem_of_seq in Hi.
    destruct (Hnorm i) as (q & Hq & Hq01); [lia | apply Hlen; simpl; tauto|].
    cbv beta zeta. unfold compose. rewrite Hq. cbn [nsub nadd nopp].
    eexists. split; [reflexivity | lra]. }
  destruct (String.eqb type "random") eqn:E5.
  - apply (mapM_Forall (fun i => (i < len)%nat)).
    + intros i m Hi. unfold bind, ret, Math_random. cbn [fst snd].
      unfold of_nat at 1 2.
      rewrite ndiv_Fin
        by (intros H; unfold Qeq in H; simpl in H; lia).
      cbn [nmul nsin nadd]. rewrite ndiv_Fin by (intros H; discriminate H).
      cbn [nadd]. apply clamp_unit.
    + apply Forall_forall. intros i Hi. apply elem_of_seq in Hi. lia.
  - cbn [fst ret]. apply Forall_forall. intros a Ha.
    apply list_elem_of_In, repeat_spec in Ha. subst a.
    exists 0.5%Q. split; [reflexivity | lra].
Qed.

(** X9: the values of a tension curve lie in the unit interval, for every
    curve type, when the sine stays within -1 and 1 and is not negative
    between 0 and pi. The four curves that divide by [length - 1] need a
    length other than one; the random curve is clamped and needs nothing;
    any other type name gives the constant 0.5. *)
Theorem tension_curve_unit_range (len : nat) (type : string)
    (rnd : nat -> Q) (n : nat) :
  (forall x, (- (1) <= Math_sin x <= 1)%Q) ->
  (0 <= Math_PI)%Q ->
  (forall x, (0 <= x <= Math_PI)%Q -> (0 <= Math_sin x)%Q) ->
  (In type ["arc"; "wave"; "buildup"; "release"] -> len <> 1%nat) ->
  Forall unitTension
    (fst (generateTensionCurve Math_sin Math_PI len type rnd n)).
Proof. apply generateTensionCurve_unit. Qed.

(** Whatever the length, a curve value is in the unit interval or [NaN]. *)
Lemma generateTensionCurve_curveTension (len : nat) (type : string)
    (rnd : nat -> Q) (n : nat) :
  (forall x, (- (1) <= Math_sin x <= 1)%Q) ->
  (0 <= Math_PI)%Q ->
  (forall x, (0 <= x <= Math_PI)%Q -> (0 <= Math_sin x)%Q) ->
  Forall curveTension
    (fst (generateTensionCurve Math_sin Math_PI len type rnd n)).
Proof.
  intros Hsin Hpi Harc.
  destruct (Nat.eq_dec len 1%nat) as [-> | Hlen].
  - destruct (in_dec String.string_dec type
                ["arc"; "wave"; "buildup"; "release"]) as [Hin | Hout].
    + destruct Hin as [<- | [<- | [<- | [<- | []]]]];
        repeat constructor.
    + eapply Forall_impl;
        [apply (generateTensionCurve_unit 1%nat type rnd n Hsin Hpi Harc);
         intros Hin; contradiction|].
      intros a (q & -> & Hq). exact Hq.
  - eapply Forall_impl;
      [apply (generateTensionCurve_unit len type rnd n Hsin Hpi Harc);
       intros _; exact Hlen|].
    intros a (q & -> & Hq). exact Hq.
Qed.

End CurveFacts.

Lemma tension_curve_unit_range_witness :
  Forall unitTension
    (fst (Generator.generateTensionCurve (fun _ => 0%Q) 3 5 "release"
            (fun _ => 0.5%Q) 0%nat)).
Proof.
  apply tension_curve_unit_range.
  - intros x. lra.
  - lra.
  - intros x _. lra.
  - intros _. discriminate.
Defined.

Section DensityFacts.
Import Generator.

Lemma euclideanRhythm_length (steps : nat) (pulses : Z) :
  length (euclideanRhythm steps pulses) = steps.
Proof.
  unfold euclideanRhythm.
  destruct (pulses >=? Z.of_nat steps); [apply repeat_length|].
  destruct (pulses =? 0); [apply repeat_length|].
  cbv zeta. rewrite length_map. apply length_seq.
Qed.

(** Asked for at least one pulse, the rhythm plays as many as asked, or
    every step when that is fewer. *)
Lemma euclideanRhythm_count (steps : nat) (pulses : Z) :
  0 < pulses ->
  Z.of_nat (pulseCount (euclideanRhythm steps pulses))
  = Z.min pulses (Z.of_nat steps).
Proof.
  intros Hpos.
  destruct (Z_lt_dec pulses (Z.of_nat steps)) as [Hlt|Hge].
  - assert (Hp : 0 < pulses < Z.of_nat steps) by lia.
    rewrite (euclideanRhythm_general steps pulses Hp).
    destruct steps as [|k]; [simpl in Hlt; lia|].
    rewrite (pulseCount_prefix (S k) pulses k Hp).
    replace k with (S k - 1)%nat at 2 by lia.
    rewrite (bucketAt_last (S k) pulses Hp). lia.
  - unfold euclideanRhythm.
    destruct (Z.geb_spec pulses (Z.of_nat steps)) as [_|Hlt]; [|lia].
    rewrite pulseCount_repeat_true. lia.
Qed.

Lemma fill_template_step (len : nat) (template : list nat)
    (arr : list bool) (i : nat) :
  length arr = len ->
  length (fold_left
            (fun arr p => if (p <? len)%nat then <[p := true]> arr else arr)
            template arr) = len
  /\ (fold_left
        (fun arr p => if (p <? len)%nat then <[p := true]> arr else arr)
        template arr !! i = Some true
      <-> arr !! i = Some true \/ (In i template /\ (i < len)%nat)).
Proof.
  revert arr. induction template as [|p template IH]; intros arr Harr.
  - simpl. split; [exact Harr|]. tauto.
  - cbn [fold_left].
    set (arr' := if (p <? len)%nat then <[p := true]> arr else arr).
    assert (Harr' : length arr' = len).
    { unfold arr'. destruct (p <? len)%nat; [rewrite length_insert|];
        exact Harr. }
    destruct (IH arr' Harr') as [Hlen Hiff]. split; [exact Hlen|].
    rewrite Hiff. cbn [In].
    assert (Hstep : arr' !! i = Some true
                    <-> arr !! i = Some true \/ (p = i /\ (i < len)%nat)).
    { unfold arr'. destruct (Nat.ltb_spec p len) as [Hp|Hp].
      - destruct (Nat.eq_dec p i) as [->|Hne].
        + rewrite list_lookup_insert_eq by lia. split; [tauto|reflexivity].
        + rewrite list_lookup_insert_ne by exact Hne. split; [tauto|].
          intros [H | [H _]]; [exact H | contradiction].
      - split; [tauto|]. intros [H | [-> Hi]]; [exact H | lia]. }
    rewrite Hstep. tauto.
Qed.

Lemma fill_template_pulse (len : nat) (pulsesCount : Z)
    (template : list nat) (i : nat) :
  length (fill_template len pulsesCount template) = len
  /\ (pulseAt (fill_template len pulsesCount template) i = true
      <-> (i < len)%nat
          /\ In i (take (Z.to_nat pulsesCount) template)).
Proof.
  unfold fill_template.
  assert (Htake :
    take (Z.to_nat (Z.min pulsesCount (Z.of_nat (length template)))) template
    = take (Z.to_nat pulsesCount) template).
  { destruct (Z_le_dec pulsesCount (Z.of_nat (length template))) as [H|H].
    - rewrite Z.min_l by exact H. reflexivity.
    - rewrite Z.min_r by lia. rewrite Nat2Z.id.
      rewrite !take_ge by lia. reflexivity. }
  rewrite Htake.
  destruct (fill_template_step len (take (Z.to_nat pulsesCount) template)
              (repeat false len) i (repeat_length _ _)) as [Hlen Hiff].
  split; [exact Hlen|]. unfold pulseAt.
  match goal with |- default false ?o = true <-> _ =>
    assert (Ho : default false o = true <-> o = Some true)
      by (destruct o as [[|]|]; simpl; split; congruence)
  end.
  rewrite Ho, Hiff. split.
  - intros [H | [Hin Hi]]; [|tauto].
    apply list_elem_of_lookup_2, list_elem_of_In, repeat_spec in H.
    discriminate.
  - tauto.
Qed.

(** X10: a density map has one entry per slot, in every rhythm style; a
    style name that the generator does not know is treated as random.
    Random maps draw one number per slot, the others none. *)
Theorem generateDensityMap_length (len : nat) (targetDensity : Q)
    (rhythmStyle : string) (rnd : nat -> Q) (n : nat) :
  length (fst (generateDensityMap len targetDensity rhythmStyle rnd n)) = len
  /\ snd (generateDensityMap len targetDensity rhythmStyle rnd n)
     = (if bool_decide
             (In rhythmStyle ["steady"; "syncopated"; "euclidean"; "sparse"])
        then n else n + len)%nat.
Proof.
  unfold generateDensityMap.
  destruct (String.eqb rhythmStyle "steady") eqn:E1;
    [apply String.eqb_eq in E1; subst rhythmStyle; cbn [fst snd ret];
     split; [apply euclideanRhythm_length | reflexivity]|].
  destruct (String.eqb rhythmStyle "syncopated") eqn:E2;
    [apply String.eqb_eq in E2; subst rhythmStyle; cbn [fst snd ret];
     split; [apply fill_template_pulse; exact 0%nat | reflexivity]|].
  destruct (String.eqb rhythmStyle "euclidean") eqn:E3;
    [apply String.eqb_eq in E3; subst rhythmStyle; cbn [fst snd ret];
     split; [apply euclideanRhythm_length | reflexivity]|].
  destruct (String.eqb rhythmStyle "sparse") eqn:E4;
    [apply String.eqb_eq in E4; subst rhythmStyle; cbn [fst snd ret];
     split; [apply fill_template_pulse; exact 0%nat | reflexivity]|].
  apply String.eqb_neq in E1, E2, E3, E4.
  rewrite mapM_length, repeat_length. split; [reflexivity|].
  rewrite mapM_draws by reflexivity. rewrite repeat_length.
  rewrite bool_decide_eq_false_2; [reflexivity|].
  simpl. intros [H | [H | [H | [H | []]]]]; congruence.
Qed.

Lemma pulseCount_bound (pattern : list bool) :
  (pulseCount pattern <= length pattern)%nat.
Proof. unfold pulseCount. apply length_filter. Qed.

Lemma pulseCount_positive (pattern : list bool) (i : nat) :
  pulseAt pattern i = true -> (1 <= pulseCount pattern)%nat.
Proof.
  unfold pulseAt. revert i.
  induction pattern as [|b pattern IH]; intros i Hi; [discriminate|].
  change (b :: pattern) with ([b] ++ pattern). rewrite pulseCount_app.
  destruct i as [|i]; cbn in Hi.
  - subst b. change [true] with (repeat true 1).
    rewrite pulseCount_repeat_true. lia.
  - specialize (IH i Hi). lia.
Qed.

(** The pulse count of the code is at least one, whatever the rounding of
    the product gives. *)
Lemma generateDensityMap_euclidean (len : nat) (targetDensity : Q)
    (rhythmStyle : string) (rnd : nat -> Q) (n : nat) :
  rhythmStyle = "steady" \/ rhythmStyle = "euclidean" ->
  exists pulses,
    1 <= pulses
    /\ fst (generateDensityMap len targetDensity rhythmStyle rnd n)
       = euclideanRhythm len pulses.
Proof.
  intros [-> | ->]; unfold generateDensityMap; cbn [String.eqb fst ret];
    eexists; (split; [|reflexivity]); lia.
Qed.

(** X11: in the steady and the Euclidean style the density map is the
    Euclidean rhythm of the pulse count, which is at least one whatever
    the density. A Euclidean rhythm that is asked for at least one pulse
    plays as many slots as asked, or all of them when that is more than
    there are; so a map of at least one slot is never silent. *)
Theorem steady_density_pulses (len : nat) (targetDensity : Q)
    (rhythmStyle : string) (rnd : nat -> Q) (n : nat) :
  rhythmStyle = "steady" \/ rhythmStyle = "euclidean" ->
  let densityMap :=
    fst (generateDensityMap len targetDensity rhythmStyle rnd n) in
  (exists pulses,
     1 <= pulses
     /\ densityMap = euclideanRhythm len pulses
     /\ Z.of_nat (pulseCount densityMap) = Z.min pulses (Z.of_nat len))
  /\ ((0 < len)%nat -> (1 <= pulseCount densityMap <= len)%nat).
Proof.
  intros Hstyle. cbv zeta.
  destruct (generateDensityMap_euclidean len targetDensity rhythmStyle rnd n
              Hstyle) as (pulses & Hpulses & ->).
  pose proof (euclideanRhythm_count len pulses ltac:(lia)) as Hcount.
  split; [exists pulses; repeat split; assumption|].
  intros Hlen. lia.
Qed.

Lemma steady_density_pulses_witness :
  (1 <= pulseCount (fst (generateDensityMap 16 0.01 "steady" (fun _ => 0%Q)
                           0%nat)) <= 16)%nat.
Proof.
  apply (steady_density_pulses 16 0.01 "steady" (fun _ => 0%Q) 0%nat).
  - left. reflexivity.
  - lia.
Defined.

Lemma generateDensityMap_template (len : nat) (targetDensity : Q)
    (rnd : nat -> Q) (n : nat) :
  exists k,
    (1 <= k)%nat
    /\ (forall i,
          pulseAt (fst (generateDensityMap len targetDensity "sparse" rnd n))
            i = true
          <-> (i < len)%nat /\ In i (take k [0; 4; 8; 12]%nat))
    /\ (forall i,
          pulseAt (fst (generateDensityMap len targetDensity "syncopated"
                          rnd n)) i = true
          <-> (i < len)%nat /\ In i (take k [1; 3; 6; 9; 11; 13]%nat)).
Proof.
  unfold generateDensityMap. cbn [String.eqb fst ret].
  set (pulses := Z.max 1 _).
  exists (Z.to_nat pulses).
  split; [unfold pulses; lia|].
  split; intros i; apply fill_template_pulse.
Qed.

(** X12: the two template styles. A sparse density map plays a first part,
    of at least one, of the slots 0, 4, 8, 12 that exist, so it always
    plays slot 0; a syncopated map plays the first part of the same size
    of the slots 1, 3, 6, 9, 11, 13 that exist, so its slot 0 is never
    played, a map of one slot is silent, and slot 1 is played whenever it
    exists. Nothing here depends on how the pulse count was rounded. *)
Theorem template_density_positions (len : nat) (targetDensity : Q)
    (rnd : nat -> Q) (n : nat) :
  let sparse := fst (generateDensityMap len targetDensity "sparse" rnd n) in
  let syncopated :=
    fst (generateDensityMap len targetDensity "syncopated" rnd n) in
  (exists k,
     (1 <= k)%nat
     /\ (forall i, pulseAt sparse i = true
                   <-> (i < len)%nat /\ In i (take k [0; 4; 8; 12]%nat))
     /\ (forall i, pulseAt syncopated i = true
                   <-> (i < len)%nat
                       /\ In i (take k [1; 3; 6; 9; 11; 13]%nat)))
  /\ ((0 < len)%nat -> pulseAt sparse 0 = true)
  /\ pulseAt syncopated 0 = false
  /\ ((1 < len)%nat -> pulseAt syncopated 1 = true).
Proof.
  cbv zeta.
  destruct (generateDensityMap_template len targetDensity rnd n)
    as (k & Hk & Hsparse & Hsync).
  split; [exists k; split; [exact Hk|]; split; assumption|].
  destruct k as [|k]; [lia|].
  split; [|split].
  - intros Hlen. apply Hsparse. split; [exact Hlen | left; reflexivity].
  - apply not_true_is_false. intros H. apply Hsync in H as [_ H].
    apply list_elem_of_In, subseteq_take in H.
    apply list_elem_of_In in H. simpl in H. lia.
  - intros Hlen. apply Hsync. split; [exact Hlen | left; reflexivity].
Qed.

Lemma tabulate_length {T} (n : nat) (f : Z -> T) :
  length (tabulate n f) = n.
Proof. unfold tabulate. rewrite length_map. apply length_seq. Qed.

(** X13: the phrase map has one entry per slot in every structure except
    AABA. The AABA map is cut from four sections of [max(2, slots / 4)]
    entries: it is complete up to seven slots, and from eight slots on it
    has [4 * (slots / 4)] entries, fewer than the slots whenever their
    number is no multiple of four. *)
Theorem generatePhraseStructure_length (type : string) (slots : nat) :
  length (generatePhraseStructure type slots)
  = if String.eqb type "AABA"
    then (if (slots <? 8)%nat then slots else 4 * (slots / 4))%nat
    else slots.
Proof.
  unfold generatePhraseStructure.
  destruct (String.eqb type "AABA").
  - cbv zeta. rewrite length_take. cbn [concat].
    rewrite !length_app, !tabulate_length. cbn [length].
    pose proof (Nat.div_mod_eq slots 4) as Hdiv.
    pose proof (Nat.mod_upper_bound slots 4) as Hmod.
    assert (Hz : Z.of_nat slots / 4 = Z.of_nat (slots / 4))
      by (rewrite (Nat2Z.inj_div slots 4); reflexivity).
    rewrite Hz.
    destruct (Nat.ltb_spec slots 8) as [Hs|Hs]; lia.
  - destruct (String.eqb type "ABAB"); [apply tabulate_length|].
    destruct (String.eqb type "ABAC"); [apply tabulate_length|].
    destruct (String.eqb type "question-answer"); apply tabulate_length.
Qed.

End DensityFacts.

(** ** The weighted selection on usable inputs *)

Section SelectionTableFacts.
Import Generator.

Lemma weightedWalk_NaN (entries : list (Z * num)) :
  weightedWalk entries NaN = 1.
Proof.
  induction entries as [|[d w] entries IH]; [reflexivity|]. exact IH.
Qed.

Lemma selectChordForTension_NaN (prev second : option Z) (creativity : Q)
    (rnd : nat -> Q) (n : nat) :
  fst (selectChordForTension NaN prev second creativity rnd n) = 1.
Proof.
  rewrite selectChordForTension_walk.
  pose proof (selectionWeights_NaN prev second creativity rnd n) as HN.
  destruct (fst (selectionWeights NaN prev second creativity rnd n))
    as [|e weights]; [reflexivity|].
  rewrite (totalWeight_NaN e weights HN). apply weightedWalk_NaN.
Qed.

(** X14: without a usable target tension the selection ignores the
    transition tables: when the target is [NaN], as on the single-slot
    curves, every weight and the draw are [NaN], no comparison succeeds,
    and the fallback returns the tonic, whatever was played before. *)
Theorem selection_without_tension (prev second : option Z) (creativity : Q)
    (rnd : nat -> Q) (n : nat) :
  fst (selectChordForTension NaN prev second creativity rnd n) = 1.
Proof. apply selectChordForTension_NaN. Qed.

Lemma scaled_scale (b w : Z * num) (f : Q) :
  scaled b w -> (1 <= f)%Q -> scaled b (fst w, (snd w * Fin f)%num).
Proof.
  intros (Hk & qb & qw & Hb & Hw & H0 & Hle & Hpos) Hf.
  split; [exact Hk|].
  exists qb, (qw * f)%Q. rewrite Hw. cbn [snd nmul].
  repeat split; try assumption; [nra|].
  intros Hq. apply Hpos.
  destruct (Qlt_le_dec 0 qw) as [H|H]; [exact H|]. exfalso. nra.
Qed.

Lemma sound_entry_scaled (e : Z * num) : sound_entry e = true -> scaled e e.
Proof.
  unfold sound_entry. intros H. apply andb_true_iff in H as [_ H].
  destruct (snd e) as [q| |] eqn:E; try discriminate.
  apply Qle_bool_iff in H. split; [reflexivity|].
  exists q, q. repeat split; try assumption; [lra | tauto].
Qed.

Lemma tensionWeights_scaled (t : Q) (weights : obj num) :
  (0 <= t <= 1)%Q ->
  forallb sound_entry weights = true ->
  Forall2 scaled weights (tensionWeights (Fin t) weights).
Proof.
  intros Ht H. rewrite forallb_forall in H. unfold tensionWeights.
  induction weights as [|e weights IH]; cbn [map]; constructor.
  - assert (He : sound_entry e = true) by (apply H; left; reflexivity).
    pose proof (sound_entry_scaled e He) as Hg.
    unfold sound_entry in He. apply andb_true_iff in He as [He _].
    apply andb_true_iff in He as [H1 H7].
    destruct (CHORD_TENSION_MAP_range (fst e)) as (c & -> & Hc); [lia|].
    cbn [to_num nsub nadd nopp nabs nmul]. apply scaled_scale; [exact Hg|].
    assert (Habs : (Qabs (t + - c) <= 1)%Q)
      by (apply Qabs_Qle_condition; split; lra).
    lra.
  - apply IH. intros e' He'. apply H. right. exact He'.
Qed.

Lemma creativityWeights_scaled creativity (weights : obj num) rnd n :
  unit_draws rnd ->
  Forall2 (fun w w' => forall b, scaled b w -> scaled b w') weights
    (fst (creativityWeights creativity weights rnd n)).
Proof.
  intros Hrnd. unfold creativityWeights.
  destruct (Qltb 0 creativity) eqn:Hc.
  - apply mapM_Forall2. intros e m _ b Hb.
    unfold bind, ret, Math_random. cbn [fst snd].
    apply Qltb_lt in Hc.
    destruct (Hrnd m) as [Hr0 _].
    assert (Hboost : (1 <= 1 + rnd m * creativity * 0.5)%Q) by nra.
    pose proof (scaled_scale b e _ Hb Hboost) as Hg.
    destruct ((fst e =? 3) || (fst e =? 7)); [|exact Hg].
    apply (scaled_scale b _ (1 + creativity)%Q Hg). lra.
  - clear Hc. induction weights as [|e weights IH]; constructor; auto.
Qed.

Lemma selectionWeights_scaled (t : Q) prev second creativity rnd n :
  (0 <= t <= 1)%Q -> unit_draws rnd ->
  Forall2 scaled (baseWeights prev second)
    (fst (selectionWeights (Fin t) prev second creativity rnd n)).
Proof.
  intros Ht Hrnd. unfold selectionWeights.
  pose proof (baseWeights_sound prev second) as Hsound.
  unfold sound_row in Hsound. apply andb_true_iff in Hsound as [Hs _].
  pose proof (tensionWeights_scaled t _ Ht Hs) as H12.
  pose proof (creativityWeights_scaled creativity
                (tensionWeights (Fin t) (baseWeights prev second)) rnd n
                Hrnd) as H23.
  revert H12 H23.
  generalize (fst (creativityWeights creativity
                     (tensionWeights (Fin t) (baseWeights prev second))
                     rnd n)).
  generalize (tensionWeights (Fin t) (baseWeights prev second)).
  generalize (baseWeights prev second).
  intros l1 l2 l3 H12. revert l3.
  induction H12 as [|a b l1 l2 Hab _ IH]; intros l3 H23;
    inversion H23; subst; constructor; auto.
Qed.

Lemma scaled_sum (base weights : obj num) :
  Forall2 scaled base weights ->
  Forall (fun e => exists q, snd e = Fin q /\ (0 <= q)%Q) weights
  /\ (weightSum base <= weightSum weights)%Q.
Proof.
  induction 1 as [|b w base weights Hbw _ [IHf IHs]]; simpl.
  - split; [constructor | lra].
  - destruct Hbw as (_ & qb & qw & Hb & Hw & H0 & Hle & _).
    rewrite Hb, Hw. split; [|lra].
    constructor; [|exact IHf]. exists qw. split; [exact Hw | lra].
Qed.

Lemma totalWeight_weightSum (weights : obj num) (acc : Q) :
  Forall (fun e => exists q, snd e = Fin q /\ (0 <= q)%Q) weights ->
  exists q,
    fold_left nadd (map snd weights) (Fin acc) = Fin q
    /\ (q == acc + weightSum weights)%Q.
Proof.
  intros H. revert acc.
  induction H as [|e weights (qe & He & _) _ IH]; intros acc; simpl.
  - exists acc. split; [reflexivity | lra].
  - rewrite He. cbn [nadd].
    destruct (IH (acc + qe)%Q) as (q & -> & Hq).
    exists q. split; [reflexivity | lra].
Qed.

(** A draw strictly inside the total weight stops the walk at an entry
    with a positive weight. *)
Lemma weightedWalk_positive (entries : list (Z * num)) (x : Q) :
  Forall (fun e => exists q, snd e = Fin q /\ (0 <= q)%Q) entries ->
  (0 <= x)%Q -> (x < weightSum entries)%Q ->
  (0 < x)%Q \/ first_positive entries = true ->
  exists q, In (weightedWalk entries (Fin x), Fin q) entries /\ (0 < q)%Q.
Proof.
  intros H. revert x.
  induction H as [|[d w] entries (q & Hq & Hq0) _ IH]; intros x Hx0 Hx Hfirst.
  - simpl in Hx. lra.
  - cbn [snd] in Hq. subst w. simpl in Hx.
    cbn [weightedWalk nsub nadd nopp nleb].
    destruct (Qle_bool (x + - q) 0) eqn:E.
    + apply Qle_bool_iff in E. exists q. split; [left; reflexivity|].
      destruct Hfirst as [Hpos | Hpos]; [lra|].
      cbn [first_positive] in Hpos. apply Qltb_lt, Hpos.
    + apply Qle_bool_false in E.
      destruct (IH (x + - q)%Q) as (q' & Hin & Hq'); [lra | lra | left; lra|].
      exists q'. split; [right; exact Hin | exact Hq'].
Qed.

Lemma baseWeights_first_positive (prev second : option Z) :
  first_positive (baseWeights prev second) = true.
Proof.
  destruct (baseWeights_row prev second) as [-> | (row & Hin & ->)].
  - reflexivity.
  - revert row Hin.
    assert (H : forallb (fun row => first_positive (copyRow row))
                  transitionRows = true) by (vm_compute; reflexivity).
    rewrite forallb_forall in H. exact H.
Qed.

Lemma Forall2_In_r {A B} (R : A -> B -> Prop) (l1 : list A) (l2 : list B)
    (y : B) :
  Forall2 R l1 l2 -> In y l2 -> exists x, In x l1 /\ R x y.
Proof.
  induction 1 as [|a b l1 l2 Hab _ IH]; intros Hy; [destruct Hy|].
  destruct Hy as [<- | Hy].
  - exists a. split; [left; reflexivity | exact Hab].
  - destruct (IH Hy) as (x & Hx & HR). exists x. split; [right|]; assumption.
Qed.

Lemma baseWeights_after_seven (second : option Z) :
  baseWeights (Some 7) second
  = copyRow (default [] (obj_get 7 MARKOV_1ST_ORDER)).
Proof.
  unfold baseWeights. destruct second as [s|]; [|reflexivity].
  cbn [mbind option_bind MARKOV_2ND_ORDER lookup_pattern]. unfold pattern_eqb.
  cbn [fst snd Z.eqb Pos.eqb]. rewrite !andb_false_r. reflexivity.
Qed.

Lemma selection_positive (t : Q) (prev second : option Z) (creativity : Q)
    (rnd : nat -> Q) (n : nat) :
  (0 <= t <= 1)%Q -> unit_draws rnd ->
  baseWeights prev second <> [] ->
  exists p,
    In (fst (selectChordForTension (Fin t) prev second creativity rnd n),
        Fin p) (baseWeights prev second) /\ (0 < p)%Q.
Proof.
  intros Ht Hrnd Hrow.
  rewrite selectChordForTension_walk.
  pose proof (selectionWeights_scaled t prev second creativity rnd n Ht Hrnd)
    as Hscaled.
  set (sel := selectionWeights (Fin t) prev second creativity rnd n) in *.
  destruct (scaled_sum _ _ Hscaled) as [Hfin Hsum].
  destruct (totalWeight_weightSum (fst sel) 0 Hfin) as (T & HT & HTsum).
  unfold totalWeight. rewrite HT. cbn [nmul].
  pose proof (baseWeights_sound prev second) as Hsound.
  pose proof (baseWeights_first_positive prev second) as Hfirst.
  unfold sound_row in Hsound. apply andb_true_iff in Hsound as [_ Hpos].
  assert (Hbase : (0 < weightSum (baseWeights prev second))%Q).
  { destruct (baseWeights prev second); [contradiction|].
    apply Qltb_lt, Hpos. }
  destruct (Hrnd (snd sel)) as [Hr0 Hr1].
  destruct (weightedWalk_positive (fst sel) (rnd (snd sel) * T)%Q Hfin)
    as (q & Hin & Hq).
  - nra.
  - nra.
  - right. inversion Hscaled as [Hb Hw | b w base weights Hbw Hrest Hb Hw].
    + rewrite <- Hb in Hrow. contradiction.
    + rewrite <- Hb in Hfirst. cbn [first_positive] in Hfirst |- *.
      destruct Hbw as (_ & qb & qw & Eb & Ew & H0 & Hle & _).
      destruct b as [kb vb], w as [kw vw]. cbn [snd] in Eb, Ew. subst vb vw.
      apply Qltb_lt in Hfirst. apply Qltb_lt. lra.
  - destruct (Forall2_In_r _ _ _ _ Hscaled Hin)
      as ([kb vb] & Hb & Hk & qb & qw & Eb & Ew & H0 & Hle & Hpos').
    cbn [fst snd] in Hk, Eb, Ew. injection Ew as Ew. subst vb.
    exists qb. split; [rewrite Hk; exact Hb|]. apply Hpos'.
    rewrite <- Ew. exact Hq.
Qed.

Lemma selection_after_seven (t : Q) (second : option Z) (creativity : Q)
    (rnd : nat -> Q) (n : nat) :
  (0 <= t <= 1)%Q -> unit_draws rnd ->
  fst (selectChordForTension (Fin t) (Some 7) second creativity rnd n) <> 7.
Proof.
  intros Ht Hrnd Hseven.
  destruct (selection_positive t (Some 7) second creativity rnd n Ht Hrnd)
    as (p & Hin & Hp).
  { rewrite baseWeights_after_seven. discriminate. }
  rewrite Hseven, baseWeights_after_seven in Hin.
  vm_compute in Hin.
  repeat (destruct Hin as [Hin | Hin];
          [try (injection Hin as Hz _; discriminate Hz)|]);
    try contradiction.
  injection Hin as Hzero. subst p. unfold Qlt in Hp. simpl in Hp. lia.
Qed.

(** X15: on usable inputs the selection follows the transition tables.
    With a target tension in the unit interval and draws in [0,1), the
    selected degree is the tonic, which is what the walk falls back to, or
    a degree with a positive probability in the row the selection started
    from: a transition that the tables give the probability zero is never
    selected. The seventh degree is therefore never followed by itself. *)
Theorem selection_follows_table (targetTension : num)
    (prev second : option Z) (creativity : Q) (rnd : nat -> Q) (n : nat) :
  unitTension targetTension -> unit_draws rnd ->
  let chosen :=
    fst (selectChordForTension targetTension prev second creativity rnd n) in
  (chosen = 1
   \/ exists p, In (chosen, Fin p) (baseWeights prev second) /\ (0 < p)%Q)
  /\ (prev = Some 7 -> chosen <> 7).
Proof.
  intros (t & -> & Ht) Hrnd. cbv zeta. split.
  - destruct (baseWeights prev second) as [|b base] eqn:Hbase.
    + left. rewrite selectChordForTension_walk.
      pose proof (selectionWeights_length (Fin t) prev second creativity
                    rnd n) as Hlen.
      rewrite Hbase in Hlen.
      destruct (fst (selectionWeights (Fin t) prev second creativity rnd n));
        [reflexivity | discriminate Hlen].
    + right. rewrite <- Hbase. apply selection_positive; try assumption.
      rewrite Hbase. discriminate.
  - intros ->. apply selection_after_seven; assumption.
Qed.

Lemma selection_follows_table_witness :
  fst (selectChordForTension (Fin 0.5) (Some 7) (Some 5) 0.3
         (fun _ => 0.99%Q) 0%nat) <> 7.
Proof.
  apply (proj2 (selection_follows_table (Fin 0.5) (Some 7) (Some 5) 0.3
                  (fun _ => 0.99%Q) 0%nat
                  ltac:(exists 0.5%Q; split; [reflexivity | lra])
                  ltac:(intros i; lra))).
  reflexivity.
Defined.

End SelectionTableFacts.

(** ** The shape of a generated progression *)

Section ProgressionFacts.
Import Generator.

Variable Math_sin : Q -> Q.
Variable Math_PI : Q.

Lemma foldM_seq_invariant {S} (I : nat -> S -> Prop)
    (f : S -> nat -> Rand S) (rnd : nat -> Q) (k : nat) :
  forall a s n,
    (forall i s m, (a <= i < a + k)%nat -> I i s ->
                   I (Datatypes.S i) (fst (f s i rnd m))) ->
    I a s -> I (a + k)%nat (fst (foldM f (seq a k) s rnd n)).
Proof.
  induction k as [|k IH]; intros a s n Hf Hs.
  - rewrite Nat.add_0_r. exact Hs.
  - cbn [seq foldM]. unfold bind.
    replace (a + Datatypes.S k)%nat with (Datatypes.S a + k)%nat by lia.
    apply IH.
    + intros i s' m Hi. apply Hf. lia.
    + apply Hf; [lia | exact Hs].
Qed.

Lemma clamp_range (lo hi x : Q) :
  (lo <= hi)%Q ->
  exists q, nmax (Fin lo) (nmin (Fin hi) (Fin x)) = Fin q
            /\ (lo <= q <= hi)%Q.
Proof.
  intros Hle. unfold nmin, nmax, nleb.
  destruct (Qle_bool hi x) eqn:E1.
  - destruct (Qle_bool lo hi) eqn:E2.
    + exists hi. split; [reflexivity | lra].
    + apply Qle_bool_false in E2. lra.
  - apply Qle_bool_false in E1.
    destruct (Qle_bool lo x) eqn:E0.
    + apply Qle_bool_iff in E0. exists x. split; [reflexivity | lra].
    + exists lo. split; [reflexivity | lra].
Qed.

Lemma velocity_audible (baseVelocity randomVariation : Q)
    (targetTension : num) :
  audible targetTension
    (nmax (Fin 0.5%Q)
       (nmin (Fin 1.0%Q)
          (Fin baseVelocity + targetTension * Fin 0.15%Q
           + Fin randomVariation)%num)).
Proof.
  destruct targetTension as [t|[|]|].
  - left. cbn [nmul nadd].
    destruct (clamp_range 0.5 1.0 (baseVelocity + t * 0.15 + randomVariation))
      as (q & -> & Hq); [lra|].
    exists q. split; [reflexivity | lra].
  - left. exists 0.5%Q. split; [reflexivity | lra].
  - left. exists 1.0%Q. split; [reflexivity | lra].
  - right. split; reflexivity.
Qed.

Lemma duration_cases (extend : bool) (rnd : nat -> Q) (m : nat) :
  let duration :=
    fst ((if extend
          then let* r := Math_random in ret (if Qltb r 0.5 then 2 else 1)
          else ret 1) rnd m) in
  duration = 1 \/ (duration = 2 /\ extend = true).
Proof.
  cbv zeta. destruct extend; [|left; reflexivity].
  unfold bind, ret, Math_random. cbn [fst snd].
  destruct (Qltb (rnd m) 0.5); [right; split|left]; reflexivity.
Qed.

Lemma swing_range (rhythmicStyle : string) (isOffbeat : bool)
    (rnd : nat -> Q) (m : nat) :
  unit_draws rnd ->
  exists q,
    fst ((if String.eqb rhythmicStyle "syncopated"
          then ret (if isOffbeat then Fin 0.15%Q else Fin 0)
          else if String.eqb rhythmicStyle "random"
          then let* r := Math_random in ret (Fin ((r - 0.5) * 0.2)%Q)
          else ret (Fin 0)) rnd m) = Fin q
    /\ (- (0.1) <= q <= 0.15)%Q.
Proof.
  intros Hrnd. destruct (Hrnd m) as [H0 H1].
  destruct (String.eqb rhythmicStyle "syncopated").
  - destruct isOffbeat; eexists; (split; [reflexivity | lra]).
  - destruct (String.eqb rhythmicStyle "random").
    + unfold bind, ret, Math_random. cbn [fst snd].
      eexists. split; [reflexivity | lra].
    + eexists. split; [reflexivity | lra].
Qed.

Lemma stagger_range (rhythmicStyle : string) (rnd : nat -> Q) (m : nat) :
  unit_draws rnd ->
  exists q,
    fst ((if String.eqb rhythmicStyle "steady" then ret (Fin 0.3%Q)
          else if String.eqb rhythmicStyle "syncopated"
                  || String.eqb rhythmicStyle "euclidean"
          then ret (Fin 0.6%Q)
          else if String.eqb rhythmicStyle "sparse" then ret (Fin 0.4%Q)
          else if String.eqb rhythmicStyle "random"
          then let* r := Math_random in ret (Fin (0.2 + r * 0.6)%Q)
          else ret (Fin 0.5%Q)) rnd m) = Fin q
    /\ (0.2 <= q <= 0.8)%Q.
Proof.
  intros Hrnd. destruct (Hrnd m) as [H0 H1].
  destruct (String.eqb rhythmicStyle "steady");
    [eexists; split; [reflexivity | lra]|].
  destruct (_ || _); [eexists; split; [reflexivity | lra]|].
  destruct (String.eqb rhythmicStyle "sparse");
    [eexists; split; [reflexivity | lra]|].
  destruct (String.eqb rhythmicStyle "random").
  - unfold bind, ret, Math_random. cbn [fst snd].
    eexists. split; [reflexivity | lra].
  - eexists. split; [reflexivity | lra].
Qed.

Lemma selectionWeights_keys t prev second creativity rnd n :
  map fst (fst (selectionWeights t prev second creativity rnd n))
  = map fst (baseWeights prev second).
Proof.
  unfold selectionWeights.
  assert (Ht : map fst (tensionWeights t (baseWeights prev second))
               = map fst (baseWeights prev second)).
  { unfold tensionWeights. rewrite map_map. reflexivity. }
  rewrite <- Ht. unfold creativityWeights.
  destruct (Qltb 0 creativity); [|reflexivity].
  apply mapM_map. reflexivity.
Qed.

(** With no chord played yet the selection opens on I, IV or V. *)
Lemma selectChordForTension_start t second creativity rnd n :
  In (fst (selectChordForTension t None second creativity rnd n)) [1; 4; 5].
Proof.
  rewrite selectChordForTension_walk.
  destruct (weightedWalk_key
              (fst (selectionWeights t None second creativity rnd n))
              (Fin (rnd (snd (selectionWeights t None second creativity
                                rnd n)))
               * totalWeight
                   (fst (selectionWeights t None second creativity rnd n)))
              %num) as [-> | Hin].
  - left. reflexivity.
  - rewrite selectionWeights_keys in Hin. exact Hin.
Qed.

Lemma generateSlot_pushes config tensionValues densityMap st i rnd n :
  let st' := fst (generateSlot config tensionValues densityMap st i rnd n) in
  exists s,
    store st' = push s (store st)
    /\ previousChord st'
       = match degree s with
         | Some d => Some d
         | None => previousChord st
         end
    /\ slotShape (slots config) tensionValues densityMap i s
    /\ (unit_draws rnd -> degree s <> None -> inStyle s)
    /\ (previousChord st = None ->
        forall d, degree s = Some d -> In d [1; 4; 5])
    /\ (unit_draws rnd -> curveTension (default NaN (tensionValues !! i)) ->
        previousChord st = Some 7 -> degree s <> Some 7).
Proof.
  cbv zeta. unfold generateSlot, slotShape, pulseAt.
  destruct (default false (densityMap !! i)) eqn:Hpulse; cbn [negb].
  - unfold bind at 1.
    set (chosen := fst (selectChordForTension _ _ _ _ rnd n)).
    set (m := snd (selectChordForTension _ _ _ _ rnd n)).
    pose proof (selectChordForTension_range
                  (default NaN (tensionValues !! i)) (previousChord st)
                  (secondPreviousChord st) (creativity config) rnd n)
      as Hrange.
    fold chosen in Hrange.
    unfold bind at 1. unfold Math_random at 1. cbn [fst snd].
    unfold bind at 1.
    match goal with
    | |- context [fst ((if ?c then _ else ret 1) rnd ?k)] =>
        pose proof (duration_cases c rnd k) as Hduration;
        cbv zeta in Hduration
    end.
    unfold bind at 2. unfold bind at 2. unfold ret at 4. cbn [fst store
      previousChord].
    eexists. split; [reflexivity|]. cbn [degree position tension velocity
      duration swing stagger].
    split; [reflexivity|]. split; [|split; [|split]].
    + split; [reflexivity|]. split; [|split; [|split]].
      * exists chosen. split; [reflexivity | exact Hrange].
      * destruct (CHORD_TENSION_MAP_range chosen Hrange) as (c & -> & Hc).
        exists c. split; [reflexivity | exact Hc].
      * apply velocity_audible.
      * destruct Hduration as [H1 | [H2 Hc]]; [left; exact H1|].
        right. split; [exact H2|].
        apply andb_true_iff in Hc as [Hlt Hnext].
        apply Z.ltb_lt in Hlt. apply negb_true_iff in Hnext.
        rewrite Nat.add_1_r in Hnext. split; [exact Hnext | lia].
    + intros Hrnd _. split.
      * apply swing_range, Hrnd.
      * apply stagger_range, Hrnd.
    + intros Hnone d Hd. injection Hd as <-. unfold chosen.
      rewrite Hnone. apply selectChordForTension_start.
    + intros Hrnd Ht Hseven Hd. injection Hd as Hd. unfold chosen in Hd.
      rewrite Hseven in Hd.
      destruct (default NaN (tensionValues !! i)) as [t| |].
      * revert Hd. apply selection_after_seven; assumption.
      * contradiction.
      * rewrite selectChordForTension_NaN in Hd. discriminate.
  - unfold ret. cbn [fst store previousChord].
    eexists. split; [reflexivity|]. cbn [degree position tension velocity
      duration swing stagger].
    split; [reflexivity|]. split; [|split; [|split]].
    + split; [reflexivity|]. split; [|reflexivity].
      repeat split; reflexivity.
    + intros _ H. contradiction.
    + intros _ d Hd. discriminate.
    + intros _ _ _ Hd. discriminate.
Qed.

(** The main loop: slot by slot, the heap grows by the slot for position
    [i], and the previous chord is the last chord written. *)
Lemma progressionLoop_shape config rnd n :
  let curve :=
    generateTensionCurve Math_sin Math_PI (slots config) (tensionCurve config)
      rnd n in
  let density :=
    generateDensityMap (slots config) (density config) (rhythmicStyle config)
      rnd (snd curve) in
  let st := fst (progressionLoop Math_sin Math_PI config rnd n) in
  length (heap st) = slots config
  /\ (forall j s, heap st !! j = Some s ->
        slotShape (slots config) (fst curve) (fst density) j s
        /\ (unit_draws rnd -> degree s <> None -> inStyle s))
  /\ In (firstChord (heap st)) [None; Some 1; Some 4; Some 5].
Proof.
  cbv zeta. unfold progressionLoop, bind, ret. cbn [fst].
  set (curve := generateTensionCurve Math_sin Math_PI (slots config)
                  (tensionCurve config) rnd n).
  set (dens := generateDensityMap (slots config) (density config)
                 (rhythmicStyle config) rnd (snd curve)).
  pose proof (foldM_seq_invariant
    (fun i st =>
       length (heap (store st)) = i
       /\ (forall j s, heap (store st) !! j = Some s ->
             slotShape (slots config) (fst curve) (fst dens) j s
             /\ (unit_draws rnd -> degree s <> None -> inStyle s))
       /\ previousChord st = last (omap degree (heap (store st)))
       /\ In (firstChord (heap (store st))) [None; Some 1; Some 4; Some 5])
    (generateSlot config (fst curve) (fst dens)) rnd (slots config) 0%nat
    {| store := {| heap := []; result := [] |};
       previousChord := None; secondPreviousChord := None |}
    (snd dens)) as Hloop.
  cbn [Nat.add] in Hloop.
  destruct Hloop as (Hlen & Hslots & _ & Hfirst).
  - intros i st m _ (Hlen & Hslots & Hprev & Hfirst).
    destruct (generateSlot_pushes config (fst curve) (fst dens) st i rnd m)
      as (slot & Hstore & Hprev' & Hshape & Hstyle & Hstart & _).
    cbv zeta in Hstore, Hprev'. rewrite Hstore, Hprev'.
    unfold push. cbn [heap].
    split; [rewrite length_app; simpl; lia|].
    split; [|split].
    + intros j s Hj. apply lookup_app_Some in Hj as [Hj | [Hge Hj]].
      * apply Hslots, Hj.
      * apply list_lookup_singleton_Some in Hj as [Hj0 <-].
        assert (j = i) as -> by lia. split; assumption.
    + rewrite omap_app. cbn [omap list_omap].
      destruct (degree slot) as [d|].
      * cbn. rewrite last_snoc. reflexivity.
      * cbn. rewrite app_nil_r. exact Hprev.
    + unfold firstChord in *. rewrite omap_app.
      destruct (omap degree (heap (store st))) as [|d0 l] eqn:E.
      * cbn [app omap list_omap].
        destruct (degree slot) as [d|] eqn:Ed; [|left; reflexivity].
        cbn. specialize (Hstart Hprev d eq_refl).
        simpl in Hstart. simpl. intuition (subst; auto).
      * exact Hfirst.
  - cbn. split; [reflexivity|]. split; [|split].
    + intros j s Hj. rewrite lookup_nil in Hj. discriminate.
    + reflexivity.
    + left. reflexivity.
  - split; [exact Hlen|]. split; [exact Hslots | exact Hfirst].
Qed.

(** The ending pass leaves the heap alone or sets the degree of one slot
    that holds a chord. *)
Lemma resolveEnding_cases (st : Store) (rnd : nat -> Q) (k : nat) :
  heap (fst (resolveEnding st rnd k)) = heap st
  \/ exists ref sr,
       heap st !! ref = Some sr /\ degree sr <> None
       /\ heap (fst (resolveEnding st rnd k))
          = alter (set_degree (Some 1)) ref (heap st).
Proof.
  unfold resolveEnding.
  destruct (List.find _ _) as [ref|] eqn:Hfind; [|left; reflexivity].
  apply find_some in Hfind as [_ Hp].
  destruct (heap st !! ref) as [sr|] eqn:Hsr; [|discriminate].
  apply bool_decide_eq_true in Hp.
  destruct (_ && _); [|left; reflexivity].
  unfold bind, Math_random, ret. cbn [fst snd].
  destruct (Qltb _ _); cbn [fst heap]; [|left; reflexivity].
  right. exists ref, sr. repeat split; assumption.
Qed.

Lemma slotShape_resolved slotCount tensionValues densityMap i s :
  slotShape slotCount tensionValues densityMap i s ->
  degree s <> None ->
  slotShape slotCount tensionValues densityMap i (set_degree (Some 1) s).
Proof.
  unfold slotShape. intros [Hpos Hshape] Hdeg. split; [exact Hpos|].
  destruct (pulseAt densityMap i).
  - destruct Hshape as (_ & Ht & Hv & Hd). cbn [set_degree tension velocity
      duration degree].
    split; [exists 1; split; [reflexivity | lia]|].
    split; [exact Ht|]. split; [exact Hv | exact Hd].
  - destruct Hshape as [(Hnone & _) _]. contradiction.
Qed.

Lemma progression_slots config key rnd n :
  let curve :=
    generateTensionCurve Math_sin Math_PI (slots config) (tensionCurve config)
      rnd n in
  let density :=
    generateDensityMap (slots config) (density config) (rhythmicStyle config)
      rnd (snd curve) in
  let out :=
    fst (generateProceduralProgression Math_sin Math_PI config key rnd n) in
  length out = slots config
  /\ forall i s, out !! i = Some s ->
       slotShape (slots config) (fst curve) (fst density) i s
       /\ (unit_draws rnd -> degree s <> None -> inStyle s).
Proof.
  cbv zeta.
  pose proof (progressionLoop_arrayOfHeap Math_sin Math_PI config rnd n)
    as Hwf.
  destruct (progressionLoop_shape config rnd n) as (Hlen & Hslots & _).
  cbv zeta in Hlen, Hslots.
  set (loop := progressionLoop Math_sin Math_PI config rnd n) in *.
  destruct (resolveEnding_spec (fst loop) rnd (snd loop) Hwf) as [Hwf' _].
  assert (Hafter :
    fst (generateProceduralProgression Math_sin Math_PI config key rnd n)
    = heap (fst (resolveEnding (fst loop) rnd (snd loop)))).
  { unfold generateProceduralProgression, bind, ret. cbn [fst].
    apply readSlots_arrayOfHeap, Hwf'. }
  rewrite Hafter. split; [rewrite resolveEnding_length; exact Hlen|].
  intros i s Hs.
  destruct (resolveEnding_cases (fst loop) rnd (snd loop))
    as [Hsame | (ref & sr & Hsr & Hdeg & Halter)].
  - rewrite Hsame in Hs. apply Hslots, Hs.
  - rewrite Halter in Hs.
    destruct (Nat.eq_dec ref i) as [-> | Hne].
    + rewrite list_lookup_alter_eq, Hsr in Hs. injection Hs as <-.
      destruct (Hslots i sr Hsr) as [Hshape Hstyle].
      split; [apply slotShape_resolved; assumption|].
      intros Hrnd _. apply (Hstyle Hrnd Hdeg).
    + rewrite list_lookup_alter_ne in Hs by exact Hne. apply Hslots, Hs.
Qed.

(** X16: the shape of a generated progression. It has one slot per
    configured slot, and slot [i] carries the position [i]. Where the
    density map has no pulse the slot is a rest: no degree, velocity 0,
    duration 1, no swing or stagger, and the tension of the curve. Where
    it has a pulse the slot holds a degree in 1..7, a tension in the unit
    interval and a velocity between 0.5 and 1 (or [NaN] where the curve
    is), and lasts one or two slots; a chord of two slots is always
    followed by a rest. *)
Theorem progression_shape (config : GenerationConfig) (key : Chords.Key)
    (rnd : nat -> Q) (n : nat) :
  let curve :=
    generateTensionCurve Math_sin Math_PI (slots config) (tensionCurve config)
      rnd n in
  let density :=
    generateDensityMap (slots config) (density config) (rhythmicStyle config)
      rnd (snd curve) in
  let out :=
    fst (generateProceduralProgression Math_sin Math_PI config key rnd n) in
  length out = slots config
  /\ forall i s, out !! i = Some s ->
       slotShape (slots config) (fst curve) (fst density) i s
       /\ (duration s = 2 -> exists r, out !! S i = Some r /\ isRest r).
Proof.
  cbv zeta. destruct (progression_slots config key rnd n) as [Hlen Hslots].
  cbv zeta in Hlen, Hslots. split; [exact Hlen|].
  intros i s Hs. destruct (Hslots i s Hs) as [Hshape _].
  split; [exact Hshape|]. intros Hd.
  destruct Hshape as [_ Hshape].
  destruct (pulseAt _ i).
  - destruct Hshape as (_ & _ & _ & [H1 | (_ & Hnext & Hlt)]); [lia|].
    rewrite <- Hlen in Hlt. apply lookup_lt_is_Some_2 in Hlt as [r Hr].
    exists r. split; [exact Hr|].
    destruct (Hslots _ r Hr) as [[_ Hr'] _]. rewrite Hnext in Hr'.
    apply Hr'.
  - destruct Hshape as [(_ & _ & H1 & _) _]. lia.
Qed.

(** X17: swing and stagger. With draws in [0,1), every chord of a
    progression has a swing between -0.1 and 0.15 and an arpeggio stagger
    between 0.2 and 0.8, in every rhythmic style, known or not. *)
Theorem chord_slots_in_style (config : GenerationConfig) (key : Chords.Key)
    (rnd : nat -> Q) (n : nat) :
  unit_draws rnd ->
  Forall (fun s => degree s <> None -> inStyle s)
    (fst (generateProceduralProgression Math_sin Math_PI config key rnd n)).
Proof.
  intros Hrnd. apply Forall_forall. intros s Hs.
  apply list_elem_of_lookup_1 in Hs as [i Hi].
  destruct (progression_slots config key rnd n) as [_ Hslots].
  apply (Hslots i s Hi), Hrnd.
Qed.

Lemma count_agree (out : list GenerativeSlot) (densityMap : list bool) :
  length out = length densityMap ->
  (forall i s, out !! i = Some s ->
     if pulseAt densityMap i then degree s <> None else degree s = None) ->
  chordCount out = pulseCount densityMap.
Proof.
  revert densityMap. induction out as [|s out IH]; intros [|b dm] Hlen Hall;
    try discriminate; [reflexivity|].
  unfold chordCount, pulseCount in *. rewrite !filter_cons.
  pose proof (Hall 0%nat s eq_refl) as Hs. cbn in Hs.
  assert (Hrest : length (filter (fun s => degree s <> None) out)
                  = length (filter (fun b => b = true) dm)).
  { apply IH; [simpl in Hlen; lia|].
    intros i s' Hi. apply (Hall (S i) s' Hi). }
  destruct b.
  - rewrite decide_True by exact Hs. rewrite decide_True by reflexivity.
    simpl. rewrite Hrest. reflexivity.
  - rewrite decide_False by (rewrite Hs; intros H; apply H; reflexivity).
    rewrite decide_False by discriminate. exact Hrest.
Qed.

Lemma generateDensityMap_slots len targetDensity rhythmStyle rnd n :
  length (fst (generateDensityMap len targetDensity rhythmStyle rnd n)) = len.
Proof.
  unfold generateDensityMap.
  destruct (String.eqb rhythmStyle "steady");
    [apply euclideanRhythm_length|].
  destruct (String.eqb rhythmStyle "syncopated");
    [apply fill_template_pulse; exact 0%nat|].
  destruct (String.eqb rhythmStyle "euclidean");
    [apply euclideanRhythm_length|].
  destruct (String.eqb rhythmStyle "sparse");
    [apply fill_template_pulse; exact 0%nat|].
  rewrite mapM_length. apply repeat_length.
Qed.

(** X18: a progression holds exactly as many chords as its density map
    has pulses. In the steady, the Euclidean and the sparse style a
    progression of at least one slot therefore holds at least one chord,
    however low the density, and a syncopated progression of one slot
    holds none. *)
Theorem progression_chord_count (config : GenerationConfig)
    (key : Chords.Key) (rnd : nat -> Q) (n : nat) :
  let curve :=
    generateTensionCurve Math_sin Math_PI (slots config) (tensionCurve config)
      rnd n in
  let density :=
    generateDensityMap (slots config) (density config) (rhythmicStyle config)
      rnd (snd curve) in
  let out :=
    fst (generateProceduralProgression Math_sin Math_PI config key rnd n) in
  chordCount out = pulseCount (fst density)
  /\ (In (rhythmicStyle config) ["steady"; "euclidean"; "sparse"] ->
      (0 < slots config)%nat ->
      (1 <= chordCount out <= slots config)%nat)
  /\ (rhythmicStyle config = "syncopated" -> slots config = 1%nat ->
      chordCount out = 0%nat).
Proof.
  cbv zeta. destruct (progression_slots config key rnd n) as [Hlen Hslots].
  cbv zeta in Hlen, Hslots.
  set (m := snd (generateTensionCurve Math_sin Math_PI (slots config)
                   (tensionCurve config) rnd n)) in *.
  assert (Hcount :
    chordCount
      (fst (generateProceduralProgression Math_sin Math_PI config key rnd n))
    = pulseCount
        (fst (generateDensityMap (slots config) (density config)
                (rhythmicStyle config) rnd m))).
  { apply count_agree; [rewrite Hlen, generateDensityMap_slots; reflexivity|].
    intros i s Hs. destruct (Hslots i s Hs) as [[_ Hshape] _].
    destruct (pulseAt _ i).
    - destruct Hshape as ((d & -> & _) & _). discriminate.
    - apply Hshape. }
  split; [exact Hcount|]. rewrite Hcount.
  pose proof (pulseCount_bound
                (fst (generateDensityMap (slots config) (density config)
                        (rhythmicStyle config) rnd m))) as Hbound.
  rewrite generateDensityMap_slots in Hbound.
  split.
  - intros Hstyle Hpos. split; [|exact Hbound].
    destruct Hstyle as [Hstyle | [Hstyle | [Hstyle | []]]].
    + destruct (generateDensityMap_euclidean (slots config) (density config)
                  (rhythmicStyle config) rnd m) as (pulses & Hp & ->);
        [left; symmetry; exact Hstyle|].
      pose proof (euclideanRhythm_count (slots config) pulses ltac:(lia)).
      lia.
    + destruct (generateDensityMap_euclidean (slots config) (density config)
                  (rhythmicStyle config) rnd m) as (pulses & Hp & ->);
        [right; symmetry; exact Hstyle|].
      pose proof (euclideanRhythm_count (slots config) pulses ltac:(lia)).
      lia.
    + rewrite <- Hstyle.
      destruct (generateDensityMap_template (slots config) (density config)
                  rnd m) as ([|k] & Hk & Hsparse & _); [lia|].
      apply (pulseCount_positive _ 0%nat), Hsparse.
      split; [exact Hpos | left; reflexivity].
  - intros Hstyle Hone. rewrite Hstyle, Hone.
    destruct (generateDensityMap_template 1 (density config) rnd m)
      as (k & _ & _ & Hsync).
    pose proof (generateDensityMap_slots 1 (density config) "syncopated"
                  rnd m) as Hl.
    destruct (fst (generateDensityMap 1 (density config) "syncopated" rnd m))
      as [|b [|b' l]]; try discriminate Hl.
    destruct b; [|reflexivity].
    exfalso. destruct (Hsync 0%nat) as [Hplayed _].
    destruct (Hplayed eq_refl) as [_ Hin].
    apply list_elem_of_In, subseteq_take in Hin.
    apply list_elem_of_In in Hin. simpl in Hin. lia.
Qed.

Lemma firstChord_alter (slots : list GenerativeSlot) (ref : nat)
    (sr : GenerativeSlot) :
  slots !! ref = Some sr -> degree sr <> None ->
  firstChord (alter (set_degree (Some 1)) ref slots) = firstChord slots
  \/ firstChord (alter (set_degree (Some 1)) ref slots) = Some 1.
Proof.
  unfold firstChord. revert ref.
  induction slots as [|s slots IH]; intros [|ref] Hsr Hdeg;
    try discriminate.
  - right. reflexivity.
  - cbn [alter list_alter omap list_omap].
    destruct (degree s) as [d|]; [left; reflexivity|].
    apply (IH ref Hsr Hdeg).
Qed.

(** X19: every progression opens on a primary chord: its first chord, if
    it has any, is I, IV or V, for every configuration, tension curve and
    stream of draws. *)
Theorem first_chord_primary (config : GenerationConfig) (key : Chords.Key)
    (rnd : nat -> Q) (n : nat) :
  In (firstChord
        (fst (generateProceduralProgression Math_sin Math_PI config key
                rnd n)))
     [None; Some 1; Some 4; Some 5].
Proof.
  pose proof (progressionLoop_arrayOfHeap Math_sin Math_PI config rnd n)
    as Hwf.
  destruct (progressionLoop_shape config rnd n) as (_ & _ & Hfirst).
  cbv zeta in Hfirst.
  set (loop := progressionLoop Math_sin Math_PI config rnd n) in *.
  destruct (resolveEnding_spec (fst loop) rnd (snd loop) Hwf) as [Hwf' _].
  assert (Hafter :
    fst (generateProceduralProgression Math_sin Math_PI config key rnd n)
    = heap (fst (resolveEnding (fst loop) rnd (snd loop)))).
  { unfold generateProceduralProgression, bind, ret. cbn [fst].
    apply readSlots_arrayOfHeap, Hwf'. }
  rewrite Hafter.
  destruct (resolveEnding_cases (fst loop) rnd (snd loop))
    as [-> | (ref & sr & Hsr & Hdeg & ->)]; [exact Hfirst|].
  destruct (firstChord_alter _ _ _ Hsr Hdeg) as [-> | ->];
    [exact Hfirst | right; left; reflexivity].
Qed.

Lemma noRepeatedSeventh_snoc (chords : list Z) (d : Z) :
  noRepeatedSeventh chords ->
  (last chords = Some 7 -> d <> 7) ->
  noRepeatedSeventh (chords ++ [d]).
Proof.
  intros H Hd i Hi Hnext.
  destruct (lt_eq_lt_dec (S i) (length chords)) as [[Hlt | Heq] | Hgt].
  - rewrite lookup_app_l in Hi, Hnext by lia. exact (H i Hi Hnext).
  - rewrite lookup_app_l in Hi by lia.
    rewrite lookup_app_r in Hnext by lia.
    replace (S i - length chords)%nat with 0%nat in Hnext by lia.
    injection Hnext as Hseven. apply Hd; [|exact Hseven].
    rewrite last_lookup. replace (pred (length chords)) with i by lia.
    exact Hi.
  - rewrite lookup_ge_None_2 in Hnext; [discriminate|].
    rewrite length_app. simpl. lia.
Qed.

Lemma noRepeatedSeventh_insert (chords : list Z) (j : nat) :
  noRepeatedSeventh chords -> noRepeatedSeventh (<[j := 1]> chords).
Proof.
  intros H i Hi Hnext.
  apply list_lookup_insert_Some in Hi as [(_ & Hone & _) | (_ & Hi)];
    [discriminate|].
  apply list_lookup_insert_Some in Hnext as [(_ & Hone & _) | (_ & Hnext)];
    [discriminate|].
  exact (H i Hi Hnext).
Qed.

Lemma chords_alter (slots : list GenerativeSlot) (ref : nat)
    (sr : GenerativeSlot) :
  slots !! ref = Some sr -> degree sr <> None ->
  exists j,
    omap degree (alter (set_degree (Some 1)) ref slots)
    = <[j := 1]> (omap degree slots).
Proof.
  revert ref. induction slots as [|s slots IH]; intros [|ref] Hsr Hdeg;
    try discriminate.
  - injection Hsr as ->. exists 0%nat.
    cbn [alter list_alter omap list_omap set_degree degree].
    destruct (degree sr) as [d|]; [reflexivity | contradiction].
  - destruct (IH ref Hsr Hdeg) as [j Hj].
    cbn [alter list_alter omap list_omap].
    fold (alter (set_degree (Some 1)) ref slots).
    fold (omap degree (alter (set_degree (Some 1)) ref slots)).
    fold (omap degree slots).
    destruct (degree s) as [d|].
    + exists (S j). rewrite Hj. reflexivity.
    + exists j. exact Hj.
Qed.

(** X20: the progression never repeats the seventh degree. When the sine
    stays within its bounds and the draws lie in [0,1), no chord on vii is
    directly followed by another chord on vii, rests between them
    skipped, in any configuration: the tables give that transition the
    probability zero, a one-slot curve without a value selects the tonic,
    and the ending pass only ever writes the tonic. *)
Theorem no_repeated_seventh (config : GenerationConfig) (key : Chords.Key)
    (rnd : nat -> Q) (n : nat) :
  (forall x, (- (1) <= Math_sin x <= 1)%Q) ->
  (0 <= Math_PI)%Q ->
  (forall x, (0 <= x <= Math_PI)%Q -> (0 <= Math_sin x)%Q) ->
  unit_draws rnd ->
  noRepeatedSeventh
    (omap degree
       (fst (generateProceduralProgression Math_sin Math_PI config key
               rnd n))).
Proof.
  intros Hsin Hpi Harc Hrnd.
  pose proof (progressionLoop_arrayOfHeap Math_sin Math_PI config rnd n)
    as Hwf.
  assert (Hloop :
    noRepeatedSeventh
      (omap degree
         (heap (fst (progressionLoop Math_sin Math_PI config rnd n))))).
  { unfold progressionLoop, bind, ret. cbn [fst].
    pose proof (generateTensionCurve_curveTension Math_sin Math_PI
                  (slots config) (tensionCurve config) rnd n Hsin Hpi Harc)
      as Hcurve.
    set (curve := generateTensionCurve Math_sin Math_PI (slots config)
                    (tensionCurve config) rnd n) in *.
    set (dens := generateDensityMap (slots config) (density config)
                   (rhythmicStyle config) rnd (snd curve)).
    apply (foldM_invariant
             (fun st =>
                previousChord st = last (omap degree (heap (store st)))
                /\ noRepeatedSeventh (omap degree (heap (store st))))).
    - intros st i m [Hprev Hnone].
      destruct (generateSlot_pushes config (fst curve) (fst dens) st i rnd m)
        as (slot & Hstore & Hprev' & _ & _ & _ & Hseven).
      cbv zeta in Hstore, Hprev'. rewrite Hstore, Hprev'.
      unfold push. cbn [heap]. rewrite omap_app. cbn [omap list_omap].
      assert (Ht : curveTension (default NaN (fst curve !! i))).
      { destruct (fst curve !! i) as [a|] eqn:E; [|exact I].
        rewrite Forall_forall in Hcurve. apply Hcurve.
        eapply list_elem_of_lookup_2, E. }
      destruct (degree slot) as [d|] eqn:Ed.
      + cbn. split; [rewrite last_snoc; reflexivity|].
        apply noRepeatedSeventh_snoc; [exact Hnone|].
        intros Hlast ->. rewrite <- Hprev in Hlast.
        apply (Hseven Hrnd Ht Hlast). reflexivity.
      + cbn. rewrite app_nil_r. split; assumption.
    - split; [reflexivity|]. intros i Hi. cbn in Hi. discriminate. }
  set (loop := progressionLoop Math_sin Math_PI config rnd n) in *.
  destruct (resolveEnding_spec (fst loop) rnd (snd loop) Hwf) as [Hwf' _].
  assert (Hafter :
    fst (generateProceduralProgression Math_sin Math_PI config key rnd n)
    = heap (fst (resolveEnding (fst loop) rnd (snd loop)))).
  { unfold generateProceduralProgression, bind, ret. cbn [fst].
    apply readSlots_arrayOfHeap, Hwf'. }
  rewrite Hafter.
  destruct (resolveEnding_cases (fst loop) rnd (snd loop))
    as [-> | (ref & sr & Hsr & Hdeg & ->)]; [exact Hloop|].
  destruct (chords_alter _ _ _ Hsr Hdeg) as [j ->].
  apply noRepeatedSeventh_insert, Hloop.
Qed.

End ProgressionFacts.

Lemma chord_slots_in_style_witness :
  Forall (fun s => Generator.degree s <> None -> inStyle s)
    (fst (Generator.generateProceduralProgression (fun q => q) 3
            {| Generator.slots := 4; Generator.density := 0.5;
               Generator.tensionCurve := "buildup";
               Generator.rhythmicStyle := "random";
               Generator.phraseStructure := "ABAB";
               Generator.creativity := 0.4 |}
            Chords.K_C (fun _ => 0.25%Q) 0%nat)).
Proof.
  apply chord_slots_in_style. intros i. lra.
Defined.

Lemma progression_chord_count_witness :
  (1 <= chordCount
          (fst (Generator.generateProceduralProgression (fun q => q) 3
                  {| Generator.slots := 8; Generator.density := 0.01;
                     Generator.tensionCurve := "flat";
                     Generator.rhythmicStyle := "steady";
                     Generator.phraseStructure := "ABAB";
                     Generator.creativity := 0 |}
                  Chords.K_C (fun _ => 0.25%Q) 0%nat)) <= 8)%nat.
Proof.
  apply (proj1 (proj2 (progression_chord_count (fun q => q) 3
                         {| Generator.slots := 8; Generator.density := 0.01;
                            Generator.tensionCurve := "flat";
                            Generator.rhythmicStyle := "steady";
                            Generator.phraseStructure := "ABAB";
                            Generator.creativity := 0 |}
                         Chords.K_C (fun _ => 0.25%Q) 0%nat))).
  - left. reflexivity.
  - cbn. lia.
Defined.

(** A run through the seventh degree: with high draws the walk ends on
    the last key of each row, which is vii after V and after vi, and vi
    after vii, whose own row gives vii the probability zero. *)
Lemma no_repeated_seventh_witness :
  let chords :=
    omap Generator.degree
      (fst (Generator.generateProceduralProgression (fun _ => 0.8%Q) 3
              {| Generator.slots := 8; Generator.density := 1;
                 Generator.tensionCurve := "arc";
                 Generator.rhythmicStyle := "steady";
                 Generator.phraseStructure := "ABAB";
                 Generator.creativity := 1 |}
              Chords.K_C (fun _ => 0.99%Q) 0%nat)) in
  chords = [5; 7; 6; 7; 6; 7; 6; 7] /\ noRepeatedSeventh chords.
Proof.
  cbv zeta. split; [vm_compute; reflexivity|].
  apply no_repeated_seventh.
  - intros x. lra.
  - lra.
  - intros x _. lra.
  - intros i. lra.
Defined.

(** ** Ranking, matching and the playing statistics *)

Section MatchFacts.
Import Suggestion.

Lemma atLeastAsLikely_trans (a b c : ChordSuggestion) :
  atLeastAsLikely a b -> atLeastAsLikely b c -> atLeastAsLikely a c.
Proof.
  intros (pa & pb & Ha & Hb & Hab) (pb' & pc & Hb' & Hc & Hbc).
  rewrite Hb in Hb'. injection Hb' as <-.
  exists pa, pc. repeat split; try assumption. lra.
Qed.

(** [byProbability] is a consistent ordering of suggestions with finite
    probabilities, and a sort by a consistent ordering returns its input
    in that order. *)
Lemma insertM_byProbability_sorted (x : ChordSuggestion)
    (l : list ChordSuggestion) rnd n :
  finiteProbability x -> Forall finiteProbability l ->
  StronglySorted atLeastAsLikely l ->
  StronglySorted atLeastAsLikely (fst (insertM byProbability x l rnd n)).
Proof.
  intros [px Hx] Hfin Hsorted. revert n.
  induction Hsorted as [|y l Hl IH Hy]; intros n.
  - cbn. repeat constructor.
  - inversion Hfin as [|? ? [py Hpy] Hfin']; subst.
    cbn [insertM]. unfold bind at 1. unfold byProbability at 1.
    unfold ret at 1. cbn [fst snd]. rewrite Hpy, Hx.
    cbn [nsub nadd nopp ngtb nltb nleb].
    destruct (Qle_bool (py + - px) 0) eqn:E; cbn [negb].
    + apply Qle_bool_iff in E. unfold ret. cbn [fst].
      assert (Hxy : atLeastAsLikely x y).
      { exists px, py. repeat split; try assumption. lra. }
      constructor; [constructor; assumption|].
      constructor; [exact Hxy|].
      eapply Forall_impl; [exact Hy|].
      intros z Hz. eapply atLeastAsLikely_trans; eassumption.
    + apply Qle_bool_false in E. unfold bind, ret. cbn [fst].
      constructor; [apply IH; exact Hfin'|].
      assert (Hyx : atLeastAsLikely y x).
      { exists py, px. repeat split; try assumption. lra. }
      apply Forall_forall. intros z Hz. apply list_elem_of_In in Hz.
      apply (Permutation_in _ (insertM_Permutation byProbability x l rnd n))
        in Hz.
      destruct Hz as [<- | Hz]; [exact Hyx|].
      rewrite Forall_forall in Hy. apply Hy, list_elem_of_In, Hz.
Qed.

Lemma sortM_byProbability_sorted (l : list ChordSuggestion) rnd n :
  Forall finiteProbability l ->
  StronglySorted atLeastAsLikely (fst (sortM byProbability l rnd n)).
Proof.
  intros Hfin. revert n. induction Hfin as [|x l Hx Hl IH]; intros n.
  - constructor.
  - cbn [sortM]. unfold bind. apply insertM_byProbability_sorted.
    + exact Hx.
    + apply Forall_forall. intros z Hz. apply list_elem_of_In in Hz.
      apply (Permutation_in _ (sortM_Permutation byProbability l rnd n))
        in Hz.
      rewrite Forall_forall in Hl. apply Hl, list_elem_of_In, Hz.
    + apply IH.
Qed.

Lemma startOptions_finite : Forall finiteProbability startOptions.
Proof. repeat constructor; eexists; reflexivity. Qed.

Lemma normalize_finite (scores : obj Score) :
  (0 < totalScore scores)%Q -> Forall finiteProbability (normalize scores).
Proof.
  intros Htotal. apply Forall_forall. intros s Hs.
  apply list_elem_of_In, (in_map probability) in Hs.
  rewrite (normalize_probabilities scores Htotal) in Hs.
  apply in_map_iff in Hs as (p & Hp & _). exists p. symmetry. exact Hp.
Qed.

Lemma rankSuggestions_sorted lastChord secondLastChord rnd n :
  unit_draws rnd ->
  StronglySorted atLeastAsLikely
    (fst (rankSuggestions lastChord secondLastChord rnd n)).
Proof.
  intros Hrnd. unfold rankSuggestions, bind.
  apply sortM_byProbability_sorted, normalize_finite.
  apply (boosted_scores lastChord secondLastChord rnd n Hrnd).
Qed.

Lemma NoDup_perm {T} (l k : list T) : l ≡ₚ k -> NoDup k -> NoDup l.
Proof. intros Hperm. apply (NoDup_Permutation_proper _ _ Hperm). Qed.

Lemma sorted_degrees_NoDup (l : list ChordSuggestion) rnd m :
  NoDup (map degree l) ->
  NoDup (map degree (fst (sortM byProbability l rnd m))).
Proof.
  intros H. apply (NoDup_perm _ (map degree l));
    [apply Permutation_map, sortM_Permutation | exact H].
Qed.

Lemma take_degrees_NoDup (k : nat) (l : list ChordSuggestion) :
  NoDup (map degree l) -> NoDup (map degree (take k l)).
Proof.
  intros H. rewrite fmap_take.
  eapply sublist_NoDup; [exact H | apply sublist_take].
Qed.

Lemma startOptions_degrees_NoDup : NoDup (map degree startOptions).
Proof. apply NoDup_ListNoDup. cbn. repeat constructor; simpl; lia. Qed.

Lemma suggestNextChords_degrees_NoDup history bpm now rnd n :
  NoDup (map degree (fst (suggestNextChords history bpm now rnd n))).
Proof.
  destruct history as [|h history].
  - rewrite suggestNextChords_empty.
    apply sorted_degrees_NoDup, take_degrees_NoDup.
    apply (NoDup_perm _ (map degree startOptions));
      [apply Permutation_map, sortM_Permutation|].
    apply startOptions_degrees_NoDup.
  - destruct (last (h :: history)) as [lastChord|] eqn:Hlast;
      [|apply last_None in Hlast; discriminate].
    rewrite (suggestNextChords_nonempty _ _ _ _ _ _ Hlast).
    apply take_degrees_NoDup.
    eapply NoDup_perm; [apply rankSuggestions_degrees|].
    apply NoDup_ListNoDup. repeat constructor; simpl; lia.
Qed.

(** X21: the suggestions come ranked. With draws in [0,1) the engine
    returns its suggestions in descending order of probability, for every
    history; their degrees are pairwise different; after a first chord
    there are exactly four of them, and they are the top four: none of
    the three candidates left out is more likely than a returned one. *)
Theorem suggestions_ranked (history : list ChordHistory) (bpm now : Q)
    (rnd : nat -> Q) (n : nat) :
  unit_draws rnd ->
  let returned := fst (suggestNextChords history bpm now rnd n) in
  StronglySorted atLeastAsLikely returned
  /\ NoDup (map degree returned)
  /\ forall lastChord, last history = Some lastChord ->
       let full :=
         fst (rankSuggestions lastChord (secondLastOf history) rnd n) in
       length returned = 4%nat
       /\ forall s o, In s returned -> In o (drop 4 full) ->
            atLeastAsLikely s o.
Proof.
  intros Hrnd. cbv zeta.
  split; [|split; [apply suggestNextChords_degrees_NoDup|]].
  - destruct history as [|h history].
    + rewrite suggestNextChords_empty.
      apply sortM_byProbability_sorted.
      apply Forall_forall. intros s Hs.
      apply subseteq_take, list_elem_of_In in Hs.
      apply (Permutation_in _ (sortM_Permutation shuffling startOptions
                                 rnd n)) in Hs.
      pose proof startOptions_finite as Hfin.
      rewrite Forall_forall in Hfin. apply Hfin, list_elem_of_In, Hs.
    + destruct (last (h :: history)) as [lastChord|] eqn:Hlast;
        [|apply last_None in Hlast; discriminate].
      rewrite (suggestNextChords_nonempty _ _ _ _ _ _ Hlast).
      pose proof (rankSuggestions_sorted lastChord
                    (secondLastOf (h :: history)) rnd n Hrnd) as Hsorted.
      rewrite <- (take_drop 4 (fst (rankSuggestions lastChord
                                      (secondLastOf (h :: history)) rnd n)))
        in Hsorted.
      apply StronglySorted_app in Hsorted as (_ & Htake & _). exact Htake.
  - intros lastChord Hlast.
    rewrite (suggestNextChords_nonempty _ _ _ _ _ _ Hlast).
    pose proof (rankSuggestions_sorted lastChord (secondLastOf history)
                  rnd n Hrnd) as Hsorted.
    pose proof (rankSuggestions_degrees lastChord (secondLastOf history)
                  rnd n) as Hdeg.
    apply Permutation_length in Hdeg. rewrite length_map in Hdeg.
    cbn [length] in Hdeg. split; [rewrite length_take; lia|].
    intros s o Hs Ho.
    rewrite <- (take_drop 4 (fst (rankSuggestions lastChord
                                    (secondLastOf history) rnd n)))
      in Hsorted.
    apply StronglySorted_app in Hsorted as (Hcross & _ & _).
    apply Hcross; apply list_elem_of_In; assumption.
Qed.

Lemma suggestions_ranked_witness :
  StronglySorted atLeastAsLikely
    (fst (suggestNextChords [mkHistory 0 0; mkHistory 4 1] 120 2
            (fun _ => 0.5%Q) 0%nat))
  /\ length (fst (suggestNextChords [mkHistory 0 0; mkHistory 4 1] 120 2
                    (fun _ => 0.5%Q) 0%nat)) = 4%nat.
Proof.
  destruct (suggestions_ranked [mkHistory 0 0; mkHistory 4 1] 120 2
              (fun _ => 0.5%Q) 0%nat) as (Hsorted & _ & Hfour).
  - intros i. lra.
  - split; [exact Hsorted|]. apply (Hfour (mkHistory 4 1) eq_refl).
Defined.

Lemma findIndex_spec {T} (test : T -> bool) (l : list T) (k : Z) :
  0 <= k ->
  (findIndex test l k = -1 /\ Forall (fun x => test x = false) l)
  \/ exists i x,
       findIndex test l k = k + Z.of_nat i
       /\ l !! i = Some x /\ test x = true
       /\ forall j y, (j < i)%nat -> l !! j = Some y -> test y = false.
Proof.
  revert k. induction l as [|x l IH]; intros k Hk.
  - left. split; [reflexivity | constructor].
  - cbn [findIndex]. destruct (test x) eqn:Hx.
    + right. exists 0%nat, x.
      split; [lia|]. split; [reflexivity|]. split; [exact Hx|].
      intros j y Hj. lia.
    + destruct (IH (k + 1)) as [[Hnone Hall] | (i & y & Hi & Hy & Hty & Hmin)];
        [lia | |].
      * left. split; [exact Hnone | constructor; assumption].
      * right. exists (S i), y.
        split; [lia|]. split; [exact Hy|]. split; [exact Hty|].
        intros [|j] z Hj Hz; [injection Hz as <-; exact Hx|].
        apply (Hmin j z); [lia | exact Hz].
Qed.

Lemma checkSuggestionMatch_first (playedDegree : Z)
    (suggestions : list ChordSuggestion) :
  match checkSuggestionMatch playedDegree suggestions with
  | Some m =>
      matched m = true
      /\ exists i s,
           suggestions !! i = Some s /\ degree s = playedDegree
           /\ rank m = Z.of_nat i + 1
           /\ matchProbability m = probability s
           /\ forall j s', (j < i)%nat -> suggestions !! j = Some s' ->
                degree s' <> playedDegree
  | None => forall s, In s suggestions -> degree s <> playedDegree
  end.
Proof.
  unfold checkSuggestionMatch.
  destruct (findIndex_spec (fun s => degree s =? playedDegree) suggestions 0)
    as [[-> Hall] | (i & s & -> & Hs & Hts & Hmin)]; [lia | |].
  - cbn. intros s Hs. rewrite Forall_forall in Hall.
    apply list_elem_of_In, Hall in Hs. apply Z.eqb_neq, Hs.
  - destruct (Z.geb_spec (0 + Z.of_nat i) 0) as [_|Hneg]; [|lia].
    unfold Chords.at_index.
    destruct (Z.ltb_spec (0 + Z.of_nat i) 0) as [Hneg|_]; [lia|].
    replace (Z.to_nat (0 + Z.of_nat i)) with i by lia. rewrite Hs.
    cbn [matched rank matchProbability]. split; [reflexivity|].
    exists i, s.
    split; [exact Hs|]. split; [apply Z.eqb_eq, Hts|]. split; [lia|].
    split; [reflexivity|].
    intros j s' Hj Hs'. apply Z.eqb_neq, (Hmin j s' Hj Hs').
Qed.

(** X22: matching a played chord against a list of suggestions. A match
    reports the first suggestion with the played degree: its position
    counted from one as the rank, and its probability. There is no match
    exactly when no suggestion has the played degree. *)
Theorem checkSuggestionMatch_finds_first (playedDegree : Z)
    (suggestions : list ChordSuggestion) :
  match checkSuggestionMatch playedDegree suggestions with
  | Some m =>
      matched m = true
      /\ exists i s,
           suggestions !! i = Some s /\ degree s = playedDegree
           /\ rank m = Z.of_nat i + 1
           /\ matchProbability m = probability s
           /\ forall j s', (j < i)%nat -> suggestions !! j = Some s' ->
                degree s' <> playedDegree
  | None => forall s, In s suggestions -> degree s <> playedDegree
  end.
Proof. apply checkSuggestionMatch_first. Qed.

(** X23: the engine and the matcher together. Playing the degree of the
    suggestion at position [i] of a list that the engine has returned is
    reported as a match of rank [i + 1] with that suggestion's
    probability, for every history and stream of draws. *)
Theorem returned_suggestion_matches (history : list ChordHistory)
    (bpm now : Q) (rnd : nat -> Q) (n : nat) (i : nat)
    (s : ChordSuggestion) :
  fst (suggestNextChords history bpm now rnd n) !! i = Some s ->
  checkSuggestionMatch (degree s)
    (fst (suggestNextChords history bpm now rnd n))
  = Some {| matched := true; rank := Z.of_nat i + 1;
            matchProbability := probability s |}.
Proof.
  intros Hs.
  pose proof (suggestNextChords_degrees_NoDup history bpm now rnd n) as Hnd.
  pose proof (checkSuggestionMatch_first (degree s)
                (fst (suggestNextChords history bpm now rnd n))) as Hmatch.
  set (out := fst (suggestNextChords history bpm now rnd n)) in *.
  destruct (checkSuggestionMatch (degree s) out) as [[m r p]|].
  - destruct Hmatch as (Hm & j & s' & Hs' & Hdeg & Hr & Hp & _).
    cbn [matched rank matchProbability] in Hm, Hr, Hp.
    assert (j = i) as ->.
    { eapply NoDup_lookup; [exact Hnd | |];
        rewrite list_lookup_fmap; [rewrite Hs' | rewrite Hs];
        cbn; [rewrite Hdeg|]; reflexivity. }
    rewrite Hs in Hs'. injection Hs' as <-. subst. reflexivity.
  - exfalso. apply (Hmatch s); [|reflexivity].
    apply list_elem_of_In. eapply list_elem_of_lookup_2, Hs.
Qed.

Lemma returned_suggestion_matches_witness :
  let returned :=
    fst (suggestNextChords [mkHistory 4 0] 120 1 (fun _ => 0.5%Q) 0%nat) in
  exists s,
    returned !! 1%nat = Some s
    /\ checkSuggestionMatch (degree s) returned
       = Some {| matched := true; rank := 2;
                 matchProbability := probability s |}.
Proof.
  cbv zeta.
  destruct (fst (suggestNextChords [mkHistory 4 0] 120 1 (fun _ => 0.5%Q)
                   0%nat) !! 1%nat) as [s|] eqn:E;
    [|vm_compute in E; discriminate].
  exists s. split; [reflexivity|].
  apply (returned_suggestion_matches [mkHistory 4 0] 120 1 (fun _ => 0.5%Q)
           0%nat 1%nat s E).
Defined.

End MatchFacts.

Section AnalysisFacts.
Import Suggestion.

Variable Math_sqrt : Q -> Q.

Lemma consecutive_length {T} (l : list T) :
  length (consecutive l) = (length l - 1)%nat.
Proof.
  unfold consecutive. rewrite length_combine.
  destruct l as [|x l]; [reflexivity|]. cbn [tail length]. lia.
Qed.

(** The intervals between consecutive chords add up to the time from the
    first chord to the last. *)
Lemma intervals_telescope (h : ChordHistory) (rest : list ChordHistory)
    (acc : Q) :
  (fold_left Qplus
     (map (fun p => (timestamp (snd p) - timestamp (fst p))%Q)
          (consecutive (h :: rest))) acc
   == acc + (lastTime (h :: rest) - timestamp h))%Q.
Proof.
  revert h acc. induction rest as [|h2 rest IH]; intros h acc.
  - cbn. unfold lastTime. cbn. lra.
  - change (consecutive (h :: h2 :: rest))
      with ((h, h2) :: consecutive (h2 :: rest)).
    cbn [map fold_left fst snd]. rewrite IH.
    unfold lastTime. rewrite last_cons_cons. lra.
Qed.

Lemma Qsquare_nonneg (x : Q) : (0 <= x * x)%Q.
Proof.
  destruct (Qlt_le_dec x 0) as [Hneg|Hpos].
  - assert (E : (x * x == (- x) * (- x))%Q) by ring.
    rewrite E. apply Qmult_le_0_compat; lra.
  - apply Qmult_le_0_compat; lra.
Qed.

Lemma squares_fold (intervals : list Q) (a acc : Q) :
  (0 <= acc)%Q ->
  exists v,
    fold_left
      (fun sum interval =>
         (sum + (Fin interval - Fin a) * (Fin interval - Fin a))%num)
      intervals (Fin acc) = Fin v
    /\ (0 <= v)%Q.
Proof.
  revert acc. induction intervals as [|i intervals IH]; intros acc Hacc.
  - exists acc. split; [reflexivity | exact Hacc].
  - cbn [fold_left nsub nadd nopp nmul]. apply IH.
    pose proof (Qsquare_nonneg (i + - a)) as H. lra.
Qed.

Lemma filter_length_bound {T} (f : T -> bool) (l : list T) :
  (length (List.filter f l) <= length l)%nat.
Proof.
  induction l as [|x l IH]; [reflexivity|]. cbn [List.filter].
  destruct (f x); cbn [length]; lia.
Qed.

Lemma ratio_unit (m k : nat) :
  (m <= k)%nat -> (0 < k)%nat ->
  (0 <= inject_Z (Z.of_nat m) / inject_Z (Z.of_nat k) <= 1)%Q.
Proof.
  intros Hm Hk.
  assert (Hpos : (0 < inject_Z (Z.of_nat k))%Q)
    by (unfold Qlt; simpl; lia).
  split.
  - apply Qle_shift_div_l; [exact Hpos|]. rewrite Qmult_0_l.
    unfold Qle. simpl. lia.
  - apply Qle_shift_div_r; [exact Hpos|]. rewrite Qmult_1_l.
    rewrite <- Zle_Qle. lia.
Qed.

(** X24: the playing statistics of a history of at least three chords
    whose last chord is later than its first, with a square root that is
    not negative. The average timing is the time from the first chord to
    the last divided by the number of intervals; consistency and
    predictability are numbers in the unit interval. *)
Theorem analyzePlayingPattern_ranges (history : list ChordHistory) :
  (3 <= length history)%nat ->
  (forall x, (0 <= x)%Q -> (0 <= Math_sqrt x)%Q) ->
  (firstTime history < lastTime history)%Q ->
  exists a c p,
    analyzePlayingPattern Math_sqrt history
    = {| averageTiming := Fin a; consistency := Fin c;
         predictability := Fin p |}
    /\ (a == (lastTime history - firstTime history)
             / inject_Z (Z.of_nat (length history - 1)))%Q
    /\ (0 <= c <= 1)%Q
    /\ (0 <= p <= 1)%Q.
Proof.
  intros Hlen Hsqrt Htime. unfold analyzePlayingPattern.
  destruct (Nat.ltb_spec (length history) 3) as [Hshort|_]; [lia|].
  cbv zeta. rewrite !length_map, !consecutive_length.
  set (k := (length history - 1)%nat).
  assert (Hk : (0 < inject_Z (Z.of_nat k))%Q)
    by (unfold Qlt; simpl; lia).
  set (total := fold_left Qplus
                  (map (fun p => (timestamp (snd p) - timestamp (fst p))%Q)
                       (consecutive history)) 0%Q).
  assert (Htotal : (total == lastTime history - firstTime history)%Q).
  { unfold total. destruct history as [|h rest]; [simpl in Hlen; lia|].
    rewrite intervals_telescope. unfold firstTime. cbn [head]. lra. }
  set (a := (total / inject_Z (Z.of_nat k))%Q).
  assert (Havg : (Fin total / of_nat k)%num = Fin a)
    by (unfold of_nat; apply ndiv_Fin; lra).
  rewrite !Havg.
  assert (Ha : (0 < a)%Q).
  { unfold a. apply Qlt_shift_div_l; [exact Hk|]. lra. }
  destruct (squares_fold
              (map (fun p => (timestamp (snd p) - timestamp (fst p))%Q)
                   (consecutive history)) a 0%Q) as (v & -> & Hv); [lra|].
  unfold of_nat at 1. rewrite ndiv_Fin by lra.
  assert (Hvar : (0 <= v / inject_Z (Z.of_nat k))%Q).
  { apply Qle_shift_div_l; [exact Hk | lra]. }
  cbn [nsqrt].
  destruct (Qltb (v / inject_Z (Z.of_nat k)) 0) eqn:Hneg;
    [apply Qltb_lt in Hneg; lra|].
  pose proof (Hsqrt _ Hvar) as Hsd.
  set (sd := Math_sqrt (v / inject_Z (Z.of_nat k))) in *.
  rewrite ndiv_Fin by lra. cbn [nsub nadd nopp].
  assert (Hratio : (0 <= sd / a)%Q).
  { apply Qle_shift_div_l; [exact Ha | lra]. }
  assert (Hmax : exists c,
            nmax (Fin 0) (Fin (1 + - (sd / a))) = Fin c /\ (0 <= c <= 1)%Q).
  { unfold nmax, nleb. destruct (Qle_bool 0 (1 + - (sd / a))) eqn:E.
    - apply Qle_bool_iff in E. eexists. split; [reflexivity | lra].
    - exists 0%Q. split; [reflexivity | lra]. }
  destruct Hmax as (c & Hmax & Hc01).
  rewrite Hmax.
  unfold of_nat.
  assert (Hk' : Z.of_nat (length history) - 1 = Z.of_nat k) by lia.
  rewrite Hk'. rewrite ndiv_Fin by lra.
  eexists a, c, _. split; [reflexivity|].
  split; [unfold a; rewrite Htotal; reflexivity|].
  split; [exact Hc01|].
  apply ratio_unit; [|lia].
  etransitivity; [apply filter_length_bound|].
  rewrite consecutive_length. reflexivity.
Qed.

End AnalysisFacts.

Lemma analyzePlayingPattern_ranges_witness :
  let history :=
    [Suggestion.mkHistory 0 0; Suggestion.mkHistory 4 1;
     Suggestion.mkHistory 0 3] in
  exists a c p,
    Suggestion.analyzePlayingPattern (fun x => x) history
    = {| Suggestion.averageTiming := Fin a; Suggestion.consistency := Fin c;
         Suggestion.predictability := Fin p |}
    /\ (a == (lastTime history - firstTime history)
             / inject_Z (Z.of_nat (length history - 1)))%Q
    /\ (0 <= c <= 1)%Q
    /\ (0 <= p <= 1)%Q.
Proof.
  apply (analyzePlayingPattern_ranges (fun x => x)).
  - simpl. lia.
  - intros x Hx. exact Hx.
  - unfold Qlt. simpl. lia.
Defined.

Section HistoryFacts.
Import Suggestion.

Lemma appendHistory_drop (prev : list ChordHistory) (entry : ChordHistory) :
  (length prev <= 20)%nat ->
  appendHistory prev entry
  = drop (length (prev ++ [entry]) - 20) (prev ++ [entry])
  /\ (length (appendHistory prev entry) <= 20)%nat.
Proof.
  intros Hlen. unfold appendHistory. cbv zeta.
  assert (Hnew : length (prev ++ [entry]) = S (length prev))
    by (rewrite length_app; simpl; lia).
  destruct (Nat.ltb_spec 20 (length (prev ++ [entry]))) as [Hfull|Hroom].
  - replace (length (prev ++ [entry]) - 20)%nat with 1%nat by lia.
    split.
    + destruct (prev ++ [entry]); reflexivity.
    + destruct (prev ++ [entry]) as [|x l]; cbn [tail length] in *; lia.
  - replace (length (prev ++ [entry]) - 20)%nat with 0%nat by lia.
    split; [reflexivity | exact Hroom].
Qed.

Lemma appendHistory_fold (events prev : list ChordHistory) :
  (length prev <= 20)%nat ->
  fold_left appendHistory events prev
  = drop (length (prev ++ events) - 20) (prev ++ events).
Proof.
  revert prev. induction events as [|e events IH]; intros prev Hlen.
  - rewrite app_nil_r. cbn [fold_left].
    replace (length prev - 20)%nat with 0%nat by lia. reflexivity.
  - cbn [fold_left].
    destruct (appendHistory_drop prev e Hlen) as [Hdrop Hkeep].
    rewrite (IH _ Hkeep). rewrite Hdrop at 2.
    assert (Hk : (length (prev ++ [e]) - 20 <= length (prev ++ [e]))%nat)
      by lia.
    rewrite <- (drop_app_le _ events _ Hk), drop_drop.
    assert (Hl : length (appendHistory prev e ++ events)
                 = (length (prev ++ [e]) - (length (prev ++ [e]) - 20)
                    + length events)%nat).
    { rewrite length_app. rewrite Hdrop at 1. rewrite length_drop.
      reflexivity. }
    rewrite Hl.
    replace (prev ++ e :: events) with ((prev ++ [e]) ++ events)
      by (rewrite <- app_assoc; reflexivity).
    f_equal. rewrite !length_app. simpl. lia.
Qed.

(** X25: the history of the suggestion panel is a rolling window. After
    any sequence of chord events, starting from an empty history, the
    panel holds the events themselves while there are at most twenty, and
    the last twenty of them afterwards, in the order played. *)
Theorem history_window (events : list ChordHistory) :
  fold_left appendHistory events [] = drop (length events - 20) events
  /\ length (fold_left appendHistory events [])
     = Nat.min (length events) 20.
Proof.
  rewrite (appendHistory_fold events []) by (simpl; lia).
  cbn [app]. split; [reflexivity|]. rewrite length_drop. lia.
Qed.

End HistoryFacts.

(** ** The keyboard instrument *)

Section KeyboardFacts.
Import Chords.

Lemma indexOf_keyName (key : Key) :
  indexOf (keyName key) Keyboard.notes 0 = getNoteIndex key.
Proof. destruct key; reflexivity. Qed.

Lemma at_index_fmap {A B} (f : A -> B) (l : list A) (i : Z) :
  at_index (map f l) i = f <$> at_index l i.
Proof.
  unfold at_index. destruct (i <? 0); [reflexivity|].
  apply list_lookup_fmap.
Qed.

(** A note of the instrument is the name of the MIDI note that lies
    [semitones] above the root note in the base octave. *)
Lemma getNoteFromInterval_scientific (key : Key) (semitones octave : Z) :
  0 <= semitones ->
  Keyboard.getNoteFromInterval (keyName key) semitones octave
  = scientificName ((octave + 1) * 12 + getNoteIndex key + semitones).
Proof.
  intros Hs. unfold Keyboard.getNoteFromInterval, scientificName.
  cbv zeta. rewrite indexOf_keyName.
  pose proof (getNoteIndex_range key) as Hk.
  set (total := getNoteIndex key + semitones).
  assert (Htotal : 0 <= total) by (unfold total; lia).
  replace ((octave + 1) * 12 + getNoteIndex key + semitones)
    with (total + (octave + 1) * 12) by (unfold total; lia).
  unfold getNoteFromIndex. rewrite wrapped_index.
  rewrite Z_mod_plus_full, Z_div_plus_full by lia.
  rewrite Z.rem_mod_nonneg by lia.
  change Keyboard.notes with (map keyName NOTES). rewrite at_index_fmap.
  destruct (at_index NOTES (total mod 12)) as [k|]; [|reflexivity].
  cbn. do 3 f_equal. lia.
Qed.

(** X26: the instrument and the chord model build the same chords, up to
    the octave. For each of the degrees I to VI the instrument names the
    notes of the chord that the chord model builds on that degree with
    the instrument's quality, in root position. The instrument does not
    wrap the scale root into the octave as the chord model does: where
    the root passes B its chord lies one octave above the chord model's. *)
Theorem instrument_agrees_with_chord_model (key : Key) (octave degree : Z)
    (quality : Keyboard.Quality) (ct : ChordType) :
  at_index Keyboard.chordQualities degree = Some quality ->
  modelType (Keyboard.type quality) = Some ct ->
  let carry :=
    (getNoteIndex key + default 0 (at_index Keyboard.scaleIntervals degree))
    / 12 in
  0 <= carry <= 1
  /\ exists midi,
       generateChord key (degree + 1) (Some ct) 0 (octave + carry) = Ok midi
       /\ Keyboard.generateChord (keyName key) octave degree
          = Ok (map scientificName midi).
Proof.
  intros Hquality Htype. cbv zeta.
  pose proof (getNoteIndex_range key) as Hk.
  assert (Hdegree : degree = 0 \/ degree = 1 \/ degree = 2 \/ degree = 3
                    \/ degree = 4 \/ degree = 5 \/ degree = 6).
  { unfold at_index in Hquality.
    destruct (Z.ltb_spec degree 0) as [|Hpos]; [discriminate|].
    apply lookup_lt_Some in Hquality. simpl in Hquality. lia. }
  assert (Hcases :
    exists scaleRoot,
      at_index Keyboard.scaleIntervals degree = Some scaleRoot
      /\ 0 <= scaleRoot <= 11
      /\ MAJOR_SCALE !! Z.to_nat (degree + 1 - 1) = Some scaleRoot
      /\ Keyboard.intervals quality = CHORD_INTERVALS ct).
  { repeat destruct Hdegree as [-> | Hdegree]; try subst degree;
      cbn in Hquality; injection Hquality as <-;
      cbn in Htype; try discriminate; injection Htype as <-;
      eexists; (split; [reflexivity|]); (split; [lia|]);
      split; reflexivity. }
  destruct Hcases as (scaleRoot & Hscale & Hrange & Hmajor & Hintervals).
  rewrite Hscale. change (default 0 (Some scaleRoot)) with scaleRoot.
  split.
  { split; [apply Z.div_pos; lia|].
    apply Z.lt_succ_r, Z.div_lt_upper_bound; lia. }
  assert (Hd : 1 <= degree + 1 <= 7) by lia.
  rewrite (generateChord_root_position key (degree + 1) (Some ct) _ Hd).
  eexists. split; [reflexivity|].
  unfold Keyboard.generateChord. rewrite Hquality, Hscale, Hintervals.
  f_equal. rewrite map_map. apply map_ext_in. intros interval Hin.
  assert (Hi : 0 <= interval).
  { destruct (CHORD_INTERVALS_range ct) as [Hall _].
    rewrite Forall_forall in Hall. apply list_elem_of_In, Hall in Hin. lia. }
  rewrite getNoteFromInterval_scientific by lia. f_equal.
  unfold chordRoot. rewrite Hmajor.
  change (default 0 (Some scaleRoot)) with scaleRoot. cbn [chordQuality].
  rewrite Z.rem_mod_nonneg by lia.
  pose proof (Z.div_mod (getNoteIndex key + scaleRoot) 12 ltac:(lia)). lia.
Qed.

Lemma instrument_agrees_with_chord_model_witness :
  generateChord K_B 5 (Some sus2) 0 4 = Ok [66; 68; 73]
  /\ Keyboard.generateChord "B" 3 4
     = Ok [Some "F#4"; Some "G#4"; Some "C#5"].
Proof.
  destruct (instrument_agrees_with_chord_model K_B 3 4
              {| Keyboard.name := "V"; Keyboard.type := "sus2";
                 Keyboard.intervals := [0; 2; 7];
                 Keyboard.color := "yellow" |} sus2 eq_refl eq_refl)
    as (_ & midi & Hmidi & Hnames).
  vm_compute in Hmidi. injection Hmidi as <-.
  split; [reflexivity | exact Hnames].
Defined.

Lemma includes_In (l : list Z) (x : Z) :
  Suggestion.includes l x = true <-> In x l.
Proof.
  unfold Suggestion.includes. rewrite existsb_exists. split.
  - intros (y & Hy & Heq). apply Z.eqb_eq in Heq. subst. exact Hy.
  - intros Hx. exists x. split; [exact Hx | apply Z.eqb_refl].
Qed.

Lemma insertM_byNumber_sorted (x : Z) (l : list Z) rnd n :
  StronglySorted Z.lt l -> ~ In x l ->
  StronglySorted Z.lt (fst (insertM Keyboard.byNumber x l rnd n)).
Proof.
  intros Hsorted. revert n.
  induction Hsorted as [|y l Hl IH Hy]; intros n Hx.
  - cbn. repeat constructor.
  - cbn [insertM]. unfold bind at 1. unfold Keyboard.byNumber at 1.
    unfold ret at 1. cbn [fst snd ngtb nltb nleb].
    destruct (Qle_bool (inject_Z (x - y)) 0) eqn:E; cbn [negb].
    + apply Qle_bool_iff in E. unfold Qle in E. simpl in E.
      unfold ret. cbn [fst].
      assert (Hxy : x < y) by (cbn [In] in Hx; lia).
      constructor; [constructor; assumption|].
      constructor; [exact Hxy|].
      eapply Forall_impl; [exact Hy|]. intros z Hz. cbv beta in *. lia.
    + apply Qle_bool_false in E. unfold Qlt in E. simpl in E.
      unfold bind, ret. cbn [fst].
      constructor; [apply IH; cbn [In] in Hx; tauto|].
      apply Forall_forall. intros z Hz. apply list_elem_of_In in Hz.
      apply (Permutation_in _ (insertM_Permutation Keyboard.byNumber x l
                                 rnd n)) in Hz.
      destruct Hz as [<- | Hz]; [lia|].
      rewrite Forall_forall in Hy. apply Hy, list_elem_of_In, Hz.
Qed.

Lemma sortM_byNumber_sorted (l : list Z) rnd n :
  List.NoDup l -> StronglySorted Z.lt (fst (sortM Keyboard.byNumber l rnd n)).
Proof.
  intros Hnd. revert n. induction Hnd as [|x l Hx Hl IH]; intros n.
  - constructor.
  - cbn [sortM]. unfold bind. apply insertM_byNumber_sorted; [apply IH|].
    intros Hin. apply Hx.
    apply (Permutation_in _ (sortM_Permutation Keyboard.byNumber l rnd n)).
    exact Hin.
Qed.

Lemma StronglySorted_lt_NoDup (l : list Z) :
  StronglySorted Z.lt l -> List.NoDup l.
Proof.
  induction 1 as [|x l Hl IH Hx]; constructor; [|exact IH].
  intros Hin. rewrite Forall_forall in Hx.
  apply list_elem_of_In, Hx in Hin. lia.
Qed.

Lemma StronglySorted_filter_bool (f : Z -> bool) (l : list Z) :
  StronglySorted Z.lt l -> StronglySorted Z.lt (List.filter f l).
Proof.
  induction 1 as [|x l Hl IH Hx]; [constructor|].
  cbn [List.filter]. destruct (f x); [|exact IH].
  constructor; [exact IH|].
  apply Forall_forall. intros z Hz.
  apply list_elem_of_In, filter_In in Hz as [Hz _].
  rewrite Forall_forall in Hx. apply Hx, list_elem_of_In, Hz.
Qed.

(** One toggle: the rows stay ascending, and exactly row [i] changes
    sides. *)
Lemma toggleRow_spec (prev : list Z) (i : Z) rnd n :
  StronglySorted Z.lt prev ->
  StronglySorted Z.lt (fst (Keyboard.toggleRow prev i rnd n))
  /\ forall j, In j (fst (Keyboard.toggleRow prev i rnd n))
               <-> toggled prev i j.
Proof.
  intros Hsorted. unfold Keyboard.toggleRow, toggled.
  destruct (Suggestion.includes prev i) eqn:E.
  - apply includes_In in E. cbn [ret fst]. split.
    + apply StronglySorted_filter_bool, Hsorted.
    + intros j. rewrite filter_In, negb_true_iff, Z.eqb_neq.
      destruct (decide (j = i)) as [-> | Hne]; tauto.
  - assert (Hout : ~ In i prev).
    { intros Hin. apply includes_In in Hin. congruence. }
    split.
    + apply sortM_byNumber_sorted.
      apply NoDup_ListNoDup, NoDup_app. repeat split.
      * apply NoDup_ListNoDup, StronglySorted_lt_NoDup, Hsorted.
      * intros x Hx Hx'. apply list_elem_of_In in Hx.
        apply list_elem_of_In in Hx'. cbn in Hx'.
        destruct Hx' as [<- | []]. contradiction.
      * apply NoDup_ListNoDup. repeat constructor. intros [].
    + intros j. split.
      * intros Hj.
        apply (Permutation_in _ (sortM_Permutation Keyboard.byNumber
                                   (prev ++ [i]) rnd n)) in Hj.
        apply in_app_or in Hj as [Hj | [<- | []]].
        -- destruct (decide (j = i)) as [-> | _]; [contradiction | exact Hj].
        -- rewrite decide_True by reflexivity. exact Hout.
      * intros Hj.
        apply (Permutation_in _ (Permutation_sym
                 (sortM_Permutation Keyboard.byNumber (prev ++ [i]) rnd n))).
        apply in_or_app.
        destruct (decide (j = i)) as [-> | _];
          [right; left; reflexivity | left; exact Hj].
Qed.

(** X27: toggling a row of the step sequencer. On ascending, duplicate-free
    active rows a toggle of row [i] removes [i] if it is active and adds
    it in its place if it is not; the rows stay ascending and
    duplicate-free, no other row changes, and a second toggle of the same
    row restores the rows exactly. *)
Theorem toggleRow_involution (prev : list Z) (i : Z)
    (rnd rnd' : nat -> Q) (n n' : nat) :
  StronglySorted Z.lt prev ->
  let once := fst (Keyboard.toggleRow prev i rnd n) in
  StronglySorted Z.lt once
  /\ (forall j, In j once <-> toggled prev i j)
  /\ fst (Keyboard.toggleRow once i rnd' n') = prev.
Proof.
  intros Hsorted. cbv zeta.
  destruct (toggleRow_spec prev i rnd n Hsorted) as [Honce Hmem].
  split; [exact Honce|]. split; [exact Hmem|].
  destruct (toggleRow_spec _ i rnd' n' Honce) as [Htwice Hmem'].
  apply (StronglySorted_unique_strong Z.lt); [intros; lia | assumption..|].
  apply NoDup_Permutation.
  - apply NoDup_ListNoDup, StronglySorted_lt_NoDup, Htwice.
  - apply NoDup_ListNoDup, StronglySorted_lt_NoDup, Hsorted.
  - intros j. rewrite !list_elem_of_In, Hmem'. unfold toggled.
    destruct (decide (j = i)) as [-> | Hne].
    + rewrite Hmem. unfold toggled. rewrite decide_True by reflexivity.
      destruct (in_dec Z.eq_dec i prev); tauto.
    + rewrite Hmem. unfold toggled. rewrite decide_False by exact Hne.
      reflexivity.
Qed.

Lemma toggleRow_involution_witness :
  let once :=
    fst (Keyboard.toggleRow [0; 1; 2; 3; 4; 5; 6] 3 (fun _ => 0%Q) 0%nat) in
  once = [0; 1; 2; 4; 5; 6]
  /\ fst (Keyboard.toggleRow once 3 (fun _ => 0%Q) 0%nat)
     = [0; 1; 2; 3; 4; 5; 6].
Proof.
  cbv zeta. split; [reflexivity|].
  apply (toggleRow_involution [0; 1; 2; 3; 4; 5; 6] 3 (fun _ => 0%Q)
           (fun _ => 0%Q) 0%nat 0%nat).
  repeat constructor; lia.
Defined.

End KeyboardFacts.
